(** * cwalk: a concurrent directory walker

    A shallow embedding of package [cwalk] (the walker, its job queue with
    synchronous fallback, the worker pool, the error collector and the
    [Walk] orchestrator) as a labelled transition system over an explicit
    state, together with the properties of its specification. *)

From Stdlib Require Import List String Ascii Arith Lia Bool Permutation Relations
  ZArith.
Import ListNotations.
#[local] Set Warnings "-register-all".
Local Open Scope string_scope.

(** ** Error values *)

Module Err.

(** Go's [error] interface holds values of several dynamic types.  The two
    package-level sentinels are compared by identity ([err != filepath.SkipDir]),
    so each is a constructor of its own; [PathError] stands for what [os.Lstat]
    and [os.Open] return, [Custom] for any other value a callback may return,
    and [ErrorListValue] for a [WalkerErrorList] used as an [error]. *)
Inductive error : Type :=
| SkipDir
| ErrNotDir
| PathError (msg : string)
| Custom (msg : string)
| ErrorListValue (ErrorList : list WalkerError)
with WalkerError : Type :=
| mkWalkerError (error_ : error) (path : string).

Definition we_error (we : WalkerError) : error :=
  match we with mkWalkerError e _ => e end.

Definition we_path (we : WalkerError) : string :=
  match we with mkWalkerError _ p => p end.

(** [type WalkerErrorList struct { ErrorList []WalkerError }] *)
Definition WalkerErrorList := list WalkerError.

(** A nil-able [error]. *)
Definition err := option error.

(** [err != nil && err != filepath.SkipDir] *)
Definition is_SkipDir (e : error) : bool :=
  match e with SkipDir => true | _ => false end.

Definition newline : string := String (ascii_of_nat 10) EmptyString.

(** [strings.Join(elems, sep)]: the empty string for no element, the single
    element alone, otherwise the first element followed by [sep ++ s] for each
    later element [s]. *)
Definition strings_Join (elems : list string) (sep : string) : string :=
  match elems with
  | [] => EmptyString
  | [x] => x
  | x :: rest => fold_left (fun b s => b ++ sep ++ s) rest x
  end.

(** [func (we WalkerError) Error() string] and
    [func (wel WalkerErrorList) Error() string]; the messages of the two
    sentinels are the ones given to [errors.New]. *)
Fixpoint Error (e : error) : string :=
  match e with
  | SkipDir => "skip this directory"
  | ErrNotDir => "Not a directory"
  | PathError msg => msg
  | Custom msg => msg
  | ErrorListValue l =>
      if (0 <? List.length l)%nat
      then strings_Join (map WalkerError_Error l) newline
      else EmptyString
  end
with WalkerError_Error (we : WalkerError) : string :=
  match we with
  | mkWalkerError e _ => Error e
  end.

Definition WalkerErrorList_Error (wel : WalkerErrorList) : string :=
  Error (ErrorListValue wel).

End Err.

Local Open Scope list_scope.

(** ** The file system seen by one walk *)

Module FS.
Import Err.

(** What the walker reads of an [os.FileInfo]. *)
Record FileInfo : Type := mkFileInfo { Name : string; IsDir : bool }.

(** The part of the file system below the root of a walk.  The walker never
    follows symbolic links ([os.Lstat]), so what it can reach by descent is a
    finite tree.  Each entry records what the two system calls of the walker
    answer for the path naming it: [lstat] is the answer of [os.Lstat],
    [readdir] is [Some e] when [os.Open]/[Readdirnames] fails with [e], and
    [entries] are the names [Readdirnames] lists, in listing order, each with
    the entry it names. *)
Inductive node : Type :=
| Node (lstat : FileInfo + error) (readdir : option error)
       (entries : list (string * node)).

(** [info, err := os.Lstat(path)]: on failure [info] is nil. *)
Definition Lstat (nd : node) : option FileInfo * err :=
  match nd with
  | Node (inl fi) _ _ => (Some fi, None)
  | Node (inr e) _ _ => (None, Some e)
  end.

(** [names, err := readDirNames(path)]: both failure exits return
    [nil, err]; success returns the names unsorted. *)
Definition readDirNames (nd : node) : list (string * node) * err :=
  match nd with
  | Node _ (Some e) _ => ([], Some e)
  | Node _ None es => (es, None)
  end.

End FS.

(** ** The walker as a transition system *)

(** One call of [Walk] runs several goroutines: the caller, [NumWorkers]
    workers and the error collector.  A state holds the fields of the
    [Walker] and, for each goroutine, what it has left to do; a step is one
    move of one goroutine, and the scheduler is free to pick any goroutine
    that can move.  A step is atomic.  Where one step joins two operations
    on the shared fields, no other goroutine can tell them apart from the
    two done at once: [w.wg.Add(1)] before the [select] of [addJob] is seen
    by [w.wg.Wait()] only, which cannot return while the submitting
    activation is outstanding; and between the return of [w.wg.Wait()] and
    the two [close] calls only sends to [w.errors] and the collector can
    move, and those do the same before as between.  The deferred
    [w.wg.Done()] of [processPath] and the send of its result by the caller
    are two steps.

    The file system does not change during a walk, so a directory path
    denotes one entry from the moment it is listed: here the path travels
    with that entry.  The callback is a function of its three arguments.
    A panic in any goroutine ends the process: a panicked state has no
    step.  [NumWorkers] and [BufferSize] are natural numbers: the loop
    [for n := 1; n <= NumWorkers; n++] starts no worker for a count below
    one, and [make] panics on a negative capacity. *)

Module Cwalk.
Import Err FS.

(** Who called [processPath]: the loop of [worker], or the [default] branch
    of the [select] in [addJob]. *)
Inductive caller : Type := ByWorker | ByAddJob.

(** What an execution context has left to do; a context is a stack of these,
    innermost first.  A directory path travels with the entry it names. *)
Inductive task : Type :=
| AddJob (path : string) (nd : node)
    (** at the entry of [w.addJob(path)] *)
| ProcessPath (c : caller) (path : string) (nd : node)
    (** at the entry of [w.processPath(path)] *)
| Range (c : caller) (root : string) (names : list (string * node))
    (** at the head of [for _, name := range names] with [names] left *)
| Send (we : WalkerError)
    (** at [w.errors <- we] *).

Definition thread : Type := list task.

(** The goroutine that called [Walk]. *)
Inductive phase : Type :=
| Start (root : string) (nd : node)  (** [Walk] entered *)
| Running (stk : thread)             (** past the root check; at [w.wg.Wait()] when [stk] is empty *)
| Draining                           (** both channels closed; at [w.ewg.Wait()] *)
| Returned (e : err)                 (** [Walk] has returned [e] *).

Inductive panic : Type :=
| NilDereference        (** method call on a nil [os.FileInfo] *)
| SendOnClosedChannel
| NegativeWaitGroup.

(** One observed call [walkFunc(path, info, err)]. *)
Definition call : Type := (string * option FileInfo * err)%type.

(** The fields of [Walker] (a channel is its buffer and whether it is
    closed; [ewg_done] is whether [collectErrors] has run [w.ewg.Done()]),
    the goroutines of the walk, the calls made to the callback so far, and
    whether the process has panicked. *)
Record Walker : Type := mkWalker {
  wg : nat;
  ewg_done : bool;
  jobs : list (string * node);
  jobs_closed : bool;
  errors : list WalkerError;
  errors_closed : bool;
  errorList : WalkerErrorList;
  main : phase;
  workers : list thread;
  calls : list call;
  crashed : option panic
}.

Definition set_wg (w : Walker) (n : nat) : Walker :=
  mkWalker n (ewg_done w) (jobs w) (jobs_closed w) (errors w) (errors_closed w)
           (errorList w) (main w) (workers w) (calls w) (crashed w).
Definition set_ewg_done (w : Walker) : Walker :=
  mkWalker (wg w) true (jobs w) (jobs_closed w) (errors w) (errors_closed w)
           (errorList w) (main w) (workers w) (calls w) (crashed w).
Definition set_jobs (w : Walker) (js : list (string * node)) : Walker :=
  mkWalker (wg w) (ewg_done w) js (jobs_closed w) (errors w) (errors_closed w)
           (errorList w) (main w) (workers w) (calls w) (crashed w).
Definition set_errors (w : Walker) (es : list WalkerError) : Walker :=
  mkWalker (wg w) (ewg_done w) (jobs w) (jobs_closed w) es (errors_closed w)
           (errorList w) (main w) (workers w) (calls w) (crashed w).
Definition close_channels (w : Walker) : Walker :=
  mkWalker (wg w) (ewg_done w) (jobs w) true (errors w) true
           (errorList w) (main w) (workers w) (calls w) (crashed w).
Definition set_errorList (w : Walker) (l : WalkerErrorList) : Walker :=
  mkWalker (wg w) (ewg_done w) (jobs w) (jobs_closed w) (errors w) (errors_closed w)
           l (main w) (workers w) (calls w) (crashed w).
Definition set_main (w : Walker) (m : phase) : Walker :=
  mkWalker (wg w) (ewg_done w) (jobs w) (jobs_closed w) (errors w) (errors_closed w)
           (errorList w) m (workers w) (calls w) (crashed w).
Definition set_workers (w : Walker) (ws : list thread) : Walker :=
  mkWalker (wg w) (ewg_done w) (jobs w) (jobs_closed w) (errors w) (errors_closed w)
           (errorList w) (main w) ws (calls w) (crashed w).
Definition add_call (w : Walker) (c : call) : Walker :=
  mkWalker (wg w) (ewg_done w) (jobs w) (jobs_closed w) (errors w) (errors_closed w)
           (errorList w) (main w) (workers w) (calls w ++ [c]) (crashed w).
Definition crash (w : Walker) (p : panic) : Walker :=
  mkWalker (wg w) (ewg_done w) (jobs w) (jobs_closed w) (errors w) (errors_closed w)
           (errorList w) (main w) (workers w) (calls w) (Some p).

(** Execution contexts that run [processPath]: the caller of [Walk] and the
    workers, numbered from 0. *)
Inductive tid : Type := TMain | TWorker (i : nat).

Fixpoint replace_nth {A : Type} (i : nat) (x : A) (l : list A) : list A :=
  match l, i with
  | [], _ => []
  | _ :: l', O => x :: l'
  | y :: l', S i' => y :: replace_nth i' x l'
  end.

Definition get_thread (w : Walker) (t : tid) : option thread :=
  match t with
  | TMain => match main w with Running stk => Some stk | _ => None end
  | TWorker i => nth_error (workers w) i
  end.

Definition set_thread (w : Walker) (t : tid) (stk : thread) : Walker :=
  match t with
  | TMain => set_main w (Running stk)
  | TWorker i => set_workers w (replace_nth i stk (workers w))
  end.

(** [w.wg.Add(1)] and [w.wg.Done()]; [Done] below zero panics. *)
Definition wg_Add (w : Walker) : Walker := set_wg w (S (wg w)).

Definition wg_Done (w : Walker) : Walker :=
  match wg w with
  | O => crash w NegativeWaitGroup
  | S n => set_wg w n
  end.

(** The initial state: a zero [Walker{}] and the call [w.Walk(root, walkFn)]
    pending on the caller's goroutine. *)
Definition Walk_init (root : string) (nd : node) : Walker :=
  mkWalker 0 false [] false [] false [] (Start root nd) [] [] None.

Section Machine.

(** The package variables [NumWorkers] and [BufferSize], read once per walk;
    [filepath.Join]; and the callback given to [Walk], stored in
    [w.walkFunc] before anything else runs. *)
Variable NumWorkers : nat.
Variable BufferSize : nat.
Variable Join : string -> string -> string.
Variable walkFn : string -> option FileInfo -> err -> err.

(** What the caller of [processPath(path)] does with its result.  Both
    [worker] and the [default] branch of [addJob] read
    [if err != nil { w.errors <- WalkerError{error: err, path: path} }]. *)
Definition worker_report (path : string) (e : err) : thread :=
  match e with
  | Some e' => [Send (mkWalkerError e' path)]
  | None => []
  end.

Definition addJob_report (path : string) (e : err) : thread :=
  match e with
  | Some e' => [Send (mkWalkerError e' path)]
  | None => []
  end.

(** [processPath(path)] returns [e] to caller [c]: the deferred
    [w.wg.Done()] runs, then the caller continues above the rest [k] of the
    stack. *)
Definition processPath_return (w : Walker) (t : tid) (k : thread)
    (c : caller) (path : string) (e : err) : Walker :=
  let w1 := wg_Done w in
  match crashed w1 with
  | Some _ => w1
  | None =>
      set_thread w1 t
        (match c with
         | ByWorker => worker_report path e
         | ByAddJob => addJob_report path e
         end ++ k)
  end.

(** The entry of [processPath]: list the directory; a failure is returned,
    otherwise the loop starts. *)
Definition processPath_enter (w : Walker) (t : tid) (k : thread)
    (c : caller) (path : string) (nd : node) : Walker :=
  match readDirNames nd with
  | (_, Some e) => processPath_return w t k c path (Some e)
  | (names, None) => set_thread w t (Range c path names :: k)
  end.

(** One pass through the body of the loop of [processPath], or its exit
    when no name is left. *)
Definition processPath_range (w : Walker) (t : tid) (k : thread)
    (c : caller) (root : string) (names : list (string * node)) : Walker :=
  match names with
  | [] => processPath_return w t k c root None
  | (name, nd) :: rest =>
      let path := Join root name in
      let '(info, e0) := Lstat nd in
      let e1 := walkFn path info e0 in
      let w1 := add_call w (path, info, e0) in
      match e1 with
      | None =>
          (* err == nil && info.IsDir() *)
          match info with
          | None => crash w1 NilDereference
          | Some fi =>
              if IsDir fi
              then set_thread w1 t (AddJob path nd :: Range c root rest :: k)
              else set_thread w1 t (Range c root rest :: k)
          end
      | Some e =>
          (* err != nil && err != filepath.SkipDir *)
          if is_SkipDir e
          then set_thread w1 t (Range c root rest :: k)
          else processPath_return w1 t k c root (Some e)
      end
  end.

(** The non-blocking send [case w.jobs <- path] of [addJob].  [receiver]
    names a worker parked in the receive of [range w.jobs], if the scheduler
    has one; the send then hands the path to it.  Otherwise the path goes to
    the buffer if it has room, and [None] is the [default] branch. *)
Definition try_send_job (w : Walker) (receiver : option nat)
    (path : string) (nd : node) : option Walker :=
  match receiver with
  | Some i =>
      match nth_error (workers w) i, jobs w with
      | Some [], [] =>
          Some (set_workers w
                  (replace_nth i [ProcessPath ByWorker path nd] (workers w)))
      | _, _ => None
      end
  | None =>
      if (List.length (jobs w) <? BufferSize)%nat
      then Some (set_jobs w (jobs w ++ [(path, nd)]))
      else None
  end.

(** Whether the scheduler's choice of a parked receiver is possible. *)
Definition receiver_parked (w : Walker) (receiver : option nat) : bool :=
  match receiver with
  | Some i =>
      match nth_error (workers w) i, jobs w with
      | Some [], [] => true
      | _, _ => false
      end
  | None => true
  end.

(** [addJob(path)]. *)
Definition addJob (w : Walker) (t : tid) (k : thread)
    (path : string) (nd : node) (receiver : option nat) : option Walker :=
  if negb (receiver_parked w receiver) then None else
  let w1 := wg_Add w in
  if jobs_closed w1 then Some (crash w1 SendOnClosedChannel) else
  match try_send_job w1 receiver path nd with
  | Some w2 => Some (set_thread w2 t k)
  | None => Some (set_thread w1 t (ProcessPath ByAddJob path nd :: k))
  end.

(** [w.errors <- we]: a blocking send.  [receiver] tells whether the
    collector is parked in the receive of [range w.errors] (the buffer is
    then empty) and takes the value at once; otherwise the value goes to the
    buffer if it has room, and the sender stays blocked if it has none. *)
Definition send_error (w : Walker) (t : tid) (k : thread)
    (we : WalkerError) (receiver : option nat) : option Walker :=
  if errors_closed w then Some (crash w SendOnClosedChannel) else
  match receiver with
  | Some _ =>
      match errors w with
      | [] => Some (set_thread (set_errorList w (errorList w ++ [we])) t k)
      | _ :: _ => None
      end
  | None =>
      if (List.length (errors w) <? BufferSize)%nat
      then Some (set_thread (set_errors w (errors w ++ [we])) t k)
      else None
  end.

(** One step of the context [t]. *)
Definition run (w : Walker) (t : tid) (receiver : option nat) : option Walker :=
  match get_thread w t with
  | Some (AddJob path nd :: k) => addJob w t k path nd receiver
  | Some (ProcessPath c path nd :: k) =>
      Some (processPath_enter w t k c path nd)
  | Some (Range c root names :: k) =>
      Some (processPath_range w t k c root names)
  | Some (Send we :: k) => send_error w t k we receiver
  | _ => None
  end.

(** [worker]: an idle worker receives the next path from [w.jobs]. *)
Definition worker (w : Walker) (i : nat) : option Walker :=
  match nth_error (workers w) i, jobs w with
  | Some [], (path, nd) :: js =>
      Some (set_workers (set_jobs w js)
              (replace_nth i [ProcessPath ByWorker path nd] (workers w)))
  | _, _ => None
  end.

(** [collectErrors]: receive one error and append it; when the channel is
    closed and drained, [w.ewg.Done()]. *)
Definition collectErrors (w : Walker) : option Walker :=
  match errors w with
  | we :: es => Some (set_errorList (set_errors w es) (errorList w ++ [we]))
  | [] =>
      if errors_closed w && negb (ewg_done w)
      then Some (set_ewg_done w)
      else None
  end.

(** [Walk], from its entry to the call [w.addJob(root)] (not included). *)
Definition Walk_root (w : Walker) (root : string) (nd : node) : Walker :=
  let '(info, e0) := Lstat nd in
  (* if err == nil { err = w.walkFunc(root, info, err) } *)
  let '(w1, e1) :=
    match e0 with
    | None => (add_call w (root, info, e0), walkFn root info e0)
    | Some _ => (w, e0)
    end in
  match e1 with
  | Some e => set_main w1 (Returned (Some e))
  | None =>
      match info with
      | None => crash w1 NilDereference
      | Some fi =>
          if negb (IsDir fi)
          then set_main w1 (Returned (Some ErrNotDir))
          else set_main (set_workers w1 (repeat [] NumWorkers))
                        (Running [AddJob root nd])
      end
  end.

(** [Walk], from [w.wg.Wait()] to its return. *)
Definition Walk_wait (w : Walker) : option Walker :=
  match main w, wg w with
  | Running [], O => Some (set_main (close_channels w) Draining)
  | _, _ => None
  end.

Definition Walk_return (w : Walker) : option Walker :=
  match main w with
  | Draining =>
      if ewg_done w
      then Some (set_main w
                   (Returned (if (0 <? List.length (errorList w))%nat
                              then Some (ErrorListValue (errorList w))
                              else None)))
      else None
  | _ => None
  end.

(** The steps of the system, one per scheduling decision. *)
Inductive action : Type :=
| ARoot                                     (** [Walk] up to [addJob(root)] *)
| ARun (t : tid) (receiver : option nat)    (** context [t] moves *)
| AWorker (i : nat)                         (** worker [i] receives a job *)
| ACollect                                  (** the collector moves *)
| AWait                                     (** [wg.Wait()] returns; both channels are closed *)
| AReturn                                   (** [ewg.Wait()] returns; [Walk] returns *).

Definition step (w : Walker) (a : action) : option Walker :=
  match crashed w with
  | Some _ => None
  | None =>
      match a with
      | ARoot =>
          match main w with
          | Start root nd => Some (Walk_root w root nd)
          | _ => None
          end
      | ARun t receiver => run w t receiver
      | AWorker i => worker w i
      | ACollect => collectErrors w
      | AWait => Walk_wait w
      | AReturn => Walk_return w
      end
  end.

Fixpoint exec (w : Walker) (l : list action) : option Walker :=
  match l with
  | [] => Some w
  | a :: l' =>
      match step w a with
      | Some w' => exec w' l'
      | None => None
      end
  end.

Definition steps_to (w w' : Walker) : Prop := exists a, step w a = Some w'.

(** The states a walk of [root] can be in. *)
Definition reachable (root : string) (nd : node) : Walker -> Prop :=
  clos_refl_trans_n1 Walker steps_to (Walk_init root nd).

(** [Walk] has returned [e]. *)
Definition returned (w : Walker) (e : err) : Prop := main w = Returned e.

(** The paths the callback was called with, in the order of the calls. *)
Definition visited (w : Walker) : list string :=
  map (fun c : call => fst (fst c)) (calls w).

End Machine.

End Cwalk.

(** ** What a walk is expected to visit, and what a state still owes *)

Module Spec.
Import Err FS Cwalk.

(** The entries directory descent reaches below an entry: those its
    listing gives, provided [Lstat] says it is a directory. *)
Definition descend (nd : node) : list (string * node) :=
  match nd with
  | Node (inl fi) None es => if IsDir fi then es else []
  | Node _ _ _ => []
  end.

(** No file system operation fails anywhere the descent goes. *)
Fixpoint healthy (nd : node) : bool :=
  match nd with
  | Node (inl fi) rd es =>
      if IsDir fi
      then match rd with None => true | Some _ => false end
           && forallb (fun ne => healthy (snd ne)) es
      else true
  | Node (inr _) _ _ => false
  end.

Definition is_dir (nd : node) : bool :=
  match nd with
  | Node (inl fi) _ _ => IsDir fi
  | Node (inr _) _ _ => false
  end.

(** A directory a job may name when nothing fails. *)
Definition healthy_dir (nd : node) : bool := healthy nd && is_dir nd.

(** A weight for every entry, every task and every state, which each step
    of the system lowers. *)
Fixpoint weight (nd : node) : nat :=
  match nd with
  | Node _ _ es => 7 + list_sum (map (fun ne => weight (snd ne)) es)
  end.

Definition weight_entries (es : list (string * node)) : nat :=
  list_sum (map (fun ne => weight (snd ne)) es).

Definition weight_task (tk : task) : nat :=
  match tk with
  | AddJob _ nd => weight nd - 1
  | ProcessPath _ _ nd => weight nd - 3
  | Range _ _ es => 3 + weight_entries es
  | Send _ => 2
  end.

Definition weight_thread (stk : thread) : nat :=
  list_sum (map weight_task stk).

Definition weight_phase (m : phase) : nat :=
  match m with
  | Start _ nd => 4 + weight nd
  | Running stk => 3 + weight_thread stk
  | Draining => 1
  | Returned _ => 0
  end.

Definition measure (w : Walker) : nat :=
  match crashed w with
  | Some _ => 0
  | None =>
      1 + weight_phase (main w)
        + list_sum (map weight_thread (workers w))
        + list_sum (map (fun j => weight (snd j) - 2) (jobs w))
        + List.length (errors w)
        + (if ewg_done w then 0 else 1)
  end.

Section Paths.

Variable Join : string -> string -> string.

(** The paths reachable from [root] by directory descent, [root] first. *)
Fixpoint paths (root : string) (nd : node) : list string :=
  root ::
  match nd with
  | Node (inl fi) None es =>
      if IsDir fi
      then flat_map (fun ne => paths (Join root (fst ne)) (snd ne)) es
      else []
  | Node _ _ _ => []
  end.

(** The paths below the entries [es] of directory [root]. *)
Definition paths_below (root : string) (es : list (string * node)) : list string :=
  flat_map (fun ne => paths (Join root (fst ne)) (snd ne)) es.

(** How often a path occurs in a list of paths. *)
Definition occ (x : string) (l : list string) : nat :=
  count_occ string_dec l x.

(** How often a task has yet to bring [x] to the callback, itself or
    through the jobs it will submit. *)
Definition owed_task (x : string) (tk : task) : nat :=
  match tk with
  | AddJob path nd => occ x (paths_below path (descend nd))
  | ProcessPath _ path nd => occ x (paths_below path (descend nd))
  | Range _ root es => occ x (paths_below root es)
  | Send _ => 0
  end.

Definition owed_job (x : string) (j : string * node) : nat :=
  occ x (paths_below (fst j) (descend (snd j))).

End Paths.

(** A valuation of tasks and of queued jobs, summed over a state. *)
Definition total_thread (f : task -> nat) (stk : thread) : nat :=
  list_sum (map f stk).

Definition total (f : task -> nat) (g : string * node -> nat) (w : Walker) : nat :=
  match main w with
  | Running stk => total_thread f stk
  | _ => 0
  end
  + list_sum (map (total_thread f) (workers w))
  + list_sum (map g (jobs w)).

(** How often a state has yet to bring [x] to the callback. *)
Definition owed (Join : string -> string -> string) (x : string) (w : Walker) : nat :=
  match main w with
  | Start root nd => occ x (paths Join root nd)
  | _ => 0
  end
  + total (owed_task Join x) (owed_job Join x) w.

(** The caller of [Walk] is not inside the running phase. *)
Definition settled (m : phase) : bool :=
  match m with Running _ => false | _ => true end.

(** The shape of the states of a walk in which nothing fails. *)
Definition task_ok (tk : task) : bool :=
  match tk with
  | AddJob _ nd => healthy_dir nd
  | ProcessPath _ _ nd => healthy_dir nd
  | Range _ _ es => forallb (fun ne => healthy (snd ne)) es
  | Send _ => false
  end.

Definition is_Range (tk : task) : bool :=
  match tk with Range _ _ _ => true | _ => false end.

(** The activations of [processPath] that have not yet run [wg.Done()]. *)
Definition counts (tk : task) : nat :=
  match tk with
  | ProcessPath _ _ _ | Range _ _ _ => 1
  | AddJob _ _ | Send _ => 0
  end.

Definition outstanding (w : Walker) : nat :=
  total counts (fun _ => 1) w.

(** Below its top, a stack holds loops only. *)
Definition stack_ok (stk : thread) : bool :=
  forallb task_ok stk && forallb is_Range (tl stk).

Definition worker_ok (stk : thread) : bool :=
  stack_ok stk && match stk with [AddJob _ _] => false | _ => true end.

Definition idle (stk : thread) : bool :=
  match stk with [] => true | _ :: _ => false end.

Definition phase_ok (NumWorkers : nat) (w : Walker) : Prop :=
  match main w with
  | Start _ nd =>
      healthy nd = true /\ workers w = [] /\ jobs w = []
      /\ jobs_closed w = false
  | Running stk =>
      stack_ok stk = true /\ jobs_closed w = false
      /\ List.length (workers w) = NumWorkers
  | Draining =>
      errors_closed w = true /\ forallb idle (workers w) = true /\ jobs w = []
  | Returned _ =>
      forallb idle (workers w) = true /\ jobs w = []
  end.

Definition quiet (w : Walker) : Prop :=
  crashed w = None /\ errors w = [] /\ errorList w = [].

(** *** Whatever fails *)

Section Expected.

Variable Join : string -> string -> string.
Variable walkFn : string -> option FileInfo -> err -> err.

Section Loop.

(** What [processPath] brings to the callback for a directory it is given. *)
Variable below : string -> node -> list string.

(** The paths the loop of [processPath] for [root] brings to the callback
    over the names [es], with what the jobs it submits bring: the loop
    stops at the first child for which the callback returns an error other
    than the skip sentinel, and at a panic. *)
Fixpoint loop_with (root : string) (es : list (string * node)) : list string :=
  match es with
  | [] => []
  | (name, nd) :: rest =>
      Join root name ::
      match walkFn (Join root name) (fst (Lstat nd)) (snd (Lstat nd)) with
      | None =>
          match fst (Lstat nd) with
          | None => []
          | Some fi =>
              (if IsDir fi then below (Join root name) nd else [])
              ++ loop_with root rest
          end
      | Some e => if is_SkipDir e then loop_with root rest else []
      end
  end.

End Loop.

Fixpoint below (root : string) (nd : node) : list string :=
  match nd with
  | Node _ (Some _) _ => []
  | Node _ None es => loop_with below root es
  end.

(** The paths a walk of [nd] at [root] brings to the callback. *)
Definition expected (root : string) (nd : node) : list string :=
  match Lstat nd with
  | (_, Some _) => []
  | (info, None) =>
      root ::
      match walkFn root info None, info with
      | None, Some fi => if IsDir fi then below root nd else []
      | _, _ => []
      end
  end.

Definition due_task (x : string) (tk : task) : nat :=
  match tk with
  | AddJob path nd => occ x (below path nd)
  | ProcessPath _ path nd => occ x (below path nd)
  | Range _ root es => occ x (loop_with below root es)
  | Send _ => 0
  end.

Definition due_job (x : string) (j : string * node) : nat :=
  occ x (below (fst j) (snd j)).

(** How often a state has yet to bring [x] to the callback. *)
Definition due (x : string) (w : Walker) : nat :=
  match main w with
  | Start root nd => occ x (expected root nd)
  | _ => 0
  end
  + total (due_task x) (due_job x) w.

End Expected.

Definition tail_ranges (stk : thread) : bool := forallb is_Range (tl stk).

Definition thread_ok (stk : thread) : bool :=
  tail_ranges stk && match stk with [AddJob _ _] => false | _ => true end.

(** A worker that has nothing left but, at most, an error to send. *)
Definition drained (stk : thread) : bool :=
  match stk with
  | [] | [Send _] => true
  | _ => false
  end.

Definition phase_inv (NumWorkers : nat) (w : Walker) : Prop :=
  match main w with
  | Start _ _ =>
      workers w = [] /\ jobs w = [] /\ jobs_closed w = false
      /\ errors_closed w = false
  | Running stk =>
      tail_ranges stk = true /\ jobs_closed w = false
      /\ errors_closed w = false /\ List.length (workers w) = NumWorkers
  | Draining =>
      errors_closed w = true
      /\ forallb drained (workers w) = true /\ jobs w = []
  | Returned _ => forallb drained (workers w) = true /\ jobs w = []
  end.

(** The invariant of every walk, as long as the process has not
    panicked. *)
Definition walk_inv (NumWorkers BufferSize : nat)
    (Join : string -> string -> string)
    (walkFn : string -> option FileInfo -> err -> err)
    (root0 : string) (nd0 : node) (w : Walker) : Prop :=
  phase_inv NumWorkers w
  /\ forallb thread_ok (workers w) = true
  /\ List.length (jobs w) <= BufferSize
  /\ wg w = outstanding w
  /\ forall x,
       occ x (visited w) + due Join walkFn x w
       = occ x (expected Join walkFn root0 nd0).

Definition shape (NumWorkers BufferSize : nat) (w : Walker) : Prop :=
  quiet w
  /\ phase_ok NumWorkers w
  /\ forallb worker_ok (workers w) = true
  /\ forallb (fun j => healthy_dir (snd j)) (jobs w) = true
  /\ List.length (jobs w) <= BufferSize.

(** The invariant of a walk of the tree [nd0] at [root0] in which nothing
    fails: the counter of [wg] is the number of activations and queued jobs,
    and every path of the tree has been brought to the callback or is still
    owed, as often as it occurs. *)
Definition healthy_inv (NumWorkers BufferSize : nat)
    (Join : string -> string -> string) (root0 : string) (nd0 : node)
    (w : Walker) : Prop :=
  shape NumWorkers BufferSize w
  /\ wg w = outstanding w
  /\ forall x, occ x (visited w) + owed Join x w = occ x (paths Join root0 nd0).

End Spec.

(** ** Concrete trees and callbacks *)

Module Examples.
Import Err FS Cwalk.

(** A join that separates the two parts by a slash. *)
Definition Join (dir name : string) : string :=
  String.append dir (String.append "/" name).

Definition file (name : string) : node :=
  Node (inl (mkFileInfo name false)) (Some (PathError "not a directory")) [].

Definition dir (name : string) (es : list (string * node)) : node :=
  Node (inl (mkFileInfo name true)) None es.

(** A directory that cannot be opened. *)
Definition locked_dir (name : string) : node :=
  Node (inl (mkFileInfo name true)) (Some (PathError "permission denied")) [].

(** An entry that cannot be stat'ed. *)
Definition vanished : node :=
  Node (inr (PathError "no such file or directory"))
       (Some (PathError "no such file or directory")) [].

(** [root/{a.txt, sub/{b.txt, c.txt}}] *)
Definition tree : node :=
  dir "root"
    [("a.txt", file "a.txt");
     ("sub", dir "sub" [("b.txt", file "b.txt"); ("c.txt", file "c.txt")])].

(** [root/{a.txt}] *)
Definition small_tree : node := dir "root" [("a.txt", file "a.txt")].

(** [root/{gone}] where [gone] cannot be stat'ed. *)
Definition tree_with_vanished : node := dir "root" [("gone", vanished)].

(** [root/{d}] where [d] cannot be listed. *)
Definition tree_with_locked : node := dir "root" [("d", locked_dir "d")].

(** The counting callback of the command-line tool: it returns nil,
    whatever it is given. *)
Definition callback (path : string) (info : option FileInfo) (e : err) : err :=
  None.

(** A callback that skips the subtree of the root. *)
Definition skip_root (path : string) (info : option FileInfo) (e : err) : err :=
  if String.eqb path "root" then Some SkipDir else None.


(** A callback that skips every directory named [sub]. *)
Definition skip_sub (path : string) (info : option FileInfo) (e : err) : err :=
  match info with
  | Some fi => if String.eqb (Name fi) "sub" then Some SkipDir else None
  | None => None
  end.

(** A callback that lets the root pass and aborts everywhere below. *)
Definition abort_below (path : string) (info : option FileInfo) (e : err) : err :=
  if String.eqb path "root" then None else Some (Custom "boom").

(** [root/{a.txt, b.txt}] *)
Definition two_files : node :=
  dir "root" [("a.txt", file "a.txt"); ("b.txt", file "b.txt")].

(** [root/{x/, sub/}] *)
Definition two_dirs : node :=
  dir "root" [("x", dir "x" []); ("sub", dir "sub" [])].

(** The state of a walk of [nd] at ["root"] after the schedule [l]. *)
Definition after (NumWorkers BufferSize : nat)
    (walkFn : string -> option FileInfo -> err -> err) (nd : node)
    (l : list action) : Walker :=
  match exec NumWorkers BufferSize Join walkFn (Walk_init "root" nd) l with
  | Some w => w
  | None => Walk_init "root" nd
  end.

(** With no buffer and the worker not yet parked, the caller of [Walk]
    runs [processPath("root")] itself; here it is at the head of the loop,
    both names left. *)
Definition in_loop : Walker :=
  after 1 0 abort_below two_files [ARoot; ARun TMain None; ARun TMain None].

(** With a buffer of one, the worker has queued ["root/x"] and is at the
    entry of [addJob("root/sub")]: the queue is full. *)
Definition at_addJob : Walker :=
  after 1 1 callback two_dirs
    [ARoot; ARun TMain None; AWorker 0; ARun (TWorker 0) None;
     ARun (TWorker 0) None; ARun (TWorker 0) None; ARun (TWorker 0) None].

(** A complete walk of [small_tree] by one worker through a queue of one. *)
Definition pool_schedule : list action :=
  [ARoot; ARun TMain None; AWorker 0; ARun (TWorker 0) None;
   ARun (TWorker 0) None; ARun (TWorker 0) None; AWait; ACollect; AReturn].

(** A complete walk of [tree_with_locked] in which the error of [d] is
    sent before [Walk] closes the error channel. *)
Definition finished_with_error : Walker :=
  after 2 1 callback tree_with_locked
    [ARoot; ARun TMain None; AWorker 0; ARun (TWorker 0) None;
     ARun (TWorker 0) None; ARun (TWorker 0) None; ARun (TWorker 0) None;
     AWorker 0; ARun (TWorker 0) None; ARun (TWorker 0) None;
     AWait; ACollect; ACollect; AReturn].

Definition finished_pool : Walker :=
  after 1 1 callback small_tree pool_schedule.

(** A complete walk of [small_tree] with no worker and no buffer: the
    caller of [Walk] does everything itself. *)
Definition inline_schedule : list action :=
  [ARoot; ARun TMain None; ARun TMain None; ARun TMain None; ARun TMain None;
   AWait; ACollect; AReturn].

Definition finished_inline : Walker :=
  after 0 0 callback small_tree inline_schedule.

End Examples.

(** ** The steps of a walk, one rule per outcome *)

(** The function [step] decides by cases what a move does.  The relation
    below names each case: the state a move is made from, what the moving
    goroutine has read, and the state it leaves.  It lists the moves as
    they occur in the states a walk goes through, where the counter of
    [w.wg] is positive whenever [processPath] returns and [w.jobs] is open
    whenever [addJob] runs. *)

Module Steps.
Import Err FS Cwalk.

Section Transitions.

Variable NumWorkers : nat.
Variable BufferSize : nat.
Variable Join : string -> string -> string.
Variable walkFn : string -> option FileInfo -> err -> err.

Inductive transition (w : Walker) : Walker -> Prop :=
(** [Walk]: [os.Lstat(root)] fails *)
| T_root_stat (root : string) (nd : node) (e : error) :
    main w = Start root nd ->
    Lstat nd = (None, Some e) ->
    transition w (set_main w (Returned (Some e)))
(** [Walk]: the callback returns an error for the root *)
| T_root_callback (root : string) (nd : node) (fi : FileInfo) (e : error) :
    main w = Start root nd ->
    Lstat nd = (Some fi, None) ->
    walkFn root (Some fi) None = Some e ->
    transition w
      (set_main (add_call w (root, Some fi, None)) (Returned (Some e)))
(** [Walk]: the root is not a directory *)
| T_root_not_dir (root : string) (nd : node) (fi : FileInfo) :
    main w = Start root nd ->
    Lstat nd = (Some fi, None) ->
    walkFn root (Some fi) None = None ->
    IsDir fi = false ->
    transition w
      (set_main (add_call w (root, Some fi, None)) (Returned (Some ErrNotDir)))
(** [Walk]: the workers are spawned, [addJob(root)] is next *)
| T_root_start (root : string) (nd : node) (fi : FileInfo) :
    main w = Start root nd ->
    Lstat nd = (Some fi, None) ->
    walkFn root (Some fi) None = None ->
    IsDir fi = true ->
    transition w
      (set_main
         (set_workers (add_call w (root, Some fi, None)) (repeat [] NumWorkers))
         (Running [AddJob root nd]))
(** [addJob]: the path is handed to the parked worker [i] *)
| T_handoff (t : tid) (k : thread) (path : string) (nd : node) (i : nat) :
    get_thread w t = Some (AddJob path nd :: k) ->
    jobs_closed w = false ->
    nth_error (workers w) i = Some [] ->
    jobs w = [] ->
    transition w
      (set_thread
         (set_workers (wg_Add w)
            (replace_nth i [ProcessPath ByWorker path nd] (workers w)))
         t k)
(** [addJob]: the path goes to the buffer of [w.jobs] *)
| T_enqueue (t : tid) (k : thread) (path : string) (nd : node) :
    get_thread w t = Some (AddJob path nd :: k) ->
    jobs_closed w = false ->
    List.length (jobs w) < BufferSize ->
    transition w
      (set_thread (set_jobs (wg_Add w) (jobs w ++ [(path, nd)])) t k)
(** [addJob]: the [default] branch, [processPath(path)] is called in place *)
| T_inline (t : tid) (k : thread) (path : string) (nd : node) :
    get_thread w t = Some (AddJob path nd :: k) ->
    jobs_closed w = false ->
    BufferSize <= List.length (jobs w) ->
    transition w
      (set_thread (wg_Add w) t (ProcessPath ByAddJob path nd :: k))
(** [processPath]: [readDirNames] fails; [wg.Done()], the caller is left
    to send the error *)
| T_list_fail (t : tid) (k : thread) (c : caller) (path : string) (nd : node)
    (e : error) (n : nat) :
    get_thread w t = Some (ProcessPath c path nd :: k) ->
    snd (readDirNames nd) = Some e ->
    wg w = S n ->
    transition w
      (set_thread (set_wg w n) t (Send (mkWalkerError e path) :: k))
(** [processPath]: the directory is listed, the loop starts *)
| T_list (t : tid) (k : thread) (c : caller) (path : string) (nd : node)
    (es : list (string * node)) :
    get_thread w t = Some (ProcessPath c path nd :: k) ->
    readDirNames nd = (es, None) ->
    transition w (set_thread w t (Range c path es :: k))
(** [processPath]: no name is left; [return nil] and [wg.Done()] *)
| T_loop_end (t : tid) (k : thread) (c : caller) (root : string) (n : nat) :
    get_thread w t = Some (Range c root [] :: k) ->
    wg w = S n ->
    transition w (set_thread (set_wg w n) t k)
(** [processPath]: the callback returns [filepath.SkipDir] for a child *)
| T_skip (t : tid) (k : thread) (c : caller) (root name : string) (nd : node)
    (rest : list (string * node)) (info : option FileInfo) (e0 : err)
    (e : error) :
    get_thread w t = Some (Range c root ((name, nd) :: rest) :: k) ->
    Lstat nd = (info, e0) ->
    walkFn (Join root name) info e0 = Some e ->
    is_SkipDir e = true ->
    transition w
      (set_thread (add_call w (Join root name, info, e0)) t
         (Range c root rest :: k))
(** [processPath]: the callback returns another error for a child;
    [return err] and [wg.Done()], the caller is left to send the error *)
| T_abort (t : tid) (k : thread) (c : caller) (root name : string) (nd : node)
    (rest : list (string * node)) (info : option FileInfo) (e0 : err)
    (e : error) (n : nat) :
    get_thread w t = Some (Range c root ((name, nd) :: rest) :: k) ->
    Lstat nd = (info, e0) ->
    walkFn (Join root name) info e0 = Some e ->
    is_SkipDir e = false ->
    wg w = S n ->
    transition w
      (set_thread (set_wg (add_call w (Join root name, info, e0)) n) t
         (Send (mkWalkerError e root) :: k))
(** [processPath]: the callback returns nil for a directory; [addJob] is
    next *)
| T_descend (t : tid) (k : thread) (c : caller) (root name : string)
    (nd : node) (rest : list (string * node)) (fi : FileInfo) (e0 : err) :
    get_thread w t = Some (Range c root ((name, nd) :: rest) :: k) ->
    Lstat nd = (Some fi, e0) ->
    walkFn (Join root name) (Some fi) e0 = None ->
    IsDir fi = true ->
    transition w
      (set_thread (add_call w (Join root name, Some fi, e0)) t
         (AddJob (Join root name) nd :: Range c root rest :: k))
(** [processPath]: the callback returns nil for another entry *)
| T_pass (t : tid) (k : thread) (c : caller) (root name : string)
    (nd : node) (rest : list (string * node)) (fi : FileInfo) (e0 : err) :
    get_thread w t = Some (Range c root ((name, nd) :: rest) :: k) ->
    Lstat nd = (Some fi, e0) ->
    walkFn (Join root name) (Some fi) e0 = None ->
    IsDir fi = false ->
    transition w
      (set_thread (add_call w (Join root name, Some fi, e0)) t
         (Range c root rest :: k))
(** [processPath]: the callback returns nil for a child that could not be
    stat'ed; [info.IsDir()] panics *)
| T_nil_info (t : tid) (k : thread) (c : caller) (root name : string)
    (nd : node) (rest : list (string * node)) (e0 : err) :
    get_thread w t = Some (Range c root ((name, nd) :: rest) :: k) ->
    Lstat nd = (None, e0) ->
    walkFn (Join root name) None e0 = None ->
    transition w
      (crash (add_call w (Join root name, None, e0)) NilDereference)
(** [w.errors <- we]: the collector takes the value at once *)
| T_send_direct (t : tid) (k : thread) (we : WalkerError) :
    get_thread w t = Some (Send we :: k) ->
    errors_closed w = false ->
    errors w = [] ->
    transition w (set_thread (set_errorList w (errorList w ++ [we])) t k)
(** [w.errors <- we]: the value goes to the buffer *)
| T_send_buffer (t : tid) (k : thread) (we : WalkerError) :
    get_thread w t = Some (Send we :: k) ->
    errors_closed w = false ->
    List.length (errors w) < BufferSize ->
    transition w (set_thread (set_errors w (errors w ++ [we])) t k)
(** [w.errors <- we] after [close(w.errors)]: the send panics *)
| T_send_closed (t : tid) (k : thread) (we : WalkerError) :
    get_thread w t = Some (Send we :: k) ->
    errors_closed w = true ->
    transition w (crash w SendOnClosedChannel)
(** [worker]: the idle worker [i] receives a path *)
| T_receive (i : nat) (path : string) (nd : node) (js : list (string * node)) :
    nth_error (workers w) i = Some [] ->
    jobs w = (path, nd) :: js ->
    transition w
      (set_workers (set_jobs w js)
         (replace_nth i [ProcessPath ByWorker path nd] (workers w)))
(** [collectErrors]: one error is received and appended *)
| T_collect (we : WalkerError) (es : list WalkerError) :
    errors w = we :: es ->
    transition w (set_errorList (set_errors w es) (errorList w ++ [we]))
(** [collectErrors]: the channel is closed and drained; [w.ewg.Done()] *)
| T_collector_exit :
    errors w = [] ->
    errors_closed w = true ->
    ewg_done w = false ->
    transition w (set_ewg_done w)
(** [Walk]: [w.wg.Wait()] returns, both channels are closed *)
| T_wait :
    main w = Running [] ->
    wg w = 0 ->
    transition w (set_main (close_channels w) Draining)
(** [Walk]: [w.ewg.Wait()] returns, [Walk] returns *)
| T_return :
    main w = Draining ->
    ewg_done w = true ->
    transition w
      (set_main w
         (Returned (if (0 <? List.length (errorList w))%nat
                    then Some (ErrorListValue (errorList w))
                    else None))).

End Transitions.

End Steps.

(** ** What a walk brings about *)

Module Outcome.
Import Err FS Cwalk Spec.

(** Equality of errors is decidable. *)
Definition error_eq_dec : forall a b : error, {a = b} + {a <> b}.
Proof.
  fix IH 1. intros a b.
  destruct a as [| |m|m|l], b as [| |m'|m'|l'];
    try (right; discriminate); try (left; reflexivity).
  - destruct (string_dec m m') as [->|Hn]; [left; reflexivity|].
    right. intros H; injection H as H. contradiction.
  - destruct (string_dec m m') as [->|Hn]; [left; reflexivity|].
    right. intros H; injection H as H. contradiction.
  - assert (Hl : {l = l'} + {l <> l'}).
    { revert l'. induction l as [|[e p] l IHl]; intros [|[e' p'] l'];
        try (right; discriminate); try (left; reflexivity).
      destruct (IH e e') as [->|Hn].
      - destruct (string_dec p p') as [->|Hn].
        + destruct (IHl l') as [->|Hn]; [left; reflexivity|].
          right. intros H; injection H as H. contradiction.
        + right. intros H; injection H as H. contradiction.
      - right. intros H; injection H as H. contradiction. }
    destruct Hl as [->|Hn]; [left; reflexivity|].
    right. intros H; injection H as H. contradiction.
Defined.

Definition WalkerError_eq_dec : forall a b : WalkerError, {a = b} + {a <> b}.
Proof.
  intros [e p] [e' p'].
  destruct (error_eq_dec e e') as [->|Hn].
  - destruct (string_dec p p') as [->|Hn]; [left; reflexivity|].
    right. intros H; injection H as H. contradiction.
  - right. intros H; injection H as H. contradiction.
Defined.

(** Two things of a walk are seen from outside: the calls of the callback
    and the errors handed to the collector. *)
Inductive event : Type :=
| Called (c : call)
| Reported (we : WalkerError).

Definition calls_of (l : list event) : list call :=
  flat_map (fun ev => match ev with Called c => [c] | Reported _ => [] end) l.

Definition reports_of (l : list event) : list WalkerError :=
  flat_map (fun ev => match ev with Called _ => [] | Reported we => [we] end) l.

(** The weight that counts one error among the events. *)
Definition count_report (x : WalkerError) (ev : event) : nat :=
  match ev with
  | Called _ => 0
  | Reported we => if WalkerError_eq_dec we x then 1 else 0
  end.

(** A call with metadata and no error, or with an error and no metadata,
    as [os.Lstat] gives them. *)
Definition stat_call (c : call) : Prop :=
  (exists fi, snd (fst c) = Some fi /\ snd c = None)
  \/ (exists e, snd (fst c) = None /\ snd c = Some e).

Section Events.

Variable Join : string -> string -> string.
Variable walkFn : string -> option FileInfo -> err -> err.

Section Loop.

(** What [processPath] brings about for a directory it is given. *)
Variable dir_events : string -> node -> list event.

(** What the loop of [processPath] for [root] brings about over the names
    [es], with what the jobs it submits bring about: each child is stat'ed
    and brought to the callback; a directory for which the callback returns
    nil is submitted; the skip sentinel lets the loop go on; any other error
    ends the loop and is reported under [root]; a nil [info] after a nil
    answer is the end of the process. *)
Fixpoint loop_events (root : string) (es : list (string * node)) : list event :=
  match es with
  | [] => []
  | (name, nd) :: rest =>
      Called (Join root name, fst (Lstat nd), snd (Lstat nd)) ::
      match walkFn (Join root name) (fst (Lstat nd)) (snd (Lstat nd)) with
      | None =>
          match fst (Lstat nd) with
          | None => []
          | Some fi =>
              (if IsDir fi then dir_events (Join root name) nd else [])
              ++ loop_events root rest
          end
      | Some e =>
          if is_SkipDir e
          then loop_events root rest
          else [Reported (mkWalkerError e root)]
      end
  end.

End Loop.

(** [processPath(path)]: a listing that fails is reported under [path],
    otherwise the loop runs over the names. *)
Fixpoint dir_events (path : string) (nd : node) : list event :=
  match nd with
  | Node _ (Some e) _ => [Reported (mkWalkerError e path)]
  | Node _ None es => loop_events dir_events path es
  end.

(** [Walk(root, walkFn)]: nothing when the root cannot be stat'ed; else the
    call for the root and, when the callback returns nil for a directory,
    what [processPath(root)] brings about. *)
Definition walk_events (root : string) (nd : node) : list event :=
  match Lstat nd with
  | (_, Some _) => []
  | (info, None) =>
      Called (root, info, None) ::
      match walkFn root info None, info with
      | None, Some fi => if IsDir fi then dir_events root nd else []
      | _, _ => []
      end
  end.

(** The calls and the errors a walk of [nd] at [root] brings about. *)
Definition expected_calls (root : string) (nd : node) : list call :=
  calls_of (walk_events root nd).

Definition expected_errors (root : string) (nd : node) : list WalkerError :=
  reports_of (walk_events root nd).

(** What a task and the caller of [Walk] have yet to bring about, in the
    order in which one goroutine alone brings it about. *)
Definition task_events (tk : task) : list event :=
  match tk with
  | AddJob path nd => dir_events path nd
  | ProcessPath _ path nd => dir_events path nd
  | Range _ root es => loop_events dir_events root es
  | Send we => [Reported we]
  end.

Definition pending (w : Walker) : list event :=
  match main w with
  | Start root nd => walk_events root nd
  | Running stk => flat_map task_events stk
  | _ => []
  end.

(** With no worker and no buffer: the log, followed by what the caller of
    [Walk] has yet to bring about, is what the walk of [nd0] at [root0] is
    to bring about, calls and errors each in order. *)
Definition alone_inv (root0 : string) (nd0 : node) (w : Walker) : Prop :=
  workers w = [] /\ jobs w = [] /\ errors w = []
  /\ calls w ++ calls_of (pending w) = expected_calls root0 nd0
  /\ errorList w ++ reports_of (pending w) = expected_errors root0 nd0.

Section Worth.

(** Any way to weigh events. *)
Variable v : event -> nat.

Definition worth (l : list event) : nat := list_sum (map v l).

(** The weight of what a task, a queued job and a state have yet to bring
    about. *)
Definition held_task (tk : task) : nat :=
  match tk with
  | AddJob path nd => worth (dir_events path nd)
  | ProcessPath _ path nd => worth (dir_events path nd)
  | Range _ root es => worth (loop_events dir_events root es)
  | Send we => v (Reported we)
  end.

Definition held_job (j : string * node) : nat :=
  worth (dir_events (fst j) (snd j)).

Definition held (w : Walker) : nat :=
  match main w with
  | Start root nd => worth (walk_events root nd)
  | _ => 0
  end
  + total held_task held_job w.

(** The weight of what a state has brought about: the calls made, and the
    errors collected or in the buffer of [w.errors]. *)
Definition brought (w : Walker) : nat :=
  worth (map Called (calls w))
  + worth (map Reported (errorList w))
  + worth (map Reported (errors w)).

End Worth.

End Events.

(** The errors that contexts hold and have yet to send. *)
Definition unsent_task (tk : task) : list WalkerError :=
  match tk with
  | Send we => [we]
  | _ => []
  end.

Definition unsent (w : Walker) : list WalkerError :=
  match main w with
  | Running stk => flat_map unsent_task stk
  | _ => []
  end
  ++ flat_map (flat_map unsent_task) (workers w).

Section Provenance.

Variable Join : string -> string -> string.
Variable walkFn : string -> option FileInfo -> err -> err.
Variable root0 : string.
Variable nd0 : node.

(** [path] names the entry [nd] of the tree [nd0] rooted at [root0]: the
    root itself, or what a listing gives, joined to the path of the listed
    directory. *)
Inductive entry_of : string -> node -> Prop :=
| entry_root : entry_of root0 nd0
| entry_child (d : string) (dn : node) (name : string) (child : node) :
    entry_of d dn ->
    In (name, child) (fst (readDirNames dn)) ->
    entry_of (Join d name) child.

(** The callback has let the walk into the directory [nd] at [path]: it
    was stat'ed, is a directory, and the callback returned nil for it. *)
Definition accepted (path : string) (nd : node) : Prop :=
  entry_of path nd
  /\ exists fi,
       Lstat nd = (Some fi, None) /\ IsDir fi = true
       /\ walkFn path (Some fi) None = None.

(** Why [processPath(path)] returns the error [e] for the directory [nd]:
    its listing failed with [e], or the callback returned [e], not the skip
    sentinel, for one of its entries. *)
Definition cause (path : string) (nd : node) (e : error) : Prop :=
  snd (readDirNames nd) = Some e
  \/ exists name child,
       In (name, child) (fst (readDirNames nd))
       /\ walkFn (Join path name) (fst (Lstat child)) (snd (Lstat child))
          = Some e
       /\ is_SkipDir e = false.

Definition report_sound (we : WalkerError) : Prop :=
  exists nd, accepted (we_path we) nd /\ cause (we_path we) nd (we_error we).

(** The call for the directory is in the log. *)
Definition entered (log : list call) (path : string) (nd : node) : Prop :=
  accepted path nd /\ In (path, fst (Lstat nd), None) log.

Definition task_sound (log : list call) (tk : task) : Prop :=
  match tk with
  | AddJob path nd => entered log path nd
  | ProcessPath _ path nd => entered log path nd
  | Range _ root names =>
      exists nd pre,
        entered log root nd /\ readDirNames nd = (pre ++ names, None)
  | Send we => report_sound we
  end.

(** A call made after the calls [log]: it is for an entry of the tree, with
    what [os.Lstat] answers for it; it is the call for the root, the first
    of all, or a call for an entry of a directory whose own call is in
    [log]. *)
Definition call_sound (log : list call) (c : call) : Prop :=
  exists nd,
    entry_of (fst (fst c)) nd
    /\ Lstat nd = (snd (fst c), snd c)
    /\ ((log = [] /\ fst (fst c) = root0 /\ nd = nd0)
        \/ exists d dn name,
             fst (fst c) = Join d name
             /\ entered log d dn
             /\ In (name, nd) (fst (readDirNames dn))).

Inductive log_sound : list call -> Prop :=
| log_nil : log_sound []
| log_snoc (log : list call) (c : call) :
    log_sound log -> call_sound log c -> log_sound (log ++ [c]).

Definition threads_all (P : task -> Prop) (w : Walker) : Prop :=
  match main w with
  | Running stk => Forall P stk
  | _ => True
  end
  /\ Forall (Forall P) (workers w).

(** Every path and every error a state holds has its origin in the tree
    and in the calls made so far. *)
Definition sound (w : Walker) : Prop :=
  log_sound (calls w)
  /\ threads_all (task_sound (calls w)) w
  /\ Forall (fun j => entered (calls w) (fst j) (snd j)) (jobs w)
  /\ Forall report_sound (errors w)
  /\ Forall report_sound (errorList w).

End Provenance.

End Outcome.

(** ** The programs that use the walker *)

(** [traversaltime] walks a directory with a callback that counts what it
    is given, and prints the counts and the error of [Walk]. *)

Module Traversaltime.
Import Err FS Cwalk Outcome.

(** [var fileCount int32], [var folderCount int32], [var errorCount int32] *)
Record Counters : Type := mkCounters {
  fileCount : Z;
  folderCount : Z;
  errorCount : Z
}.

(** [folderCount = 0; fileCount = 0; errorCount = 0] *)
Definition reset : Counters := mkCounters 0 0 0.

(** An [int32] holds the integers from [-2^31] to [2^31 - 1]; a sum that
    leaves the range wraps around. *)
Definition int32 (z : Z) : Z :=
  ((z + 2147483648) mod 4294967296 - 2147483648)%Z.

(** [atomic.AddInt32(&x, delta)] *)
Definition AddInt32 (x delta : Z) : Z := int32 (x + delta).

(** The counting of both callbacks.  [info.IsDir()] is called when [err]
    is nil; on a nil [info] it panics, which is [None] here. *)
Definition count (s : Counters) (info : option FileInfo) (e : err)
    : option Counters :=
  match e with
  | Some _ =>
      Some (mkCounters (fileCount s) (folderCount s)
              (AddInt32 (errorCount s) 1))
  | None =>
      match info with
      | None => None
      | Some fi =>
          if IsDir fi
          then Some (mkCounters (fileCount s) (AddInt32 (folderCount s) 1)
                       (errorCount s))
          else Some (mkCounters (AddInt32 (fileCount s) 1) (folderCount s)
                       (errorCount s))
      end
  end.

(** [callback] of the command-line program: it counts and returns nil. *)
Definition callback (s : Counters) (path : string) (info : option FileInfo)
    (e : err) : option (Counters * err) :=
  match count s info e with
  | Some s' => Some (s', None)
  | None => None
  end.

(** [callback] of the example program: given an error, it counts it and
    hands it back; otherwise it counts and returns nil. *)
Definition example_callback (s : Counters) (path : string)
    (info : option FileInfo) (e : err) : option (Counters * err) :=
  match e with
  | Some _ =>
      Some (mkCounters (fileCount s) (folderCount s)
              (AddInt32 (errorCount s) 1), e)
  | None =>
      match count s info e with
      | Some s' => Some (s', None)
      | None => None
      end
  end.

(** What a callback returns to the walker: it does not depend on the
    counters. *)
Definition answer
    (cb : Counters -> string -> option FileInfo -> err -> option (Counters * err))
    (path : string) (info : option FileInfo) (e : err) : err :=
  match cb reset path info e with
  | Some (_, r) => r
  | None => None
  end.

(** The counters after the calls [l], made one after the other from the
    counters [s].  The additions are atomic and commute, so the order in
    which concurrent calls add does not matter. *)
Definition tally
    (cb : Counters -> string -> option FileInfo -> err -> option (Counters * err))
    (l : list call) (s : Counters) : option Counters :=
  fold_left
    (fun acc c =>
       match acc with
       | Some s' => option_map fst (cb s' (fst (fst c)) (snd (fst c)) (snd c))
       | None => None
       end)
    l (Some s).

(** What the example program does with the error of [Walk]:
    [if err != nil { ... len(err.(cwalk.WalkerErrorList).ErrorList) ...
    err.Error() }].  The type assertion panics on an error that is not a
    [WalkerErrorList]. *)
Inductive printed : Type :=
| Nothing
| ErrorsReturned (n : nat) (text : string)
| AssertionPanic.

Definition print_errors (e : err) : printed :=
  match e with
  | None => Nothing
  | Some (ErrorListValue l) =>
      ErrorsReturned (List.length l) (Error (ErrorListValue l))
  | Some _ => AssertionPanic
  end.

(** The entries directory descent reaches from an entry, itself included,
    each weighed by [k]. *)
Fixpoint census (k : FileInfo -> nat) (nd : node) : nat :=
  match nd with
  | Node (inl fi) rd es =>
      k fi +
      (if IsDir fi
       then match rd with
            | None => list_sum (map (fun ne => census k (snd ne)) es)
            | Some _ => 0
            end
       else 0)
  | Node (inr _) _ _ => 0
  end.

(** The directories and the other entries of a tree. *)
Definition folders (nd : node) : nat :=
  census (fun fi => if IsDir fi then 1 else 0) nd.

Definition files (nd : node) : nat :=
  census (fun fi => if IsDir fi then 0 else 1) nd.

(** The calls that [count] takes for a file, a folder and an error. *)
Definition counts_file (ev : event) : nat :=
  match ev with
  | Called (_, Some fi, None) => if IsDir fi then 0 else 1
  | _ => 0
  end.

Definition counts_folder (ev : event) : nat :=
  match ev with
  | Called (_, Some fi, None) => if IsDir fi then 1 else 0
  | _ => 0
  end.

Definition counts_error (ev : event) : nat :=
  match ev with
  | Called (_, _, Some _) => 1
  | _ => 0
  end.

End Traversaltime.

(** ** Further walks *)

Module Runs.
Import Err FS Cwalk.

(** What the callback of the example program returns. *)
Definition relay : string -> option FileInfo -> err -> err :=
  Traversaltime.answer Traversaltime.example_callback.

(** The walk of [root/{gone}] up to the panic of [info.IsDir()]. *)
Definition panicked : Walker :=
  Examples.after 4 4 Examples.callback Examples.tree_with_vanished
    [ARoot; ARun TMain None; AWorker 0;
     ARun (TWorker 0) None; ARun (TWorker 0) None].

(** The same walk with a callback that hands the error back: the loop of
    [processPath("root")] has ended and the worker is left to send. *)
Definition relayed : Walker :=
  Examples.after 4 4 relay Examples.tree_with_vanished
    [ARoot; ARun TMain None; AWorker 0;
     ARun (TWorker 0) None; ARun (TWorker 0) None].

(** A walk whose root is a plain file. *)
Definition file_root : Walker :=
  Examples.after 2 2 Examples.callback (Examples.file "root") [ARoot].

(** A walk of [root/{d}], [d] not listable, in which [Walk] returns before
    the worker has sent the error of [d]. *)
Definition early_schedule : list action :=
  [ARoot; ARun TMain None; AWorker 0; ARun (TWorker 0) None;
   ARun (TWorker 0) None; ARun (TWorker 0) None; ARun (TWorker 0) None;
   AWorker 0; ARun (TWorker 0) None; AWait; ACollect; AReturn].

Definition returned_early : Walker :=
  Examples.after 2 2 Examples.callback Examples.tree_with_locked
    early_schedule.

(** The example program given a plain file. *)
Definition example_file_root : Walker :=
  Examples.after 2 2 relay (Examples.file "root") [ARoot].

(** What the callback of the command-line program returns. *)
Definition counting : string -> option FileInfo -> err -> err :=
  Traversaltime.answer Traversaltime.callback.

(** A complete walk of [root/{a.txt, sub/{b.txt, c.txt}}] by the
    command-line program, with one worker and a queue of one. *)
Definition counted : Walker :=
  Examples.after 1 1 counting Examples.tree
    [ARoot; ARun TMain None; AWorker 0; ARun (TWorker 0) None;
     ARun (TWorker 0) None; ARun (TWorker 0) None; ARun (TWorker 0) None;
     ARun (TWorker 0) None; AWorker 0; ARun (TWorker 0) None;
     ARun (TWorker 0) None; ARun (TWorker 0) None; ARun (TWorker 0) None;
     AWait; ACollect; AReturn].

(** A complete walk of [root/{d}], [d] not listable, with no worker and
    no buffer: the caller of [Walk] does everything itself and hands the
    error of [d] to the collector. *)
Definition alone : Walker :=
  Examples.after 0 0 Examples.callback Examples.tree_with_locked
    [ARoot; ARun TMain None; ARun TMain None; ARun TMain None;
     ARun TMain None; ARun TMain None; ARun TMain (Some 0); ARun TMain None;
     AWait; ACollect; AReturn].

(** The walk of [root/{d}] that ends in [Examples.finished_with_error],
    at the moment the error of [d] is in the buffer of [w.errors], and the
    steps that are left. *)
Definition sent : Walker :=
  Examples.after 2 1 Examples.callback Examples.tree_with_locked
    [ARoot; ARun TMain None; AWorker 0; ARun (TWorker 0) None;
     ARun (TWorker 0) None; ARun (TWorker 0) None; ARun (TWorker 0) None;
     AWorker 0; ARun (TWorker 0) None; ARun (TWorker 0) None].

Definition collection : list action := [AWait; ACollect; ACollect; AReturn].

(** A walk with no worker and a queue of one, the root queued. *)
Definition queued : Walker :=
  Examples.after 0 1 Examples.callback Examples.small_tree
    [ARoot; ARun TMain None].

(** [root/{x/, d}] where [d] cannot be listed. *)
Definition dir_and_locked : node :=
  Examples.dir "root"
    [("x", Examples.dir "x" []); ("d", Examples.locked_dir "d")].

(** With one worker and a queue of one, the worker has queued ["root/x"]
    and is at the entry of [addJob("root/d")]: the queue is full. *)
Definition full_queue : Walker :=
  Examples.after 1 1 Examples.callback dir_and_locked
    [ARoot; ARun TMain None; AWorker 0; ARun (TWorker 0) None;
     ARun (TWorker 0) None; ARun (TWorker 0) None; ARun (TWorker 0) None].

(** The rest of that walk: the worker runs [processPath("root/d")] itself,
    sends the error and goes on. *)
Definition fallback_schedule : list action :=
  [ARun (TWorker 0) None; ARun (TWorker 0) None; ARun (TWorker 0) None;
   ARun (TWorker 0) None; AWorker 0; ARun (TWorker 0) None;
   ARun (TWorker 0) None; AWait; ACollect; ACollect; AReturn].

(** The error of [d]. *)
Definition locked_error : WalkerError :=
  mkWalkerError (PathError "permission denied") "root/d".

(** The call for the root of the example trees. *)
Definition root_call : call := ("root", Some (mkFileInfo "root" true), None).

End Runs.

(** * Properties *)

Import Err FS Cwalk Spec.

(** ** Lists updated in place *)

Lemma replace_nth_length {A : Type} (i : nat) (x : A) (l : list A) :
  List.length (replace_nth i x l) = List.length l.
Proof.
  revert i; induction l as [|y l IH]; intros [|i]; simpl; auto.
Qed.

Lemma nth_error_replace_nth_same {A : Type} (i : nat) (x y : A) (l : list A) :
  nth_error l i = Some y -> nth_error (replace_nth i x l) i = Some x.
Proof.
  revert i; induction l as [|z l IH]; intros [|i]; simpl; intros H;
    try discriminate; auto.
Qed.

Lemma nth_error_replace_nth_other {A : Type} (i j : nat) (x : A) (l : list A) :
  i <> j -> nth_error (replace_nth i x l) j = nth_error l j.
Proof.
  revert i j; induction l as [|z l IH]; intros [|i] [|j] H; simpl; auto.
  congruence.
Qed.

Lemma list_sum_replace_nth {A : Type} (f : A -> nat) (i : nat) (x y : A) (l : list A) :
  nth_error l i = Some y ->
  list_sum (map f (replace_nth i x l)) + f y = list_sum (map f l) + f x.
Proof.
  revert i; induction l as [|z l IH]; intros [|i]; simpl; intros H;
    try discriminate.
  - injection H as ->. lia.
  - specialize (IH _ H). lia.
Qed.

Lemma forallb_replace_nth {A : Type} (f : A -> bool) (i : nat) (x : A) (l : list A) :
  forallb f l = true -> f x = true -> forallb f (replace_nth i x l) = true.
Proof.
  revert i; induction l as [|z l IH]; intros [|i]; simpl; auto;
    rewrite !andb_true_iff; intuition.
Qed.

Lemma forallb_nth_error {A : Type} (f : A -> bool) (i : nat) (x : A) (l : list A) :
  forallb f l = true -> nth_error l i = Some x -> f x = true.
Proof.
  revert i; induction l as [|z l IH]; intros [|i]; simpl; try discriminate;
    rewrite andb_true_iff; intros [H1 H2] H.
  - injection H as <-. exact H1.
  - eauto.
Qed.

(** ** Every step lowers the measure: no walk runs forever *)

Section Termination.

Variable NumWorkers : nat.
Variable BufferSize : nat.
Variable Join : string -> string -> string.
Variable walkFn : string -> option FileInfo -> err -> err.

Lemma weight_ge (nd : node) : 7 <= weight nd.
Proof. destruct nd; simpl; lia. Qed.

Lemma weight_entries_cons (name : string) (nd : node) (rest : list (string * node)) :
  weight_entries ((name, nd) :: rest) = weight nd + weight_entries rest.
Proof. reflexivity. Qed.

Lemma measure_set_thread (w : Walker) (t : tid) (old stk : thread) :
  crashed w = None ->
  get_thread w t = Some old ->
  measure (set_thread w t stk) + weight_thread old
  = measure w + weight_thread stk.
Proof.
  intros Hc Hg. destruct t as [|i]; unfold measure, set_thread; simpl; rewrite Hc.
  - simpl in Hg. destruct (main w); try discriminate.
    injection Hg as ->. simpl. lia.
  - simpl in Hg.
    pose proof (list_sum_replace_nth weight_thread i stk old _ Hg). lia.
Qed.

Lemma measure_crash (w : Walker) (p : panic) :
  crashed w = None -> measure (crash w p) < measure w.
Proof. intros Hc. unfold measure. simpl. rewrite Hc. lia. Qed.

Lemma get_thread_wg_Done (w : Walker) (t : tid) :
  get_thread (wg_Done w) t = get_thread w t.
Proof. unfold wg_Done. destruct (wg w), t; reflexivity. Qed.

Lemma measure_wg_Done (w : Walker) :
  crashed w = None -> measure (wg_Done w) <= measure w.
Proof.
  intros Hc. unfold wg_Done. destruct (wg w).
  - apply Nat.lt_le_incl, measure_crash, Hc.
  - unfold measure; simpl; rewrite Hc. lia.
Qed.

Lemma measure_return (w : Walker) (t : tid) (k : thread) (c : caller)
    (path : string) (e : err) (top : task) :
  crashed w = None ->
  get_thread w t = Some (top :: k) ->
  3 <= weight_task top ->
  measure (processPath_return w t k c path e) < measure w.
Proof.
  intros Hc Hg Hw. unfold processPath_return.
  destruct (crashed (wg_Done w)) eqn:Hd.
  - unfold measure at 1. rewrite Hd.
    unfold measure. rewrite Hc. lia.
  - pose proof (measure_wg_Done w Hc) as Hm.
    rewrite <- get_thread_wg_Done in Hg.
    pose proof (measure_set_thread _ _ _
                  (match c with
                   | ByWorker => worker_report path e
                   | ByAddJob => addJob_report path e
                   end ++ k) Hd Hg) as Hs.
    unfold weight_thread in Hs. rewrite map_app, list_sum_app in Hs.
    simpl in Hs.
    assert (list_sum (map weight_task
              (match c with
               | ByWorker => worker_report path e
               | ByAddJob => addJob_report path e
               end)) <= 2)
      by (destruct c, e; simpl; lia).
    lia.
Qed.

Lemma weight_thread_repeat_nil (n : nat) :
  list_sum (map weight_thread (repeat [] n)) = 0.
Proof. induction n; simpl; auto. Qed.

Lemma measure_Walk_root (w : Walker) (root : string) (nd : node) :
  crashed w = None -> main w = Start root nd ->
  measure (Walk_root NumWorkers walkFn w root nd) < measure w.
Proof.
  intros Hc Hm. pose proof (weight_ge nd) as Hw.
  unfold Walk_root.
  destruct nd as [[fi|e] rd es]; cbn [Lstat].
  - destruct (walkFn root (Some fi) None) as [e|].
    + unfold measure; simpl; rewrite Hc, Hm; simpl. lia.
    + destruct (IsDir fi); simpl negb; cbv iota.
      * unfold measure; simpl; rewrite Hc, Hm.
        rewrite weight_thread_repeat_nil. simpl. lia.
      * unfold measure; simpl; rewrite Hc, Hm; simpl. lia.
  - unfold measure; simpl; rewrite Hc, Hm; simpl. lia.
Qed.

Lemma get_thread_handoff (w : Walker) (t : tid) (i : nat) (stk : thread)
    (top : task) (k : thread) :
  get_thread w t = Some (top :: k) ->
  nth_error (workers w) i = Some [] ->
  get_thread (set_workers w (replace_nth i stk (workers w))) t
  = Some (top :: k).
Proof.
  intros Hg Hi. destruct t as [|j]; simpl in *; auto.
  rewrite nth_error_replace_nth_other; auto.
  intros ->. congruence.
Qed.

Lemma measure_addJob (w w' : Walker) (t : tid) (k : thread) (path : string)
    (nd : node) (receiver : option nat) :
  crashed w = None ->
  get_thread w t = Some (AddJob path nd :: k) ->
  addJob BufferSize w t k path nd receiver = Some w' ->
  measure w' < measure w.
Proof.
  intros Hc Hg. pose proof (weight_ge nd) as Hw. unfold addJob.
  destruct (receiver_parked w receiver) eqn:Hp; simpl; [|discriminate].
  destruct (jobs_closed w) eqn:Hj.
  { intros H; injection H as <-.
    unfold measure; simpl; rewrite Hc; lia. }
  assert (Hm1 : measure (wg_Add w) = measure w) by reflexivity.
  assert (Hg1 : get_thread (wg_Add w) t = Some (AddJob path nd :: k))
    by (destruct t; exact Hg).
  assert (Hc1 : crashed (wg_Add w) = None) by exact Hc.
  unfold try_send_job.
  destruct receiver as [i|].
  - simpl workers. simpl jobs. simpl in Hp.
    destruct (nth_error (workers w) i) as [[|? ?]|] eqn:Hi; try discriminate.
    destruct (jobs w) eqn:Hjs; try discriminate.
    intros H; injection H as <-.
    set (w2 := set_workers (wg_Add w) _).
    assert (Hg2 : get_thread w2 t = Some (AddJob path nd :: k))
      by exact (get_thread_handoff (wg_Add w) t i _ _ _ Hg1 Hi).
    assert (Hc2 : crashed w2 = None) by exact Hc.
    pose proof (measure_set_thread w2 t _ k Hc2 Hg2) as Hs.
    assert (Hm2 : measure w2 + 0 = measure w + (weight nd - 3)).
    { unfold w2, measure; simpl; rewrite Hc, Hjs.
      pose proof (list_sum_replace_nth weight_thread i
                    [ProcessPath ByWorker path nd] [] _ Hi) as Hr.
      change (weight_thread []) with 0 in Hr.
      change (weight_thread [ProcessPath ByWorker path nd])
        with (weight nd - 3 + 0) in Hr.
      simpl. unfold thread in *. lia. }
    unfold weight_thread in Hs; simpl in Hs.
    unfold weight_thread. lia.
  - simpl jobs.
    destruct (List.length (jobs w) <? BufferSize)%nat.
    + intros H; injection H as <-.
      set (w2 := set_jobs (wg_Add w) _).
      assert (Hg2 : get_thread w2 t = Some (AddJob path nd :: k))
        by (destruct t; exact Hg).
      assert (Hc2 : crashed w2 = None) by exact Hc.
      pose proof (measure_set_thread w2 t _ k Hc2 Hg2) as Hs.
      assert (Hm2 : measure w2 = measure w + (weight nd - 2)).
      { unfold w2, measure; simpl; rewrite Hc.
        rewrite map_app, list_sum_app. simpl. lia. }
      unfold weight_thread in Hs; simpl in Hs.
      unfold weight_thread. lia.
    + intros H; injection H as <-.
      pose proof (measure_set_thread (wg_Add w) t _
                    (ProcessPath ByAddJob path nd :: k) Hc1 Hg1) as Hs.
      unfold weight_thread in Hs; simpl in Hs.
      unfold weight_thread. lia.
Qed.

Lemma measure_processPath_enter (w : Walker) (t : tid) (k : thread)
    (c : caller) (path : string) (nd : node) :
  crashed w = None ->
  get_thread w t = Some (ProcessPath c path nd :: k) ->
  measure (processPath_enter w t k c path nd) < measure w.
Proof.
  intros Hc Hg. pose proof (weight_ge nd) as Hw. unfold processPath_enter.
  destruct nd as [st [e|] es]; cbn [readDirNames].
  - eapply measure_return; eauto; simpl weight_task; lia.
  - pose proof (measure_set_thread w t _ (Range c path es :: k) Hc Hg) as Hs.
    unfold weight_thread in Hs; simpl in Hs.
    unfold weight_entries in *. lia.
Qed.

Lemma measure_processPath_range (w : Walker) (t : tid) (k : thread)
    (c : caller) (root : string) (names : list (string * node)) :
  crashed w = None ->
  get_thread w t = Some (Range c root names :: k) ->
  measure (processPath_range Join walkFn w t k c root names) < measure w.
Proof.
  intros Hc Hg. unfold processPath_range.
  destruct names as [|[name nd] rest].
  { eapply measure_return; eauto; simpl; lia. }
  pose proof (weight_ge nd) as Hw.
  destruct (Lstat nd) as [info e0].
  set (w1 := add_call w _).
  assert (Hm1 : measure w1 = measure w) by reflexivity.
  assert (Hg1 : get_thread w1 t = Some (Range c root ((name, nd) :: rest) :: k))
    by (destruct t; exact Hg).
  assert (Hc1 : crashed w1 = None) by exact Hc.
  assert (Hcont : measure (set_thread w1 t (Range c root rest :: k)) < measure w).
  { pose proof (measure_set_thread w1 t _ (Range c root rest :: k) Hc1 Hg1) as Hs.
    unfold weight_thread in Hs; simpl in Hs;
      rewrite ?weight_entries_cons in Hs. lia. }
  destruct (walkFn (Join root name) info e0) as [e|].
  - destruct (is_SkipDir e); auto.
    rewrite <- Hm1. eapply measure_return; eauto; simpl; lia.
  - destruct info as [fi|].
    + destruct (IsDir fi); auto.
      pose proof (measure_set_thread w1 t _
                    (AddJob (Join root name) nd :: Range c root rest :: k)
                    Hc1 Hg1) as Hs.
      unfold weight_thread in Hs; simpl in Hs;
      rewrite ?weight_entries_cons in Hs. lia.
    + rewrite <- Hm1. apply measure_crash. exact Hc1.
Qed.

Lemma measure_send_error (w w' : Walker) (t : tid) (k : thread)
    (we : WalkerError) (receiver : option nat) :
  crashed w = None ->
  get_thread w t = Some (Send we :: k) ->
  send_error BufferSize w t k we receiver = Some w' ->
  measure w' < measure w.
Proof.
  intros Hc Hg. unfold send_error.
  destruct (errors_closed w).
  { intros H; injection H as <-. apply measure_crash, Hc. }
  destruct receiver as [i|].
  - destruct (errors w) eqn:He; [|discriminate].
    intros H; injection H as <-.
    set (w2 := set_errorList w _).
    assert (Hg2 : get_thread w2 t = Some (Send we :: k)) by (destruct t; exact Hg).
    assert (Hc2 : crashed w2 = None) by exact Hc.
    pose proof (measure_set_thread w2 t _ k Hc2 Hg2) as Hs.
    assert (Hm2 : measure w2 = measure w) by reflexivity.
    unfold weight_thread in Hs; simpl in Hs. unfold weight_thread. lia.
  - destruct (List.length (errors w) <? BufferSize)%nat; [|discriminate].
    intros H; injection H as <-.
    set (w2 := set_errors w _).
    assert (Hg2 : get_thread w2 t = Some (Send we :: k)) by (destruct t; exact Hg).
    assert (Hc2 : crashed w2 = None) by exact Hc.
    pose proof (measure_set_thread w2 t _ k Hc2 Hg2) as Hs.
    assert (Hm2 : measure w2 = measure w + 1).
    { unfold w2, measure; simpl; rewrite Hc. rewrite length_app. simpl. lia. }
    unfold weight_thread in Hs; simpl in Hs. unfold weight_thread. lia.
Qed.

Lemma measure_worker (w w' : Walker) (i : nat) :
  crashed w = None -> worker w i = Some w' -> measure w' < measure w.
Proof.
  intros Hc. unfold worker.
  destruct (nth_error (workers w) i) as [[|? ?]|] eqn:Hi; try discriminate.
  destruct (jobs w) as [|[path nd] js] eqn:Hj; try discriminate.
  intros H; injection H as <-.
  pose proof (weight_ge nd) as Hw.
  pose proof (list_sum_replace_nth weight_thread i
                [ProcessPath ByWorker path nd] [] _ Hi) as Hr.
  change (weight_thread []) with 0 in Hr.
  change (weight_thread [ProcessPath ByWorker path nd])
    with (weight nd - 3 + 0) in Hr.
  unfold measure; simpl; rewrite Hc, Hj. simpl. unfold thread in *. lia.
Qed.

Lemma measure_collectErrors (w w' : Walker) :
  crashed w = None -> collectErrors w = Some w' -> measure w' < measure w.
Proof.
  intros Hc. unfold collectErrors.
  destruct (errors w) as [|we es] eqn:He.
  - destruct (errors_closed w); simpl; try discriminate.
    destruct (ewg_done w) eqn:Hd; simpl; try discriminate.
    intros H; injection H as <-.
    unfold measure; simpl; rewrite Hc, He, Hd. simpl. lia.
  - intros H; injection H as <-.
    unfold measure; simpl; rewrite Hc, He. simpl. lia.
Qed.

(** Every step lowers the measure, whatever the tree and the callback. *)
Lemma step_measure (w w' : Walker) (a : action) :
  step NumWorkers BufferSize Join walkFn w a = Some w' ->
  measure w' < measure w.
Proof.
  unfold step. destruct (crashed w) eqn:Hc; [discriminate|].
  destruct a as [|t r|i| | |].
  - destruct (main w) eqn:Hm; try discriminate.
    intros H; injection H as <-. apply measure_Walk_root; auto.
  - unfold run. destruct (get_thread w t) as [[|[path nd|c path nd|c root names|we] k]|] eqn:Hg;
      try discriminate.
    + apply measure_addJob; auto.
    + intros H; injection H as <-. apply measure_processPath_enter; auto.
    + intros H; injection H as <-. apply measure_processPath_range; auto.
    + apply measure_send_error; auto.
  - apply measure_worker; auto.
  - apply measure_collectErrors; auto.
  - unfold Walk_wait. destruct (main w) as [| [|? ?] | |] eqn:Hm; try discriminate.
    destruct (wg w); try discriminate.
    intros H; injection H as <-.
    unfold measure; simpl; rewrite Hc, Hm. simpl. lia.
  - unfold Walk_return. destruct (main w) eqn:Hm; try discriminate.
    destruct (ewg_done w) eqn:Hd; try discriminate.
    intros H; injection H as <-.
    unfold measure; simpl; rewrite Hc, Hm, Hd. simpl. lia.
Qed.

End Termination.

(** ** A walk in which nothing fails *)

Section Healthy.

Variable NumWorkers : nat.
Variable BufferSize : nat.
Variable Join : string -> string -> string.
Variable walkFn : string -> option FileInfo -> err -> err.

Lemma total_set_thread (f : task -> nat) (g : string * node -> nat)
    (w : Walker) (t : tid) (old stk : thread) :
  get_thread w t = Some old ->
  total f g (set_thread w t stk) + total_thread f old
  = total f g w + total_thread f stk.
Proof.
  intros Hg. destruct t as [|i]; unfold total, set_thread; simpl.
  - simpl in Hg. destruct (main w); try discriminate.
    injection Hg as ->. lia.
  - simpl in Hg.
    pose proof (list_sum_replace_nth (total_thread f) i stk old _ Hg).
    unfold thread in *. lia.
Qed.

Lemma total_thread_cons (f : task -> nat) (tk : task) (k : thread) :
  total_thread f (tk :: k) = f tk + total_thread f k.
Proof. reflexivity. Qed.

Lemma owed_set_thread (x : string) (w : Walker) (t : tid) (old stk : thread) :
  get_thread w t = Some old ->
  owed Join x (set_thread w t stk) + total_thread (owed_task Join x) old
  = owed Join x w + total_thread (owed_task Join x) stk.
Proof.
  intros Hg. unfold owed.
  pose proof (total_set_thread (owed_task Join x) (owed_job Join x) w t old stk Hg) as H.
  destruct t as [|i]; simpl in *.
  - destruct (main w); try discriminate. lia.
  - lia.
Qed.

Lemma paths_unfold (p : string) (nd : node) :
  paths Join p nd = p :: paths_below Join p (descend nd).
Proof.
  destruct nd as [[fi|e] [r|] es]; simpl; try reflexivity.
  destruct (IsDir fi); reflexivity.
Qed.

Lemma occ_app (x : string) (l1 l2 : list string) :
  occ x (l1 ++ l2) = occ x l1 + occ x l2.
Proof. apply count_occ_app. Qed.

Lemma paths_below_cons (root name : string) (nd : node) (rest : list (string * node)) :
  paths_below Join root ((name, nd) :: rest)
  = paths Join (Join root name) nd ++ paths_below Join root rest.
Proof. reflexivity. Qed.

Lemma healthy_descend (nd : node) :
  healthy_dir nd = true ->
  readDirNames nd = (descend nd, None)
  /\ forallb (fun ne => healthy (snd ne)) (descend nd) = true.
Proof.
  unfold healthy_dir. destruct nd as [[fi|e] rd es]; simpl.
  - destruct (IsDir fi); simpl; try discriminate.
    destruct rd; simpl; try discriminate.
    rewrite andb_true_r. auto.
  - discriminate.
Qed.

Lemma healthy_Lstat (nd : node) :
  healthy nd = true ->
  exists fi, Lstat nd = (Some fi, None) /\ IsDir fi = is_dir nd.
Proof.
  destruct nd as [[fi|e] rd es]; simpl; try discriminate.
  intros _. exists fi. auto.
Qed.

Lemma descend_not_dir (nd : node) : is_dir nd = false -> descend nd = [].
Proof.
  destruct nd as [[fi|e] [r|] es]; simpl; auto. intros ->. reflexivity.
Qed.

(** Shapes of stacks. *)

Lemma stack_ok_inv (top : task) (k : thread) :
  stack_ok (top :: k) = true ->
  task_ok top = true /\ forallb task_ok k = true /\ forallb is_Range k = true.
Proof.
  unfold stack_ok. simpl. rewrite !andb_true_iff. tauto.
Qed.

Lemma worker_ok_tail (k : thread) :
  forallb task_ok k = true -> forallb is_Range k = true -> worker_ok k = true.
Proof.
  intros H1 H2. unfold worker_ok, stack_ok. rewrite H1.
  destruct k as [|a k]; simpl in *; auto.
  apply andb_true_iff in H2. destruct H2 as [Ha ->].
  destruct a; try discriminate. destruct k; reflexivity.
Qed.

Lemma worker_ok_push (top : task) (k : thread) :
  forallb task_ok k = true -> forallb is_Range k = true ->
  task_ok top = true ->
  match top, k with AddJob _ _, [] => False | _, _ => True end ->
  worker_ok (top :: k) = true.
Proof.
  intros H1 H2 H3 H4. unfold worker_ok, stack_ok. simpl.
  rewrite H1, H2, H3. simpl. destruct top, k; auto.
Qed.

Lemma worker_ok_stack_ok (stk : thread) :
  worker_ok stk = true -> stack_ok stk = true.
Proof. unfold worker_ok. rewrite andb_true_iff. tauto. Qed.

Lemma worker_ok_no_work (stk : thread) :
  worker_ok stk = true -> total_thread counts stk = 0 -> stk = [].
Proof.
  destruct stk as [|top k]; auto.
  intros Hw Hc. exfalso.
  pose proof (worker_ok_stack_ok _ Hw) as Hs.
  apply stack_ok_inv in Hs. destruct Hs as (Ht & Hk & Hr).
  unfold total_thread in Hc. simpl in Hc.
  destruct k as [|a k].
  - destruct top; simpl in *; try discriminate; try lia.
    unfold worker_ok in Hw. simpl in Hw. rewrite andb_false_r in Hw. discriminate.
  - simpl in Hr. destruct a; simpl in *; try discriminate. lia.
Qed.

Lemma wg_set_thread (w : Walker) (t : tid) (stk : thread) :
  wg (set_thread w t stk) = wg w.
Proof. destruct t; reflexivity. Qed.

Lemma calls_set_thread (w : Walker) (t : tid) (stk : thread) :
  calls (set_thread w t stk) = calls w.
Proof. destruct t; reflexivity. Qed.

Lemma visited_set_thread (w : Walker) (t : tid) (stk : thread) :
  visited (set_thread w t stk) = visited w.
Proof. unfold visited. rewrite calls_set_thread. reflexivity. Qed.

Lemma thread_running (w : Walker) (t : tid) (top : task) (k : thread) :
  shape NumWorkers BufferSize w ->
  get_thread w t = Some (top :: k) ->
  exists stk0,
    main w = Running stk0 /\ stack_ok stk0 = true /\ jobs_closed w = false
    /\ List.length (workers w) = NumWorkers.
Proof.
  intros (Hq & Hp & Hw & Hj & Hl) Hg. unfold phase_ok in Hp.
  destruct t as [|i]; simpl in Hg.
  - destruct (main w) as [| stk0 | |]; try discriminate.
    exists stk0. tauto.
  - destruct (main w) as [| stk0 | |].
    + destruct Hp as (_ & Hws & _). rewrite Hws in Hg.
      destruct i; discriminate.
    + exists stk0. tauto.
    + destruct Hp as (_ & Hi & _).
      pose proof (forallb_nth_error _ _ _ _ Hi Hg). discriminate.
    + destruct Hp as (Hi & _).
      pose proof (forallb_nth_error _ _ _ _ Hi Hg). discriminate.
Qed.

Lemma thread_stack_ok (w : Walker) (t : tid) (stk : thread) :
  shape NumWorkers BufferSize w ->
  get_thread w t = Some stk -> stack_ok stk = true.
Proof.
  intros (Hq & Hp & Hw & Hj & Hl) Hg. unfold phase_ok in Hp.
  destruct t as [|i]; simpl in Hg.
  - destruct (main w); try discriminate. injection Hg as <-. tauto.
  - apply worker_ok_stack_ok. eapply forallb_nth_error; eauto.
Qed.

Lemma shape_set_thread (w : Walker) (t : tid) (top : task) (k stk : thread) :
  shape NumWorkers BufferSize w ->
  get_thread w t = Some (top :: k) ->
  worker_ok stk = true ->
  shape NumWorkers BufferSize (set_thread w t stk).
Proof.
  intros Hs Hg Hok.
  destruct (thread_running _ _ _ _ Hs Hg) as (stk0 & Hm & Hs0 & Hjc & Hn).
  destruct Hs as (Hq & Hp & Hw & Hj & Hl).
  destruct t as [|i]; unfold shape, quiet, phase_ok; simpl.
  - repeat split; try tauto; try apply Hq.
    apply worker_ok_stack_ok, Hok.
  - rewrite Hm. rewrite replace_nth_length.
    repeat split; try tauto; try apply Hq.
    apply forallb_replace_nth; auto.
Qed.

Lemma outstanding_thread (w : Walker) (t : tid) (stk : thread) :
  get_thread w t = Some stk -> total_thread counts stk <= outstanding w.
Proof.
  intros Hg. unfold outstanding.
  pose proof (total_set_thread counts (fun _ => 1) w t stk [] Hg) as H.
  unfold total_thread at 2 in H. simpl in H. lia.
Qed.

Ltac inv_parts H :=
  let Hs := fresh "Hs" in
  let Hg := fresh "Hwg" in
  let Ho := fresh "Ho" in
  destruct H as (Hs & Hg & Ho).

Lemma inv_addJob (root0 : string) (nd0 : node) (w w' : Walker) (t : tid)
    (k : thread) (path : string) (nd : node) (receiver : option nat) :
  healthy_inv NumWorkers BufferSize Join root0 nd0 w ->
  get_thread w t = Some (AddJob path nd :: k) ->
  addJob BufferSize w t k path nd receiver = Some w' ->
  healthy_inv NumWorkers BufferSize Join root0 nd0 w'.
Proof.
  intros Hinv Hg. inv_parts Hinv.
  destruct (thread_running _ _ _ _ Hs Hg) as (stk0 & Hm & Hs0 & Hjc & Hn).
  pose proof (thread_stack_ok _ _ _ Hs Hg) as Hok.
  apply stack_ok_inv in Hok. destruct Hok as (Hnd & Hk1 & Hk2).
  simpl in Hnd.
  pose proof (worker_ok_tail _ Hk1 Hk2) as Hkok.
  unfold addJob.
  destruct (receiver_parked w receiver) eqn:Hp; simpl; [|discriminate].
  rewrite Hjc. unfold try_send_job.
  destruct receiver as [i|].
  - simpl workers; simpl jobs. simpl in Hp.
    destruct (nth_error (workers w) i) as [[|? ?]|] eqn:Hi; try discriminate.
    destruct (jobs w) eqn:Hjs; try discriminate.
    intros H; injection H as <-.
    set (w2 := set_workers (wg_Add w) _).
    assert (Hg2 : get_thread w2 t = Some (AddJob path nd :: k))
      by exact (get_thread_handoff (wg_Add w) t i _ _ _ Hg Hi).
    assert (Hs2 : shape NumWorkers BufferSize w2).
    { destruct Hs as (Hq & Hph & Hw & Hj & Hl).
      unfold shape, quiet, phase_ok, w2; simpl.
      rewrite Hm, replace_nth_length, Hjs.
      repeat split; try tauto; try apply Hq; try (simpl; lia).
      apply forallb_replace_nth; auto.
      unfold worker_ok, stack_ok; simpl. rewrite Hnd. reflexivity. }
    split; [|split].
    + eapply shape_set_thread; eauto.
    + rewrite wg_set_thread. unfold outstanding.
      pose proof (total_set_thread counts (fun _ => 1) w2 t _ k Hg2) as H1.
      pose proof (list_sum_replace_nth (total_thread counts) i
                    [ProcessPath ByWorker path nd] [] _ Hi) as H2.
      assert (H3 : total counts (fun _ => 1) w2 + 0
                   = total counts (fun _ => 1) w + 1).
      { unfold total, w2; simpl. unfold thread in *.
        change (total_thread counts []) with 0 in H2.
        change (total_thread counts [ProcessPath ByWorker path nd]) with 1 in H2.
        lia. }
      unfold total_thread in H1. simpl in H1. unfold total_thread.
      unfold outstanding in Hwg. simpl. lia.
    + intros x. rewrite visited_set_thread.
      pose proof (owed_set_thread x w2 t _ k Hg2) as H1.
      pose proof (list_sum_replace_nth (total_thread (owed_task Join x)) i
                    [ProcessPath ByWorker path nd] [] _ Hi) as H2.
      assert (H3 : owed Join x w2 + 0
                   = owed Join x w + occ x (paths_below Join path (descend nd))).
      { unfold owed, total, w2; simpl. unfold thread in *.
        change (total_thread (owed_task Join x) []) with 0 in H2.
        change (total_thread (owed_task Join x) [ProcessPath ByWorker path nd])
          with (occ x (paths_below Join path (descend nd)) + 0) in H2.
        lia. }
      specialize (Ho x).
      unfold total_thread in H1. simpl in H1. unfold total_thread.
      change (visited w2) with (visited w). lia.
  - simpl jobs.
    destruct (List.length (jobs w) <? BufferSize)%nat eqn:Hroom.
    + intros H; injection H as <-.
      apply Nat.ltb_lt in Hroom.
      set (w2 := set_jobs (wg_Add w) _).
      assert (Hg2 : get_thread w2 t = Some (AddJob path nd :: k))
        by (destruct t; exact Hg).
      assert (Hs2 : shape NumWorkers BufferSize w2).
      { destruct Hs as (Hq & Hph & Hw & Hj & Hl).
        unfold shape, quiet, phase_ok, w2; simpl.
        rewrite Hm, forallb_app, length_app, Hj. simpl. rewrite Hnd.
        repeat split; try tauto; try apply Hq; try lia. }
      split; [|split].
      * eapply shape_set_thread; eauto.
      * rewrite wg_set_thread. unfold outstanding.
        pose proof (total_set_thread counts (fun _ => 1) w2 t _ k Hg2) as H1.
        assert (H3 : total counts (fun _ => 1) w2
                     = total counts (fun _ => 1) w + 1).
        { unfold total, w2; simpl. rewrite map_app, list_sum_app. simpl. lia. }
        unfold total_thread in H1. simpl in H1. unfold total_thread.
        unfold outstanding in Hwg. simpl. lia.
      * intros x. rewrite visited_set_thread.
        pose proof (owed_set_thread x w2 t _ k Hg2) as H1.
        assert (H3 : owed Join x w2
                     = owed Join x w + occ x (paths_below Join path (descend nd))).
        { unfold owed, total, w2; simpl. rewrite map_app, list_sum_app.
          simpl. unfold owed_job at 2. simpl. lia. }
        specialize (Ho x).
        unfold total_thread in H1. simpl in H1. unfold total_thread.
        change (visited w2) with (visited w). lia.
    + intros H; injection H as <-.
      assert (Hg1 : get_thread (wg_Add w) t = Some (AddJob path nd :: k))
        by (destruct t; exact Hg).
      split; [|split].
      * apply (shape_set_thread (wg_Add w) t (AddJob path nd) k);
          [exact Hs | exact Hg1 | apply worker_ok_push; auto].
      * rewrite wg_set_thread. unfold outstanding.
        pose proof (total_set_thread counts (fun _ => 1) (wg_Add w) t _
                      (ProcessPath ByAddJob path nd :: k) Hg1) as H1.
        unfold total_thread in H1. simpl in H1.
        change (total counts (fun _ => 1) (wg_Add w))
          with (total counts (fun _ => 1) w) in H1.
        unfold outstanding in Hwg. simpl. lia.
      * intros x. rewrite visited_set_thread.
        pose proof (owed_set_thread x (wg_Add w) t _
                      (ProcessPath ByAddJob path nd :: k) Hg1) as H1.
        unfold total_thread in H1. simpl in H1.
        change (owed Join x (wg_Add w)) with (owed Join x w) in H1.
        specialize (Ho x). change (visited (wg_Add w)) with (visited w). lia.
Qed.

Lemma inv_return (root0 : string) (nd0 : node) (w : Walker) (t : tid)
    (k : thread) (c : caller) (root : string) :
  healthy_inv NumWorkers BufferSize Join root0 nd0 w ->
  get_thread w t = Some (Range c root [] :: k) ->
  healthy_inv NumWorkers BufferSize Join root0 nd0
    (processPath_return w t k c root None).
Proof.
  intros Hinv Hg. inv_parts Hinv.
  pose proof (thread_stack_ok _ _ _ Hs Hg) as Hok.
  apply stack_ok_inv in Hok. destruct Hok as (_ & Hk1 & Hk2).
  pose proof (worker_ok_tail _ Hk1 Hk2) as Hkok.
  pose proof (outstanding_thread _ _ _ Hg) as Hpos.
  unfold total_thread in Hpos. simpl in Hpos.
  unfold processPath_return, wg_Done.
  destruct (wg w) as [|n] eqn:Hn; [lia|].
  assert (Hq : crashed (set_wg w n) = None) by apply Hs.
  rewrite Hq.
  replace (match c with
           | ByWorker => worker_report root None
           | ByAddJob => addJob_report root None
           end ++ k) with k by (destruct c; reflexivity).
  assert (Hg1 : get_thread (set_wg w n) t = Some (Range c root [] :: k))
    by (destruct t; exact Hg).
  split; [|split].
  - apply (shape_set_thread (set_wg w n) t (Range c root []) k); auto.
  - rewrite wg_set_thread. unfold outstanding.
    pose proof (total_set_thread counts (fun _ => 1) (set_wg w n) t _ k Hg1) as H1.
    unfold total_thread in H1. simpl in H1.
    change (total counts (fun _ => 1) (set_wg w n))
      with (total counts (fun _ => 1) w) in H1.
    unfold outstanding in Hwg. unfold total_thread. simpl. lia.
  - intros x. rewrite visited_set_thread.
    pose proof (owed_set_thread x (set_wg w n) t _ k Hg1) as H1.
    unfold total_thread in H1. simpl in H1.
    change (owed Join x (set_wg w n)) with (owed Join x w) in H1.
    specialize (Ho x). change (visited (set_wg w n)) with (visited w).
    unfold total_thread. lia.
Qed.

Lemma inv_enter (root0 : string) (nd0 : node) (w : Walker) (t : tid)
    (k : thread) (c : caller) (path : string) (nd : node) :
  healthy_inv NumWorkers BufferSize Join root0 nd0 w ->
  get_thread w t = Some (ProcessPath c path nd :: k) ->
  healthy_inv NumWorkers BufferSize Join root0 nd0
    (processPath_enter w t k c path nd).
Proof.
  intros Hinv Hg. inv_parts Hinv.
  pose proof (thread_stack_ok _ _ _ Hs Hg) as Hok.
  apply stack_ok_inv in Hok. destruct Hok as (Hnd & Hk1 & Hk2).
  simpl in Hnd. destruct (healthy_descend _ Hnd) as (Hrd & Hes).
  unfold processPath_enter. rewrite Hrd.
  split; [|split].
  - eapply shape_set_thread; eauto. apply worker_ok_push; auto.
  - rewrite wg_set_thread. unfold outstanding.
    pose proof (total_set_thread counts (fun _ => 1) w t _
                  (Range c path (descend nd) :: k) Hg) as H1.
    unfold total_thread in H1. simpl in H1.
    unfold outstanding in Hwg. lia.
  - intros x. rewrite visited_set_thread.
    pose proof (owed_set_thread x w t _
                  (Range c path (descend nd) :: k) Hg) as H1.
    unfold total_thread in H1. simpl in H1.
    specialize (Ho x). lia.
Qed.

Section Callback.

(** The callback always returns nil. *)
Hypothesis walkFn_nil : forall path info e, walkFn path info e = None.

Lemma occ_cons (x y : string) (l : list string) :
  occ x (y :: l) = occ x [y] + occ x l.
Proof. change (y :: l) with ([y] ++ l). apply occ_app. Qed.

Lemma visited_add_call (w : Walker) (c : call) :
  visited (add_call w c) = visited w ++ [fst (fst c)].
Proof. unfold visited. simpl. rewrite map_app. reflexivity. Qed.

Lemma inv_range (root0 : string) (nd0 : node) (w : Walker) (t : tid)
    (k : thread) (c : caller) (root : string) (names : list (string * node)) :
  healthy_inv NumWorkers BufferSize Join root0 nd0 w ->
  get_thread w t = Some (Range c root names :: k) ->
  healthy_inv NumWorkers BufferSize Join root0 nd0
    (processPath_range Join walkFn w t k c root names).
Proof.
  intros Hinv Hg. unfold processPath_range.
  destruct names as [|[name nd] rest].
  { apply inv_return; auto. }
  inv_parts Hinv.
  pose proof (thread_stack_ok _ _ _ Hs Hg) as Hok.
  apply stack_ok_inv in Hok. destruct Hok as (Hnd & Hk1 & Hk2).
  simpl in Hnd. apply andb_true_iff in Hnd. destruct Hnd as (Hnd & Hrest).
  destruct (healthy_Lstat _ Hnd) as (fi & Hls & Hdir).
  rewrite Hls, walkFn_nil.
  set (w1 := add_call w _).
  assert (Hg1 : get_thread w1 t = Some (Range c root ((name, nd) :: rest) :: k))
    by (destruct t; exact Hg).
  assert (Hs1 : shape NumWorkers BufferSize w1) by exact Hs.
  assert (Hv : forall x,
             occ x (visited w1) + owed Join x w1
             + occ x (paths_below Join (Join root name) (descend nd))
             + total_thread (owed_task Join x) (Range c root rest :: k)
             = occ x (paths Join root0 nd0)
               + total_thread (owed_task Join x)
                   (Range c root ((name, nd) :: rest) :: k)).
  { intros x. specialize (Ho x). unfold w1. rewrite visited_add_call.
    change (owed Join x (add_call w (Join root name, Some fi, None)))
      with (owed Join x w).
    rewrite !total_thread_cons. cbn [owed_task].
    rewrite paths_below_cons, !occ_app, (paths_unfold (Join root name) nd).
    rewrite (occ_cons x (Join root name) (paths_below Join _ _)).
    simpl fst. lia. }
  destruct (IsDir fi) eqn:Hfi.
  - split; [|split].
    + eapply shape_set_thread; eauto. apply worker_ok_push; simpl; auto.
      * rewrite Hrest, Hk1. reflexivity.
      * unfold healthy_dir. rewrite Hnd, <- Hdir. reflexivity.
    + rewrite wg_set_thread. unfold outstanding.
      pose proof (total_set_thread counts (fun _ => 1) w1 t _
                    (AddJob (Join root name) nd :: Range c root rest :: k) Hg1) as H1.
      unfold total_thread in H1. simpl in H1.
      change (total counts (fun _ => 1) w1)
        with (total counts (fun _ => 1) w) in H1.
      unfold outstanding in Hwg. change (wg w1) with (wg w). lia.
    + intros x. rewrite visited_set_thread.
      pose proof (owed_set_thread x w1 t _
                    (AddJob (Join root name) nd :: Range c root rest :: k) Hg1) as H1.
      specialize (Hv x).
      unfold total_thread in H1, Hv. simpl in H1, Hv. lia.
  - split; [|split].
    + eapply shape_set_thread; eauto. apply worker_ok_push; simpl; auto.
    + rewrite wg_set_thread. unfold outstanding.
      pose proof (total_set_thread counts (fun _ => 1) w1 t _
                    (Range c root rest :: k) Hg1) as H1.
      unfold total_thread in H1. simpl in H1.
      change (total counts (fun _ => 1) w1)
        with (total counts (fun _ => 1) w) in H1.
      unfold outstanding in Hwg. change (wg w1) with (wg w). lia.
    + intros x. rewrite visited_set_thread.
      pose proof (owed_set_thread x w1 t _ (Range c root rest :: k) Hg1) as H1.
      specialize (Hv x).
      rewrite descend_not_dir in Hv by congruence.
      unfold total_thread in H1, Hv. simpl in H1, Hv. lia.
Qed.

Lemma total_thread_idle (f : task -> nat) (ws : list thread) :
  forallb idle ws = true -> list_sum (map (total_thread f) ws) = 0.
Proof.
  induction ws as [|stk ws IH]; simpl; auto.
  rewrite andb_true_iff. intros [Hi Hws]. destruct stk; try discriminate.
  rewrite IH; auto.
Qed.

Lemma total_thread_repeat_nil (f : task -> nat) (n : nat) :
  list_sum (map (total_thread f) (repeat [] n)) = 0.
Proof. induction n; simpl; auto. Qed.

Lemma worker_ok_repeat_nil (n : nat) :
  forallb worker_ok (repeat [] n) = true.
Proof. induction n; simpl; auto. Qed.

Lemma workers_no_work (ws : list thread) :
  forallb worker_ok ws = true ->
  list_sum (map (total_thread counts) ws) = 0 ->
  forallb idle ws = true.
Proof.
  induction ws as [|stk ws IH]; simpl; auto.
  rewrite andb_true_iff. intros [Hok Hws] Hsum.
  assert (Hstk : total_thread counts stk = 0) by lia.
  rewrite (worker_ok_no_work _ Hok Hstk). simpl. apply IH; auto. lia.
Qed.

Lemma jobs_none (A : Type) (js : list A) :
  list_sum (map (fun _ => 1) js) = 0 -> js = [].
Proof. destruct js; simpl; auto; discriminate. Qed.

Lemma inv_worker (root0 : string) (nd0 : node) (w w' : Walker) (i : nat) :
  healthy_inv NumWorkers BufferSize Join root0 nd0 w ->
  worker w i = Some w' ->
  healthy_inv NumWorkers BufferSize Join root0 nd0 w'.
Proof.
  intros Hinv. inv_parts Hinv. unfold worker.
  destruct (nth_error (workers w) i) as [[|? ?]|] eqn:Hi; try discriminate.
  destruct (jobs w) as [|[path nd] js] eqn:Hj; try discriminate.
  intros H; injection H as <-.
  destruct Hs as (Hq & Hp & Hw & Hjs & Hl).
  rewrite Hj in Hjs, Hl. simpl in Hjs, Hl.
  apply andb_true_iff in Hjs. destruct Hjs as (Hnd & Hjs).
  assert (Hm : exists stk0, main w = Running stk0).
  { unfold phase_ok in Hp. rewrite Hj in Hp.
    destruct (main w) as [? ?|stk0| |]; [|exists stk0; reflexivity| |].
    - destruct Hp as (_ & _ & H3 & _). discriminate.
    - destruct Hp as (_ & _ & H3). discriminate.
    - destruct Hp as (_ & H3). discriminate. }
  destruct Hm as (stk0 & Hm).
  pose proof (list_sum_replace_nth (total_thread counts) i
                [ProcessPath ByWorker path nd] [] _ Hi) as H2.
  change (total_thread counts []) with 0 in H2.
  change (total_thread counts [ProcessPath ByWorker path nd]) with 1 in H2.
  split; [|split].
  - unfold shape, quiet, phase_ok in *; simpl. rewrite Hm in *.
    rewrite replace_nth_length.
    repeat split; try tauto; try lia.
    apply forallb_replace_nth; auto.
    unfold worker_ok, stack_ok; simpl. rewrite Hnd. reflexivity.
  - unfold outstanding, total in *; simpl. rewrite Hj in Hwg. simpl in Hwg.
    unfold thread in *. lia.
  - intros x. specialize (Ho x).
    pose proof (list_sum_replace_nth (total_thread (owed_task Join x)) i
                  [ProcessPath ByWorker path nd] [] _ Hi) as H3.
    change (total_thread (owed_task Join x) []) with 0 in H3.
    change (total_thread (owed_task Join x) [ProcessPath ByWorker path nd])
      with (occ x (paths_below Join path (descend nd)) + 0) in H3.
    unfold owed, total in *; simpl. rewrite Hj in Ho. simpl in Ho.
    unfold owed_job at 1 in Ho. simpl in Ho.
    change (visited (set_workers (set_jobs w js)
              (replace_nth i [ProcessPath ByWorker path nd] (workers w))))
      with (visited w).
    unfold thread in *. lia.
Qed.

Lemma inv_collectErrors (root0 : string) (nd0 : node) (w w' : Walker) :
  healthy_inv NumWorkers BufferSize Join root0 nd0 w ->
  collectErrors w = Some w' ->
  healthy_inv NumWorkers BufferSize Join root0 nd0 w'.
Proof.
  intros Hinv. unfold collectErrors.
  assert (He : errors w = []) by apply Hinv.
  rewrite He.
  destruct (errors_closed w && negb (ewg_done w)); try discriminate.
  intros H; injection H as <-. exact Hinv.
Qed.

Lemma inv_Walk_wait (root0 : string) (nd0 : node) (w w' : Walker) :
  healthy_inv NumWorkers BufferSize Join root0 nd0 w ->
  Walk_wait w = Some w' ->
  healthy_inv NumWorkers BufferSize Join root0 nd0 w'.
Proof.
  intros Hinv. inv_parts Hinv. unfold Walk_wait.
  destruct (main w) as [| [|? ?] | |] eqn:Hm; try discriminate.
  destruct (wg w) eqn:Hn; try discriminate.
  intros H; injection H as <-.
  destruct Hs as (Hq & Hp & Hw & Hjs & Hl).
  unfold outstanding, total in Hwg. rewrite Hm in Hwg.
  change (total_thread counts []) with 0 in Hwg.
  assert (Hidle : forallb idle (workers w) = true)
    by (apply workers_no_work; auto; lia).
  assert (Hj : jobs w = []) by (apply jobs_none; lia).
  split; [|split].
  - unfold shape, quiet, phase_ok in *; simpl.
    repeat split; try tauto.
  - unfold outstanding, total; simpl. lia.
  - intros x. specialize (Ho x). unfold owed, total in *; simpl.
    rewrite Hm in Ho. exact Ho.
Qed.

Lemma inv_Walk_return (root0 : string) (nd0 : node) (w w' : Walker) :
  healthy_inv NumWorkers BufferSize Join root0 nd0 w ->
  Walk_return w = Some w' ->
  healthy_inv NumWorkers BufferSize Join root0 nd0 w'.
Proof.
  intros Hinv. inv_parts Hinv. unfold Walk_return.
  destruct (main w) eqn:Hm; try discriminate.
  destruct (ewg_done w); try discriminate.
  intros H; injection H as <-.
  destruct Hs as (Hq & Hp & Hw & Hjs & Hl).
  split; [|split].
  - unfold shape, quiet, phase_ok in *; simpl. rewrite Hm in Hp.
    repeat split; try tauto.
  - unfold outstanding, total in *; simpl. rewrite Hm in Hwg. exact Hwg.
  - intros x. specialize (Ho x). unfold owed, total in *; simpl.
    rewrite Hm in Ho. exact Ho.
Qed.

Lemma inv_Walk_root (root0 : string) (nd0 : node) (w : Walker)
    (root : string) (nd : node) :
  healthy_inv NumWorkers BufferSize Join root0 nd0 w ->
  main w = Start root nd ->
  healthy_inv NumWorkers BufferSize Join root0 nd0
    (Walk_root NumWorkers walkFn w root nd).
Proof.
  intros Hinv Hm. inv_parts Hinv.
  destruct Hs as (Hq & Hp & Hw & Hjs & Hl).
  unfold phase_ok in Hp. rewrite Hm in Hp.
  destruct Hp as (Hnd & Hws & Hj & Hjc).
  destruct (healthy_Lstat _ Hnd) as (fi & Hls & Hdir).
  unfold Walk_root. rewrite Hls, walkFn_nil.
  assert (Hv : forall x,
             occ x (visited w) + occ x [root]
             + occ x (paths_below Join root (descend nd))
             = occ x (paths Join root0 nd0)).
  { intros x. specialize (Ho x). unfold owed, total in Ho.
    rewrite Hm, Hws, Hj in Ho. simpl in Ho.
    rewrite paths_unfold, occ_cons in Ho. lia. }
  destruct (IsDir fi) eqn:Hfi; simpl negb; cbv iota.
  - split; [|split].
    + unfold shape, quiet, phase_ok; simpl.
      rewrite repeat_length, worker_ok_repeat_nil, Hj.
      repeat split; try tauto; try apply Hq; try (simpl; lia).
      unfold stack_ok; cbn [forallb task_ok tl]. unfold healthy_dir.
      rewrite Hnd, <- Hdir. reflexivity.
    + unfold outstanding, total in *; simpl.
      rewrite total_thread_repeat_nil.
      rewrite Hm, Hws, Hj in Hwg. simpl in Hwg. rewrite Hj. simpl. lia.
    + intros x. specialize (Hv x). unfold owed, total; simpl.
      rewrite total_thread_repeat_nil, Hj. unfold visited in *. simpl.
      rewrite map_app, occ_app. simpl map. unfold total_thread.
      simpl in Hv. simpl. lia.
  - split; [|split].
    + unfold shape, quiet, phase_ok; simpl. rewrite Hws, Hj.
      repeat split; try tauto; try apply Hq; try (simpl; lia).
    + unfold outstanding, total in *; simpl.
      rewrite Hm in Hwg. exact Hwg.
    + intros x. specialize (Hv x). unfold owed, total; simpl.
      rewrite Hws, Hj. unfold visited in *. simpl.
      rewrite map_app, occ_app. simpl map.
      rewrite descend_not_dir in Hv by congruence. simpl in Hv. simpl. lia.
Qed.

Lemma inv_step (root0 : string) (nd0 : node) (w w' : Walker) (a : action) :
  healthy_inv NumWorkers BufferSize Join root0 nd0 w ->
  step NumWorkers BufferSize Join walkFn w a = Some w' ->
  healthy_inv NumWorkers BufferSize Join root0 nd0 w'.
Proof.
  intros Hinv. unfold step. destruct (crashed w); [discriminate|].
  destruct a as [|t r|i| | |].
  - destruct (main w) eqn:Hm; try discriminate.
    intros H; injection H as <-. apply inv_Walk_root; auto.
  - unfold run.
    destruct (get_thread w t) as [[|[path nd|c path nd|c root names|we] k]|] eqn:Hg;
      try discriminate.
    + eapply inv_addJob; eauto.
    + intros H; injection H as <-. apply inv_enter; auto.
    + intros H; injection H as <-. apply inv_range; auto.
    + destruct Hinv as (Hs & _).
      pose proof (thread_stack_ok _ _ _ Hs Hg) as Hok.
      apply stack_ok_inv in Hok. destruct Hok as (Hnd & _). discriminate.
  - apply inv_worker; auto.
  - apply inv_collectErrors; auto.
  - apply inv_Walk_wait; auto.
  - apply inv_Walk_return; auto.
Qed.

Lemma inv_init (root : string) (nd : node) :
  healthy nd = true ->
  healthy_inv NumWorkers BufferSize Join root nd (Walk_init root nd).
Proof.
  intros Hnd. split; [|split].
  - unfold shape, quiet, phase_ok; simpl. repeat split; auto. lia.
  - reflexivity.
  - intros x. unfold owed, total; simpl. lia.
Qed.

Lemma inv_reachable (root : string) (nd : node) (w : Walker) :
  healthy nd = true ->
  reachable NumWorkers BufferSize Join walkFn root nd w ->
  healthy_inv NumWorkers BufferSize Join root nd w.
Proof.
  intros Hnd Hr. induction Hr as [|w1 w2 [a Ha] Hr IH].
  - apply inv_init, Hnd.
  - eapply inv_step; eauto.
Qed.

Lemma owed_returned (w : Walker) (e : err) (x : string) :
  shape NumWorkers BufferSize w -> returned w e -> owed Join x w = 0.
Proof.
  intros (Hq & Hp & Hw & Hjs & Hl) Hr. unfold returned in Hr.
  unfold phase_ok in Hp. rewrite Hr in Hp. destruct Hp as (Hi & Hj).
  unfold owed, total. rewrite Hr, Hj, total_thread_idle; auto.
Qed.

Lemma healthy_returned (root : string) (nd : node) (w : Walker) (e : err) :
  healthy nd = true ->
  reachable NumWorkers BufferSize Join walkFn root nd w ->
  returned w e ->
  Permutation (visited w) (paths Join root nd).
Proof.
  intros Hnd Hr He.
  destruct (inv_reachable _ _ _ Hnd Hr) as (Hs & _ & Ho).
  apply (Permutation_count_occ string_dec). intros x.
  specialize (Ho x). rewrite (owed_returned _ _ _ Hs He) in Ho.
  unfold occ in Ho. lia.
Qed.

Lemma forallb_false_nth {A : Type} (f : A -> bool) (l : list A) :
  forallb f l = false -> exists i x, nth_error l i = Some x /\ f x = false.
Proof.
  induction l as [|y l IH]; simpl; try discriminate.
  destruct (f y) eqn:Hy; simpl.
  - intros H. destruct (IH H) as (i & x & Hi & Hx). exists (S i), x. auto.
  - intros _. exists 0, y. auto.
Qed.

Lemma run_enabled (w : Walker) (t : tid) (top : task) (k : thread) :
  shape NumWorkers BufferSize w ->
  get_thread w t = Some (top :: k) ->
  exists w', run BufferSize Join walkFn w t None = Some w'.
Proof.
  intros Hs Hg.
  pose proof (thread_stack_ok _ _ _ Hs Hg) as Hok.
  apply stack_ok_inv in Hok. destruct Hok as (Htop & _).
  unfold run. rewrite Hg.
  destruct top as [path nd|c path nd|c root names|we]; eauto; try discriminate.
  unfold addJob. simpl receiver_parked. simpl negb. cbv iota.
  destruct (jobs_closed (wg_Add w)); eauto.
  destruct (try_send_job BufferSize (wg_Add w) None path nd); eauto.
Qed.

(** With a worker to drain the queue, or no queue to drain, a walk that
    has not returned can move. *)
Lemma progress (root0 : string) (nd0 : node) (w : Walker) :
  1 <= NumWorkers \/ BufferSize = 0 ->
  healthy_inv NumWorkers BufferSize Join root0 nd0 w ->
  (forall e, ~ returned w e) ->
  exists a w', step NumWorkers BufferSize Join walkFn w a = Some w'.
Proof.
  intros Hcfg Hinv Hnr. inv_parts Hinv.
  assert (Hc : crashed w = None) by apply Hs.
  unfold step. rewrite Hc.
  destruct (main w) as [root nd|stk| |e] eqn:Hm.
  - exists ARoot. eauto.
  - destruct stk as [|top k].
    + destruct (forallb idle (workers w)) eqn:Hidle.
      * destruct (jobs w) as [|[path nd] js] eqn:Hj.
        -- exists AWait. unfold Walk_wait. rewrite Hm.
           unfold outstanding, total in Hwg.
           rewrite Hm, Hj, total_thread_idle in Hwg by auto.
           simpl in Hwg. rewrite Hwg. eauto.
        -- exists (AWorker 0). unfold worker. rewrite Hj.
           destruct Hs as (Hq & Hp & Hw & Hjs & Hl).
           unfold phase_ok in Hp. rewrite Hm in Hp.
           destruct Hp as (_ & _ & Hn).
           rewrite Hj in Hl. simpl in Hl.
           destruct (workers w) as [|stk ws] eqn:Hws; simpl in Hn; [lia|].
           simpl in Hidle. apply andb_true_iff in Hidle.
           destruct Hidle as (Hi & _). destruct stk; try discriminate.
           simpl. eauto.
      * destruct (forallb_false_nth _ _ Hidle) as (i & stk & Hi & Hstk).
        destruct stk as [|top k]; try discriminate.
        destruct (run_enabled w (TWorker i) top k Hs Hi) as (w' & Hw').
        exists (ARun (TWorker i) None), w'. exact Hw'.
    + assert (Hg : get_thread w TMain = Some (top :: k))
        by (simpl; rewrite Hm; reflexivity).
      destruct (run_enabled w TMain top k Hs Hg) as (w' & Hw').
      exists (ARun TMain None), w'. exact Hw'.
  - destruct (ewg_done w) eqn:Hd.
    + exists AReturn. unfold Walk_return. rewrite Hm, Hd. eauto.
    + exists ACollect. unfold collectErrors.
      destruct Hs as ((_ & He & _) & Hp & _).
      unfold phase_ok in Hp. rewrite Hm in Hp. destruct Hp as (Hec & _).
      rewrite He, Hec, Hd. simpl. eauto.
  - exfalso. apply (Hnr e). exact Hm.
Qed.

(** From every state of the invariant a walk can run on until [Walk]
    returns. *)
Lemma can_return (root0 : string) (nd0 : node) (n : nat) :
  1 <= NumWorkers \/ BufferSize = 0 ->
  forall w,
    measure w <= n ->
    healthy_inv NumWorkers BufferSize Join root0 nd0 w ->
    exists w' e,
      clos_refl_trans_1n Walker
        (steps_to NumWorkers BufferSize Join walkFn) w w'
      /\ returned w' e.
Proof.
  intros Hcfg. induction n as [|n IH]; intros w Hn Hinv.
  - destruct (main w) as [root nd|stk| |e] eqn:Hm.
    1-3: exfalso; assert (Hc : crashed w = None) by apply Hinv;
      unfold measure in Hn; rewrite Hc in Hn; lia.
    exists w, e. split; [constructor|exact Hm].
  - destruct (main w) as [root nd|stk| |e] eqn:Hm.
    4: exists w, e; split; [constructor|exact Hm].
    1-3: assert (Hnr : forall e, ~ returned w e)
        by (unfold returned; intros e; rewrite Hm; discriminate);
      destruct (progress _ _ _ Hcfg Hinv Hnr) as (a & w1 & Hstep);
      pose proof (step_measure _ _ _ _ _ _ _ Hstep) as Hlt;
      destruct (IH w1) as (w' & e & Hrun & Hret);
        [lia | eapply inv_step; eauto |];
      exists w', e; split; auto;
      econstructor; [exists a; exact Hstep | exact Hrun].
Qed.

End Callback.

End Healthy.

(** ** What every walk obeys, whatever fails *)

Section General.

Variable NumWorkers : nat.
Variable BufferSize : nat.
Variable Join : string -> string -> string.
Variable walkFn : string -> option FileInfo -> err -> err.

Lemma get_set_thread (w : Walker) (t : tid) (old stk : thread) :
  get_thread w t = Some old -> get_thread (set_thread w t stk) t = Some stk.
Proof.
  destruct t as [|i]; simpl; auto.
  apply nth_error_replace_nth_same.
Qed.

Lemma main_set_thread (w : Walker) (t : tid) (stk : thread) :
  settled (main (set_thread w t stk)) = true ->
  main (set_thread w t stk) = main w.
Proof. destruct t; simpl; auto; discriminate. Qed.

Lemma main_wg_Done (w : Walker) : main (wg_Done w) = main w.
Proof. unfold wg_Done. destruct (wg w); reflexivity. Qed.

Lemma main_processPath_return (w : Walker) (t : tid) (k : thread)
    (c : caller) (path : string) (e : err) :
  settled (main (processPath_return w t k c path e)) = true ->
  main (processPath_return w t k c path e) = main w.
Proof.
  unfold processPath_return. destruct (crashed (wg_Done w)).
  - intros _. apply main_wg_Done.
  - intros H. rewrite main_set_thread by exact H. apply main_wg_Done.
Qed.

Lemma main_run (w w' : Walker) (t : tid) (receiver : option nat) :
  run BufferSize Join walkFn w t receiver = Some w' ->
  settled (main w') = true -> main w' = main w.
Proof.
  unfold run.
  destruct (get_thread w t) as [[|[path nd|c path nd|c root names|we] k]|];
    try discriminate.
  - unfold addJob. destruct (negb (receiver_parked w receiver)); try discriminate.
    destruct (jobs_closed (wg_Add w)).
    { intros H; injection H as <-. reflexivity. }
    unfold try_send_job. destruct receiver as [i|].
    + destruct (nth_error (workers (wg_Add w)) i) as [[|? ?]|];
        [destruct (jobs (wg_Add w))| |];
        intros H; injection H as <-; intros Hs;
        rewrite main_set_thread by exact Hs; reflexivity.
    + destruct (List.length (jobs (wg_Add w)) <? BufferSize)%nat;
        intros H; injection H as <-; intros Hs;
        rewrite main_set_thread by exact Hs; reflexivity.
  - intros H; injection H as <-. unfold processPath_enter.
    destruct (readDirNames nd) as [names [e|]].
    + apply main_processPath_return.
    + apply main_set_thread.
  - intros H; injection H as <-. unfold processPath_range.
    destruct names as [|[name nd] rest].
    { apply main_processPath_return. }
    destruct (Lstat nd) as [info e0].
    destruct (walkFn (Join root name) info e0) as [e|].
    + destruct (is_SkipDir e).
      * intros Hs. rewrite main_set_thread by exact Hs. reflexivity.
      * intros Hs. rewrite main_processPath_return by exact Hs. reflexivity.
    + destruct info as [fi|]; [destruct (IsDir fi)|];
        intros Hs; try rewrite main_set_thread by exact Hs; reflexivity.
  - unfold send_error. destruct (errors_closed w).
    { intros H; injection H as <-. reflexivity. }
    destruct receiver as [i|].
    + destruct (errors w); try discriminate.
      intros H; injection H as <-; intros Hs.
      rewrite main_set_thread by exact Hs. reflexivity.
    + destruct (List.length (errors w) <? BufferSize)%nat; try discriminate.
      intros H; injection H as <-; intros Hs.
      rewrite main_set_thread by exact Hs. reflexivity.
Qed.

(** Only the root check and the final return make [Walk] return. *)
Lemma step_returned (w w' : Walker) (a : action) (e : err) :
  step NumWorkers BufferSize Join walkFn w a = Some w' ->
  main w' = Returned e ->
  main w = Returned e
  \/ (exists root nd, main w = Start root nd
                      /\ w' = Walk_root NumWorkers walkFn w root nd)
  \/ (Walk_return w = Some w'
      /\ e = if (0 <? List.length (errorList w))%nat
             then Some (ErrorListValue (errorList w)) else None).
Proof.
  unfold step. destruct (crashed w); [discriminate|].
  destruct a as [|t r|i| | |].
  - destruct (main w) as [root nd| | |] eqn:Hm; try discriminate.
    intros H; injection H as <-. intros _. right; left. eauto.
  - intros H Hr. left. rewrite <- Hr. symmetry.
    eapply main_run; eauto. rewrite Hr. reflexivity.
  - unfold worker.
    destruct (nth_error (workers w) i) as [[|? ?]|]; try discriminate.
    destruct (jobs w) as [|[path nd] js]; try discriminate.
    intros H; injection H as <-. auto.
  - unfold collectErrors. destruct (errors w).
    + destruct (errors_closed w && negb (ewg_done w)); try discriminate.
      intros H; injection H as <-. auto.
    + intros H; injection H as <-. auto.
  - unfold Walk_wait. destruct (main w) as [| [|? ?] | |]; try discriminate.
    destruct (wg w); try discriminate.
    intros H; injection H as <-. discriminate.
  - intros Ha He. right; right. split; [exact Ha|].
    unfold Walk_return in Ha. destruct (main w) eqn:Hm; try discriminate.
    destruct (ewg_done w); try discriminate.
    injection Ha as <-. simpl in He. injection He as <-. reflexivity.
Qed.

Lemma step_start (w w' : Walker) (a : action) (root : string) (nd : node) :
  step NumWorkers BufferSize Join walkFn w a = Some w' ->
  main w' = Start root nd -> main w = Start root nd.
Proof.
  unfold step. destruct (crashed w); [discriminate|].
  destruct a as [|t r|i| | |].
  - destruct (main w) as [root1 nd1| | |] eqn:Hm; try discriminate.
    intros H; injection H as <-. unfold Walk_root.
    destruct (Lstat nd1) as [info [e0|]]; simpl; try discriminate.
    destruct (walkFn root1 info None); simpl; try discriminate.
    destruct info as [fi|]; simpl; [|congruence].
    destruct (IsDir fi); simpl; discriminate.
  - intros H Hr. rewrite <- Hr. symmetry.
    eapply main_run; eauto. rewrite Hr. reflexivity.
  - unfold worker.
    destruct (nth_error (workers w) i) as [[|? ?]|]; try discriminate.
    destruct (jobs w) as [|[path nd1] js]; try discriminate.
    intros H; injection H as <-. auto.
  - unfold collectErrors. destruct (errors w).
    + destruct (errors_closed w && negb (ewg_done w)); try discriminate.
      intros H; injection H as <-. auto.
    + intros H; injection H as <-. auto.
  - unfold Walk_wait. destruct (main w) as [| [|? ?] | |]; try discriminate.
    destruct (wg w); try discriminate.
    intros H; injection H as <-. discriminate.
  - unfold Walk_return. destruct (main w) eqn:Hm; try discriminate.
    destruct (ewg_done w); try discriminate.
    intros H; injection H as <-. discriminate.
Qed.

Lemma reachable_start (root0 : string) (nd0 : node) (w : Walker)
    (root : string) (nd : node) :
  reachable NumWorkers BufferSize Join walkFn root0 nd0 w ->
  main w = Start root nd -> root = root0 /\ nd = nd0.
Proof.
  intros Hr. revert root nd. induction Hr as [|w1 w2 [a Ha] Hr IH]; intros root nd Hm.
  - simpl in Hm. injection Hm as <- <-. auto.
  - apply IH. eapply step_start; eauto.
Qed.

Lemma reachable_trans (root : string) (nd : node) (w w' : Walker) :
  reachable NumWorkers BufferSize Join walkFn root nd w ->
  clos_refl_trans_1n Walker
    (steps_to NumWorkers BufferSize Join walkFn) w w' ->
  reachable NumWorkers BufferSize Join walkFn root nd w'.
Proof.
  intros Hr Hs. induction Hs as [|w1 w2 w3 H12 H23 IH]; auto.
  apply IH. econstructor; eauto.
Qed.

End General.

(** ** The invariant of every walk *)

Section Invariant.

Variable NumWorkers : nat.
Variable BufferSize : nat.
Variable Join : string -> string -> string.
Variable walkFn : string -> option FileInfo -> err -> err.
Variable root0 : string.
Variable nd0 : node.

Lemma due_set_thread (x : string) (w : Walker) (t : tid) (old stk : thread) :
  get_thread w t = Some old ->
  due Join walkFn x (set_thread w t stk)
  + total_thread (due_task Join walkFn x) old
  = due Join walkFn x w + total_thread (due_task Join walkFn x) stk.
Proof.
  intros Hg. unfold due.
  pose proof (total_set_thread (due_task Join walkFn x) (due_job Join walkFn x)
                w t old stk Hg) as H.
  destruct t as [|i]; simpl in *.
  - destruct (main w); try discriminate. lia.
  - lia.
Qed.

Lemma thread_ok_tail (k : thread) :
  forallb is_Range k = true -> thread_ok k = true.
Proof.
  intros H. unfold thread_ok, tail_ranges.
  destruct k as [|a k]; simpl in *; auto.
  apply andb_true_iff in H. destruct H as [Ha ->].
  destruct a; try discriminate. destruct k; reflexivity.
Qed.

Lemma thread_ok_push (top : task) (k : thread) :
  forallb is_Range k = true ->
  match top, k with AddJob _ _, [] => False | _, _ => True end ->
  thread_ok (top :: k) = true.
Proof.
  intros H1 H2. unfold thread_ok, tail_ranges. simpl. rewrite H1.
  destruct top, k; auto.
Qed.

Lemma thread_ok_tail_ranges (stk : thread) :
  thread_ok stk = true -> tail_ranges stk = true.
Proof. unfold thread_ok. rewrite andb_true_iff. tauto. Qed.

Lemma thread_ok_no_work (stk : thread) :
  thread_ok stk = true -> total_thread counts stk = 0 -> drained stk = true.
Proof.
  destruct stk as [|top k]; auto.
  unfold thread_ok, tail_ranges, total_thread. simpl.
  rewrite andb_true_iff. intros [Hr Hnot] Hc.
  destruct k as [|a k].
  - destruct top; simpl in *; try discriminate; auto.
  - simpl in Hr. destruct a; simpl in *; try discriminate. lia.
Qed.

Lemma threads_no_work (ws : list thread) :
  forallb thread_ok ws = true ->
  list_sum (map (total_thread counts) ws) = 0 ->
  forallb drained ws = true.
Proof.
  induction ws as [|stk ws IH]; simpl; auto.
  rewrite andb_true_iff. intros [Hok Hws] Hsum.
  rewrite (thread_ok_no_work stk), IH; auto; lia.
Qed.

Lemma total_thread_drained (f : task -> nat) (ws : list thread) :
  (forall we, f (Send we) = 0) ->
  forallb drained ws = true -> list_sum (map (total_thread f) ws) = 0.
Proof.
  intros Hf. induction ws as [|stk ws IH]; simpl; auto.
  rewrite andb_true_iff. intros [Hd Hws]. rewrite IH by auto.
  destruct stk as [|[| | |we] [|? ?]]; try discriminate; auto.
  unfold total_thread. simpl. rewrite Hf. reflexivity.
Qed.

(** A context with more to do than sending one error runs while the
    caller of [Walk] is in the running phase, both channels open. *)
Lemma busy_running (w : Walker) (t : tid) (stk : thread) :
  phase_inv NumWorkers w ->
  get_thread w t = Some stk ->
  drained stk = false ->
  exists stk0,
    main w = Running stk0 /\ tail_ranges stk0 = true
    /\ jobs_closed w = false /\ errors_closed w = false
    /\ List.length (workers w) = NumWorkers.
Proof.
  intros Hp Hg Hd. unfold phase_inv in Hp.
  destruct t as [|i]; simpl in Hg.
  - destruct (main w) as [| stk0 | |]; try discriminate.
    exists stk0. tauto.
  - destruct (main w) as [| stk0 | |].
    + destruct Hp as (Hws & _). rewrite Hws in Hg. destruct i; discriminate.
    + exists stk0. tauto.
    + destruct Hp as (_ & Hi & _).
      pose proof (forallb_nth_error _ _ _ _ Hi Hg). congruence.
    + destruct Hp as (Hi & _).
      pose proof (forallb_nth_error _ _ _ _ Hi Hg). congruence.
Qed.

Lemma thread_tail (w : Walker) (t : tid) (top : task) (k : thread) :
  phase_inv NumWorkers w ->
  forallb thread_ok (workers w) = true ->
  get_thread w t = Some (top :: k) ->
  forallb is_Range k = true.
Proof.
  intros Hp Hw Hg. unfold phase_inv in Hp.
  destruct t as [|i]; simpl in Hg.
  - destruct (main w); try discriminate. injection Hg as ->.
    destruct Hp as (Ht & _). exact Ht.
  - pose proof (forallb_nth_error _ _ _ _ Hw Hg) as Hok.
    apply thread_ok_tail_ranges in Hok. exact Hok.
Qed.

(** The invariant after context [t] has replaced its stack, from what
    holds of the state around it. *)
Lemma walk_inv_set_thread (w1 : Walker) (t : tid) (top : task) (k stk : thread) :
  phase_inv NumWorkers w1 ->
  forallb thread_ok (workers w1) = true ->
  List.length (jobs w1) <= BufferSize ->
  get_thread w1 t = Some (top :: k) ->
  drained (top :: k) = false \/ drained stk = true ->
  thread_ok stk = true ->
  wg w1 + total_thread counts (top :: k)
  = outstanding w1 + total_thread counts stk ->
  (forall x,
     occ x (visited w1) + due Join walkFn x w1
     + total_thread (due_task Join walkFn x) stk
     = occ x (expected Join walkFn root0 nd0)
       + total_thread (due_task Join walkFn x) (top :: k)) ->
  walk_inv NumWorkers BufferSize Join walkFn root0 nd0 (set_thread w1 t stk).
Proof.
  intros Hp Hw Hl Hg Hd Hok Hwg Hdue.
  split; [|split; [|split; [|split]]].
  - unfold phase_inv in *. destruct t as [|i]; simpl in *.
    + destruct (main w1); try discriminate.
      destruct Hp as (_ & H2 & H3 & H4).
      repeat split; auto. apply thread_ok_tail_ranges, Hok.
    + destruct (main w1) as [| stk0 | |].
      * destruct Hp as (Hws & _). rewrite Hws in Hg. destruct i; discriminate.
      * rewrite replace_nth_length. exact Hp.
      * destruct Hp as (Hec & Hi & Hj). split; [|split]; auto.
        pose proof (forallb_nth_error _ _ _ _ Hi Hg) as Hdr.
        destruct Hd as [Hd|Hd]; [simpl in Hdr; congruence|].
        apply forallb_replace_nth; auto.
      * destruct Hp as (Hi & Hj). split; auto.
        pose proof (forallb_nth_error _ _ _ _ Hi Hg) as Hdr.
        destruct Hd as [Hd|Hd]; [simpl in Hdr; congruence|].
        apply forallb_replace_nth; auto.
  - destruct t as [|i]; simpl; auto. apply forallb_replace_nth; auto.
  - destruct t; exact Hl.
  - rewrite wg_set_thread. unfold outstanding in *.
    pose proof (total_set_thread counts (fun _ => 1) w1 t _ stk Hg). lia.
  - intros x. rewrite visited_set_thread.
    pose proof (due_set_thread x w1 t _ stk Hg). specialize (Hdue x). lia.
Qed.

Lemma counts_busy (top : task) (k : thread) :
  counts top = 1 -> drained (top :: k) = false.
Proof. destruct top; simpl; try discriminate; reflexivity. Qed.

(** The invariant after [processPath] has returned to its caller. *)
Lemma walk_inv_return (w1 : Walker) (t : tid) (top : task) (k : thread)
    (c : caller) (path : string) (e : err) :
  crashed w1 = None ->
  phase_inv NumWorkers w1 ->
  forallb thread_ok (workers w1) = true ->
  List.length (jobs w1) <= BufferSize ->
  get_thread w1 t = Some (top :: k) ->
  counts top = 1 ->
  wg w1 = outstanding w1 ->
  (forall x,
     occ x (visited w1) + due Join walkFn x w1
     = occ x (expected Join walkFn root0 nd0) + due_task Join walkFn x top) ->
  crashed (processPath_return w1 t k c path e) = None
  /\ walk_inv NumWorkers BufferSize Join walkFn root0 nd0
       (processPath_return w1 t k c path e).
Proof.
  intros Hc Hp Hw Hl Hg Htop Hwg Hdue.
  pose proof (thread_tail _ _ _ _ Hp Hw Hg) as Hk.
  pose proof (outstanding_thread _ _ _ Hg) as Hpos.
  rewrite total_thread_cons, Htop in Hpos.
  unfold processPath_return, wg_Done.
  destruct (wg w1) as [|n] eqn:Hn; [lia|].
  change (crashed (set_wg w1 n)) with (crashed w1). rewrite Hc.
  assert (Hg1 : get_thread (set_wg w1 n) t = Some (top :: k))
    by (destruct t; exact Hg).
  split; [destruct t; exact Hc|].
  apply (walk_inv_set_thread (set_wg w1 n) t top k); auto.
  - left. apply counts_busy, Htop.
  - destruct c, e; simpl; try (apply thread_ok_tail, Hk);
      apply thread_ok_push; auto.
  - change (wg (set_wg w1 n)) with n.
    change (outstanding (set_wg w1 n)) with (outstanding w1).
    rewrite total_thread_cons, Htop.
    assert (total_thread counts
              (match c with
               | ByWorker => worker_report path e
               | ByAddJob => addJob_report path e
               end ++ k) = total_thread counts k)
      by (destruct c, e; reflexivity).
    lia.
  - intros x. specialize (Hdue x).
    change (visited (set_wg w1 n)) with (visited w1).
    change (due Join walkFn x (set_wg w1 n)) with (due Join walkFn x w1).
    rewrite total_thread_cons.
    assert (total_thread (due_task Join walkFn x)
              (match c with
               | ByWorker => worker_report path e
               | ByAddJob => addJob_report path e
               end ++ k) = total_thread (due_task Join walkFn x) k)
      by (destruct c, e; reflexivity).
    lia.
Qed.

Ltac walk_inv_parts H :=
  let Hp := fresh "Hp" in
  let Hw := fresh "Hw" in
  let Hl := fresh "Hl" in
  let Hwg := fresh "Hwg" in
  let Hdue := fresh "Hdue" in
  destruct H as (Hp & Hw & Hl & Hwg & Hdue).

Lemma walk_inv_enter (w : Walker) (t : tid) (k : thread) (c : caller)
    (path : string) (nd : node) :
  crashed w = None ->
  walk_inv NumWorkers BufferSize Join walkFn root0 nd0 w ->
  get_thread w t = Some (ProcessPath c path nd :: k) ->
  crashed (processPath_enter w t k c path nd) = None
  /\ walk_inv NumWorkers BufferSize Join walkFn root0 nd0
       (processPath_enter w t k c path nd).
Proof.
  intros Hc Hinv Hg. walk_inv_parts Hinv.
  pose proof (thread_tail _ _ _ _ Hp Hw Hg) as Hk.
  unfold processPath_enter. destruct nd as [st [e|] es]; cbn [readDirNames].
  - apply (walk_inv_return w t (ProcessPath c path (Node st (Some e) es)));
      auto.
    intros x. specialize (Hdue x). simpl. lia.
  - split; [destruct t; exact Hc|].
    apply (walk_inv_set_thread w t (ProcessPath c path (Node st None es)) k
             _ Hp Hw Hl Hg).
    + left. reflexivity.
    + apply thread_ok_push; auto.
    + rewrite !total_thread_cons. simpl. lia.
    + intros x. specialize (Hdue x). rewrite !total_thread_cons. simpl. lia.
Qed.

Lemma loop_with_cons (root name : string) (nd : node) (rest : list (string * node)) :
  loop_with Join walkFn (below Join walkFn) root ((name, nd) :: rest)
  = Join root name ::
    match walkFn (Join root name) (fst (Lstat nd)) (snd (Lstat nd)) with
    | None =>
        match fst (Lstat nd) with
        | None => []
        | Some fi =>
            (if IsDir fi then below Join walkFn (Join root name) nd else [])
            ++ loop_with Join walkFn (below Join walkFn) root rest
        end
    | Some e =>
        if is_SkipDir e
        then loop_with Join walkFn (below Join walkFn) root rest
        else []
    end.
Proof. reflexivity. Qed.

Lemma walk_inv_range (w : Walker) (t : tid) (k : thread) (c : caller)
    (root : string) (names : list (string * node)) :
  crashed w = None ->
  walk_inv NumWorkers BufferSize Join walkFn root0 nd0 w ->
  get_thread w t = Some (Range c root names :: k) ->
  crashed (processPath_range Join walkFn w t k c root names) = None ->
  walk_inv NumWorkers BufferSize Join walkFn root0 nd0
    (processPath_range Join walkFn w t k c root names).
Proof.
  intros Hc Hinv Hg. walk_inv_parts Hinv.
  pose proof (thread_tail _ _ _ _ Hp Hw Hg) as Hk.
  unfold processPath_range.
  destruct names as [|[name nd] rest].
  { intros _. apply (walk_inv_return w t (Range c root [])); auto.
    intros x. specialize (Hdue x). simpl. lia. }
  pose proof (loop_with_cons root name nd rest) as Hloop.
  destruct (Lstat nd) as [info e0]. simpl fst in Hloop; simpl snd in Hloop.
  set (w1 := add_call w (Join root name, info, e0)).
  assert (Hg1 : get_thread w1 t = Some (Range c root ((name, nd) :: rest) :: k))
    by (destruct t; exact Hg).
  assert (Hv1 : forall x, occ x (visited w1)
                          = occ x (visited w) + occ x [Join root name]).
  { intros x. unfold w1. rewrite visited_add_call, occ_app. reflexivity. }
  assert (Hd1 : forall x, due Join walkFn x w1 = due Join walkFn x w)
    by reflexivity.
  destruct (walkFn (Join root name) info e0) as [e|].
  - destruct (is_SkipDir e).
    + intros _.
      apply (walk_inv_set_thread w1 t (Range c root ((name, nd) :: rest)) k
               _ Hp Hw Hl Hg1); [left; reflexivity| | |].
      * apply thread_ok_push; auto.
      * change (wg w1) with (wg w).
        change (outstanding w1) with (outstanding w).
        rewrite !total_thread_cons. simpl. lia.
      * intros x. specialize (Hdue x). rewrite Hv1, Hd1, !total_thread_cons.
        cbn [due_task]. rewrite Hloop.
        rewrite (occ_cons x (Join root name) (loop_with _ _ _ _ _)). lia.
    + intros _.
      apply (walk_inv_return w1 t (Range c root ((name, nd) :: rest))); auto.
      intros x. specialize (Hdue x). rewrite Hv1, Hd1.
      cbn [due_task]. rewrite Hloop. lia.
  - destruct info as [fi|]; [|discriminate].
    destruct (IsDir fi); intros _.
    + apply (walk_inv_set_thread w1 t (Range c root ((name, nd) :: rest)) k
               _ Hp Hw Hl Hg1); [left; reflexivity| | |].
      * apply thread_ok_push; simpl; auto.
      * change (wg w1) with (wg w).
        change (outstanding w1) with (outstanding w).
        rewrite !total_thread_cons. simpl. lia.
      * intros x. specialize (Hdue x). rewrite Hv1, Hd1, !total_thread_cons.
        cbn [due_task]. rewrite Hloop.
        rewrite (occ_cons x (Join root name) (_ ++ _)), occ_app. lia.
    + apply (walk_inv_set_thread w1 t (Range c root ((name, nd) :: rest)) k
               _ Hp Hw Hl Hg1); [left; reflexivity| | |].
      * apply thread_ok_push; auto.
      * change (wg w1) with (wg w).
        change (outstanding w1) with (outstanding w).
        rewrite !total_thread_cons. simpl. lia.
      * intros x. specialize (Hdue x). rewrite Hv1, Hd1, !total_thread_cons.
        cbn [due_task]. rewrite Hloop.
        rewrite (occ_cons x (Join root name) (_ ++ _)), occ_app.
        simpl (occ x []). lia.
Qed.

Lemma walk_inv_addJob (w w' : Walker) (t : tid) (k : thread)
    (path : string) (nd : node) (receiver : option nat) :
  crashed w = None ->
  walk_inv NumWorkers BufferSize Join walkFn root0 nd0 w ->
  get_thread w t = Some (AddJob path nd :: k) ->
  addJob BufferSize w t k path nd receiver = Some w' ->
  crashed w' = None /\ walk_inv NumWorkers BufferSize Join walkFn root0 nd0 w'.
Proof.
  intros Hc Hinv Hg. walk_inv_parts Hinv.
  pose proof (thread_tail _ _ _ _ Hp Hw Hg) as Hk.
  destruct (busy_running _ _ _ Hp Hg eq_refl) as (stk0 & Hm & Hs0 & Hjc & Hec & Hn).
  pose proof (thread_ok_tail _ Hk) as Hkok.
  unfold addJob.
  destruct (receiver_parked w receiver) eqn:Hpk; simpl; [|discriminate].
  rewrite Hjc. unfold try_send_job.
  destruct receiver as [i|].
  - simpl workers; simpl jobs. simpl in Hpk.
    destruct (nth_error (workers w) i) as [[|? ?]|] eqn:Hi; try discriminate.
    destruct (jobs w) eqn:Hjs; try discriminate.
    intros H; injection H as <-.
    set (w2 := set_workers (wg_Add w) _).
    assert (Hg2 : get_thread w2 t = Some (AddJob path nd :: k))
      by exact (get_thread_handoff (wg_Add w) t i _ _ _ Hg Hi).
    split; [destruct t; exact Hc|].
    pose proof (list_sum_replace_nth (total_thread counts) i
                  [ProcessPath ByWorker path nd] [] _ Hi) as H2.
    change (total_thread counts []) with 0 in H2.
    change (total_thread counts [ProcessPath ByWorker path nd]) with 1 in H2.
    apply (walk_inv_set_thread w2 t (AddJob path nd) k).
    + unfold phase_inv, w2 in *; simpl. rewrite Hm in *.
      rewrite replace_nth_length. exact Hp.
    + unfold w2; simpl. apply forallb_replace_nth; auto.
    + unfold w2; simpl. rewrite Hjs. simpl. lia.
    + exact Hg2.
    + left. reflexivity.
    + exact Hkok.
    + unfold outstanding, total, w2 in *; simpl. rewrite total_thread_cons.
      simpl counts. unfold thread in *. lia.
    + intros x. specialize (Hdue x).
      pose proof (list_sum_replace_nth (total_thread (due_task Join walkFn x)) i
                    [ProcessPath ByWorker path nd] [] _ Hi) as H3.
      change (total_thread (due_task Join walkFn x) []) with 0 in H3.
      change (total_thread (due_task Join walkFn x)
                [ProcessPath ByWorker path nd])
        with (occ x (below Join walkFn path nd) + 0) in H3.
      change (visited w2) with (visited w).
      unfold due, total, w2 in *; simpl. rewrite total_thread_cons.
      cbn [due_task]. unfold thread in *. lia.
  - simpl jobs.
    destruct (List.length (jobs w) <? BufferSize)%nat eqn:Hroom.
    + intros H; injection H as <-.
      apply Nat.ltb_lt in Hroom.
      set (w2 := set_jobs (wg_Add w) _).
      assert (Hg2 : get_thread w2 t = Some (AddJob path nd :: k))
        by (destruct t; exact Hg).
      split; [destruct t; exact Hc|].
      apply (walk_inv_set_thread w2 t (AddJob path nd) k).
      * unfold phase_inv, w2 in *; simpl. rewrite Hm in *. exact Hp.
      * exact Hw.
      * unfold w2; simpl. rewrite length_app. simpl. lia.
      * exact Hg2.
      * left. reflexivity.
      * exact Hkok.
      * unfold outstanding, total, w2 in *; simpl.
        rewrite map_app, list_sum_app, total_thread_cons. simpl. lia.
      * intros x. specialize (Hdue x). change (visited w2) with (visited w).
        unfold due, total, w2 in *; simpl.
        rewrite map_app, list_sum_app, total_thread_cons.
        cbn [due_task map list_sum]. unfold due_job at 2. simpl fst; simpl snd.
        simpl list_sum. lia.
    + intros H; injection H as <-.
      assert (Hg1 : get_thread (wg_Add w) t = Some (AddJob path nd :: k))
        by (destruct t; exact Hg).
      split; [destruct t; exact Hc|].
      apply (walk_inv_set_thread (wg_Add w) t (AddJob path nd) k
               _ Hp Hw Hl Hg1).
      * left. reflexivity.
      * apply thread_ok_push; auto.
      * change (outstanding (wg_Add w)) with (outstanding w).
        rewrite !total_thread_cons. simpl. lia.
      * intros x. specialize (Hdue x).
        change (visited (wg_Add w)) with (visited w).
        change (due Join walkFn x (wg_Add w)) with (due Join walkFn x w).
        rewrite !total_thread_cons. simpl. lia.
Qed.

Lemma walk_inv_send_error (w w' : Walker) (t : tid) (k : thread)
    (we : WalkerError) (receiver : option nat) :
  crashed w = None ->
  walk_inv NumWorkers BufferSize Join walkFn root0 nd0 w ->
  get_thread w t = Some (Send we :: k) ->
  send_error BufferSize w t k we receiver = Some w' ->
  crashed w' = None ->
  walk_inv NumWorkers BufferSize Join walkFn root0 nd0 w'.
Proof.
  intros Hc Hinv Hg. walk_inv_parts Hinv.
  pose proof (thread_tail _ _ _ _ Hp Hw Hg) as Hk.
  assert (Hd : drained (Send we :: k) = false \/ drained k = true)
    by (destruct k; simpl; auto).
  unfold send_error. destruct (errors_closed w).
  { intros H; injection H as <-. discriminate. }
  destruct receiver as [i|].
  - destruct (errors w); try discriminate.
    intros H; injection H as <-. intros _.
    set (w2 := set_errorList w _).
    assert (Hg2 : get_thread w2 t = Some (Send we :: k)) by (destruct t; exact Hg).
    apply (walk_inv_set_thread w2 t (Send we) k _ Hp Hw Hl Hg2 Hd).
    + apply thread_ok_tail, Hk.
    + change (wg w2) with (wg w). change (outstanding w2) with (outstanding w).
      rewrite total_thread_cons. simpl. lia.
    + intros x. specialize (Hdue x). rewrite total_thread_cons. simpl.
      change (visited w2) with (visited w).
      change (due Join walkFn x w2) with (due Join walkFn x w). lia.
  - destruct (List.length (errors w) <? BufferSize)%nat; try discriminate.
    intros H; injection H as <-. intros _.
    set (w2 := set_errors w _).
    assert (Hg2 : get_thread w2 t = Some (Send we :: k)) by (destruct t; exact Hg).
    apply (walk_inv_set_thread w2 t (Send we) k _ Hp Hw Hl Hg2 Hd).
    + apply thread_ok_tail, Hk.
    + change (wg w2) with (wg w). change (outstanding w2) with (outstanding w).
      rewrite total_thread_cons. simpl. lia.
    + intros x. specialize (Hdue x). rewrite total_thread_cons. simpl.
      change (visited w2) with (visited w).
      change (due Join walkFn x w2) with (due Join walkFn x w). lia.
Qed.

Lemma walk_inv_worker (w w' : Walker) (i : nat) :
  walk_inv NumWorkers BufferSize Join walkFn root0 nd0 w ->
  worker w i = Some w' ->
  walk_inv NumWorkers BufferSize Join walkFn root0 nd0 w'.
Proof.
  intros Hinv. walk_inv_parts Hinv. unfold worker.
  destruct (nth_error (workers w) i) as [[|? ?]|] eqn:Hi; try discriminate.
  destruct (jobs w) as [|[path nd] js] eqn:Hj; try discriminate.
  intros H; injection H as <-.
  assert (Hm : exists stk0, main w = Running stk0).
  { unfold phase_inv in Hp. rewrite Hj in Hp.
    destruct (main w) as [? ?|stk0| |]; [|exists stk0; reflexivity| |].
    - destruct Hp as (_ & H3 & _). discriminate.
    - destruct Hp as (_ & _ & H3). discriminate.
    - destruct Hp as (_ & H3). discriminate. }
  destruct Hm as (stk0 & Hm).
  pose proof (list_sum_replace_nth (total_thread counts) i
                [ProcessPath ByWorker path nd] [] _ Hi) as H2.
  change (total_thread counts []) with 0 in H2.
  change (total_thread counts [ProcessPath ByWorker path nd]) with 1 in H2.
  split; [|split; [|split; [|split]]].
  - unfold phase_inv in *; simpl. rewrite Hm in *.
    rewrite replace_nth_length. exact Hp.
  - simpl. apply forallb_replace_nth; auto.
  - simpl in *. lia.
  - unfold outstanding, total in *; simpl. rewrite Hj in Hwg. simpl in Hwg.
    unfold thread in *. lia.
  - intros x. specialize (Hdue x).
    pose proof (list_sum_replace_nth (total_thread (due_task Join walkFn x)) i
                  [ProcessPath ByWorker path nd] [] _ Hi) as H3.
    change (total_thread (due_task Join walkFn x) []) with 0 in H3.
    change (total_thread (due_task Join walkFn x) [ProcessPath ByWorker path nd])
      with (occ x (below Join walkFn path nd) + 0) in H3.
    unfold due, total in *; simpl. rewrite Hj in Hdue. simpl in Hdue.
    unfold due_job at 1 in Hdue. simpl in Hdue.
    change (visited (set_workers (set_jobs w js)
              (replace_nth i [ProcessPath ByWorker path nd] (workers w))))
      with (visited w).
    unfold thread in *. lia.
Qed.

Lemma walk_inv_collectErrors (w w' : Walker) :
  walk_inv NumWorkers BufferSize Join walkFn root0 nd0 w ->
  collectErrors w = Some w' ->
  walk_inv NumWorkers BufferSize Join walkFn root0 nd0 w'.
Proof.
  intros Hinv. unfold collectErrors. destruct (errors w).
  - destruct (errors_closed w && negb (ewg_done w)); try discriminate.
    intros H; injection H as <-. exact Hinv.
  - intros H; injection H as <-. exact Hinv.
Qed.

Lemma walk_inv_Walk_wait (w w' : Walker) :
  walk_inv NumWorkers BufferSize Join walkFn root0 nd0 w ->
  Walk_wait w = Some w' ->
  walk_inv NumWorkers BufferSize Join walkFn root0 nd0 w'.
Proof.
  intros Hinv. walk_inv_parts Hinv. unfold Walk_wait.
  destruct (main w) as [| [|? ?] | |] eqn:Hm; try discriminate.
  destruct (wg w) eqn:Hn; try discriminate.
  intros H; injection H as <-.
  unfold outstanding, total in Hwg. rewrite Hm in Hwg.
  change (total_thread counts []) with 0 in Hwg.
  assert (Hidle : forallb drained (workers w) = true)
    by (apply threads_no_work; auto; lia).
  assert (Hj : jobs w = []) by (apply jobs_none; lia).
  split; [|split; [|split; [|split]]]; auto.
  - unfold phase_inv; simpl. auto.
  - unfold outstanding, total; simpl. lia.
  - intros x. specialize (Hdue x). unfold due, total in *; simpl.
    rewrite Hm in Hdue. exact Hdue.
Qed.

Lemma walk_inv_Walk_return (w w' : Walker) :
  walk_inv NumWorkers BufferSize Join walkFn root0 nd0 w ->
  Walk_return w = Some w' ->
  walk_inv NumWorkers BufferSize Join walkFn root0 nd0 w'.
Proof.
  intros Hinv. walk_inv_parts Hinv. unfold Walk_return.
  destruct (main w) eqn:Hm; try discriminate.
  destruct (ewg_done w); try discriminate.
  intros H; injection H as <-.
  split; [|split; [|split; [|split]]]; auto.
  - unfold phase_inv in *; simpl. rewrite Hm in Hp. tauto.
  - unfold outstanding, total in *; simpl. rewrite Hm in Hwg. exact Hwg.
  - intros x. specialize (Hdue x). unfold due, total in *; simpl.
    rewrite Hm in Hdue. exact Hdue.
Qed.

Lemma walk_inv_Walk_root (w : Walker) (root : string) (nd : node) :
  walk_inv NumWorkers BufferSize Join walkFn root0 nd0 w ->
  main w = Start root nd ->
  crashed (Walk_root NumWorkers walkFn w root nd) = crashed w
  /\ walk_inv NumWorkers BufferSize Join walkFn root0 nd0
       (Walk_root NumWorkers walkFn w root nd).
Proof.
  intros Hinv Hm. walk_inv_parts Hinv.
  unfold phase_inv in Hp. rewrite Hm in Hp.
  destruct Hp as (Hws & Hj & Hjc & Hec).
  assert (Hv : forall x,
             occ x (visited w) + occ x (expected Join walkFn root nd)
             = occ x (expected Join walkFn root0 nd0)).
  { intros x. specialize (Hdue x). unfold due, total in Hdue.
    rewrite Hm, Hws, Hj in Hdue. simpl in Hdue. lia. }
  assert (Hout : wg w = 0).
  { unfold outstanding, total in Hwg. rewrite Hm, Hws, Hj in Hwg. exact Hwg. }
  unfold Walk_root. unfold expected at 1 in Hv.
  destruct nd as [[fi|e] rd es]; cbn [Lstat] in *.
  - destruct (walkFn root (Some fi) None) as [e1|].
    + split; [reflexivity|].
      split; [|split; [|split; [|split]]]; simpl; auto.
      * unfold phase_inv; simpl. rewrite Hws, Hj. auto.
      * unfold outstanding, total; simpl. rewrite Hws, Hj. exact Hout.
      * intros x. specialize (Hv x). unfold due, total; simpl.
        rewrite Hws, Hj. unfold visited in *. simpl. rewrite map_app, occ_app.
        simpl map. simpl. simpl in Hv. lia.
    + destruct (IsDir fi); simpl negb; cbv iota.
      * split; [reflexivity|].
        split; [|split; [|split; [|split]]]; simpl; auto.
        -- unfold phase_inv; simpl. rewrite repeat_length. auto.
        -- clear. induction NumWorkers; simpl; auto.
        -- unfold outstanding, total; simpl.
           rewrite total_thread_repeat_nil, Hj. simpl. exact Hout.
        -- intros x. specialize (Hv x). unfold due, total; simpl.
           rewrite total_thread_repeat_nil, Hj. unfold visited in *. simpl.
           rewrite map_app, occ_app. simpl map.
           rewrite (occ_cons x root) in Hv.
           unfold total_thread. simpl. simpl in Hv. lia.
      * split; [reflexivity|].
        split; [|split; [|split; [|split]]]; simpl; auto.
        -- unfold phase_inv; simpl. rewrite Hws, Hj. auto.
        -- unfold outstanding, total; simpl. rewrite Hws, Hj. exact Hout.
        -- intros x. specialize (Hv x). unfold due, total; simpl.
           rewrite Hws, Hj. unfold visited in *. simpl. rewrite map_app, occ_app.
           simpl map. simpl. simpl in Hv. lia.
  - split; [reflexivity|].
    split; [|split; [|split; [|split]]]; simpl; auto.
    + unfold phase_inv; simpl. rewrite Hws, Hj. auto.
    + unfold outstanding, total; simpl. rewrite Hws, Hj. exact Hout.
    + intros x. specialize (Hv x). unfold due, total; simpl.
      rewrite Hws, Hj. simpl in Hv. simpl.
      change (visited (set_main w (Returned (Some e)))) with (visited w). lia.
Qed.

Lemma walk_inv_init :
  walk_inv NumWorkers BufferSize Join walkFn root0 nd0 (Walk_init root0 nd0).
Proof.
  split; [|split; [|split; [|split]]]; simpl; auto.
  all: try (unfold phase_inv; simpl; auto; fail).
  all: try lia.
  all: intros x; unfold due, total; simpl; lia.
Qed.

(** The invariant is kept by every step that does not panic. *)
Lemma walk_inv_step (w w' : Walker) (a : action) :
  walk_inv NumWorkers BufferSize Join walkFn root0 nd0 w ->
  step NumWorkers BufferSize Join walkFn w a = Some w' ->
  crashed w' = None ->
  walk_inv NumWorkers BufferSize Join walkFn root0 nd0 w'.
Proof.
  intros Hinv. unfold step. destruct (crashed w) eqn:Hc; [discriminate|].
  destruct a as [|t r|i| | |].
  - destruct (main w) eqn:Hm; try discriminate.
    intros H; injection H as <-. intros _. apply walk_inv_Walk_root; auto.
  - unfold run.
    destruct (get_thread w t) as [[|[path nd|c path nd|c root names|we] k]|] eqn:Hg;
      try discriminate.
    + intros H _. eapply walk_inv_addJob; eauto.
    + intros H; injection H as <-. intros _. apply walk_inv_enter; auto.
    + intros H; injection H as <-. apply walk_inv_range; auto.
    + apply walk_inv_send_error; auto.
  - intros H _. eapply walk_inv_worker; eauto.
  - intros H _. eapply walk_inv_collectErrors; eauto.
  - intros H _. eapply walk_inv_Walk_wait; eauto.
  - intros H _. eapply walk_inv_Walk_return; eauto.
Qed.

Lemma walk_inv_reachable (w : Walker) :
  reachable NumWorkers BufferSize Join walkFn root0 nd0 w ->
  crashed w = None ->
  walk_inv NumWorkers BufferSize Join walkFn root0 nd0 w.
Proof.
  intros Hr. induction Hr as [|w1 w2 [a Ha] Hr IH]; intros Hc.
  - apply walk_inv_init.
  - eapply walk_inv_step; eauto. apply IH.
    unfold step in Ha. destruct (crashed w1); [discriminate|reflexivity].
Qed.

Lemma due_returned (w : Walker) (e : err) (x : string) :
  walk_inv NumWorkers BufferSize Join walkFn root0 nd0 w ->
  returned w e -> due Join walkFn x w = 0.
Proof.
  intros Hinv Hr. walk_inv_parts Hinv. unfold returned in Hr.
  unfold phase_inv in Hp. rewrite Hr in Hp. destruct Hp as (Hd & Hj).
  unfold due, total. rewrite Hr, Hj, total_thread_drained; auto.
Qed.

(** Once [Walk] has returned, the callback is not called any more. *)
Lemma returned_calls_stable (w w' : Walker) (a : action) (e : err) :
  walk_inv NumWorkers BufferSize Join walkFn root0 nd0 w ->
  returned w e ->
  step NumWorkers BufferSize Join walkFn w a = Some w' ->
  calls w' = calls w.
Proof.
  intros Hinv Hr. walk_inv_parts Hinv. unfold returned in Hr.
  unfold phase_inv in Hp. rewrite Hr in Hp. destruct Hp as (Hd & Hj).
  unfold step. destruct (crashed w); [discriminate|].
  destruct a as [|t r|i| | |].
  - rewrite Hr. discriminate.
  - unfold run. destruct t as [|i]; simpl.
    + rewrite Hr. discriminate.
    + destruct (nth_error (workers w) i) as [stk|] eqn:Hi; try discriminate.
      pose proof (forallb_nth_error _ _ _ _ Hd Hi) as Hs.
      destruct stk as [|[| | |we] [|? ?]]; try discriminate.
      unfold send_error. destruct (errors_closed w).
      { intros H; injection H as <-. reflexivity. }
      destruct r as [j|].
      * destruct (errors w); try discriminate.
        intros H; injection H as <-. reflexivity.
      * destruct (List.length (errors w) <? BufferSize)%nat; try discriminate.
        intros H; injection H as <-. reflexivity.
  - unfold worker. rewrite Hj.
    destruct (nth_error (workers w) i) as [[|? ?]|]; discriminate.
  - unfold collectErrors. destruct (errors w).
    + destruct (errors_closed w && negb (ewg_done w)); try discriminate.
      intros H; injection H as <-. reflexivity.
    + intros H; injection H as <-. reflexivity.
  - unfold Walk_wait. rewrite Hr. discriminate.
  - unfold Walk_return. rewrite Hr. discriminate.
Qed.

Lemma step_not_crashed (w w' : Walker) (a : action) :
  step NumWorkers BufferSize Join walkFn w a = Some w' -> crashed w = None.
Proof.
  unfold step. destruct (crashed w); [discriminate|reflexivity].
Qed.

(** Whatever fails and whatever the schedule, when [Walk] has returned the
    callback has been called for the expected paths, each as often as
    expected. *)
Lemma walk_visits_expected (w : Walker) (e : err) :
  reachable NumWorkers BufferSize Join walkFn root0 nd0 w ->
  returned w e ->
  Permutation (visited w) (expected Join walkFn root0 nd0).
Proof.
  intros Hr He. apply (Permutation_count_occ string_dec). intros x.
  change (occ x (visited w) = occ x (expected Join walkFn root0 nd0)).
  revert e He. induction Hr as [|w1 w2 [a Ha] Hr IH]; intros e He.
  - discriminate.
  - pose proof (step_not_crashed _ _ _ Ha) as Hc.
    pose proof (walk_inv_reachable _ Hr Hc) as Hinv.
    assert (Hfresh : walk_inv NumWorkers BufferSize Join walkFn root0 nd0 w2 ->
                     occ x (visited w2) = occ x (expected Join walkFn root0 nd0)).
    { intros Hinv2. pose proof (due_returned _ _ x Hinv2 He) as Hz.
      destruct Hinv2 as (_ & _ & _ & _ & Hdue). specialize (Hdue x). lia. }
    assert (Hkept : main w2 = main w1 ->
                    occ x (visited w2) = occ x (expected Join walkFn root0 nd0)).
    { intros Hm. unfold returned in He. rewrite Hm in He.
      unfold visited. rewrite (returned_calls_stable _ _ _ _ Hinv He Ha).
      apply (IH e He). }
    destruct a as [|t r|i| | |].
    + unfold step in Ha. rewrite Hc in Ha.
      destruct (main w1) eqn:Hm; try discriminate.
      injection Ha as <-. apply Hfresh. apply walk_inv_Walk_root; auto.
    + apply Hkept. unfold step in Ha. rewrite Hc in Ha.
      eapply main_run; eauto. unfold returned in He. rewrite He. reflexivity.
    + apply Hkept. unfold step, worker in Ha. rewrite Hc in Ha.
      destruct (nth_error (workers w1) i) as [[|? ?]|]; try discriminate.
      destruct (jobs w1) as [|[path nd] js]; try discriminate.
      injection Ha as <-. reflexivity.
    + apply Hkept. unfold step, collectErrors in Ha. rewrite Hc in Ha.
      destruct (errors w1).
      * destruct (errors_closed w1 && negb (ewg_done w1)); try discriminate.
        injection Ha as <-. reflexivity.
      * injection Ha as <-. reflexivity.
    + apply Hfresh. eapply walk_inv_step; eauto.
      unfold step, Walk_wait in Ha. rewrite Hc in Ha.
      destruct (main w1) as [| [|? ?] | |]; try discriminate.
      destruct (wg w1); try discriminate.
      injection Ha as <-. exact Hc.
    + apply Hfresh. eapply walk_inv_step; eauto.
      unfold step, Walk_return in Ha. rewrite Hc in Ha.
      destruct (main w1); try discriminate.
      destruct (ewg_done w1); try discriminate.
      injection Ha as <-. exact Hc.
Qed.

(** While a context is inside [processPath], the counter of [wg] is
    positive. *)
Lemma wg_positive (w : Walker) (t : tid) (top : task) (k : thread) :
  reachable NumWorkers BufferSize Join walkFn root0 nd0 w ->
  crashed w = None ->
  get_thread w t = Some (top :: k) ->
  counts top = 1 ->
  0 < wg w.
Proof.
  intros Hr Hc Hg Htop.
  destruct (walk_inv_reachable _ Hr Hc) as (_ & _ & _ & Hwg & _).
  pose proof (outstanding_thread _ _ _ Hg) as Hpos.
  rewrite total_thread_cons, Htop in Hpos. lia.
Qed.

(** A context that has more on its stack than one error to send finds
    both channels open. *)
Lemma busy_channels_open (w : Walker) (t : tid) (stk : thread) :
  reachable NumWorkers BufferSize Join walkFn root0 nd0 w ->
  crashed w = None ->
  get_thread w t = Some stk ->
  drained stk = false ->
  jobs_closed w = false /\ errors_closed w = false.
Proof.
  intros Hr Hc Hg Hd.
  destruct (walk_inv_reachable _ Hr Hc) as (Hp & _).
  destruct (busy_running _ _ _ Hp Hg Hd) as (stk0 & _ & _ & Hjc & Hec & _).
  auto.
Qed.

Lemma exec_reachable (l : list action) :
  forall w w',
    reachable NumWorkers BufferSize Join walkFn root0 nd0 w ->
    exec NumWorkers BufferSize Join walkFn w l = Some w' ->
    reachable NumWorkers BufferSize Join walkFn root0 nd0 w'.
Proof.
  induction l as [|a l IH]; simpl; intros w w' Hr He.
  - injection He as <-. exact Hr.
  - destruct (step NumWorkers BufferSize Join walkFn w a) as [w1|] eqn:Ha;
      try discriminate.
    apply (IH w1); auto. econstructor; eauto. exists a. exact Ha.
Qed.

Lemma busy_can_move (w : Walker) (t : tid) (top : task) (k : thread) :
  crashed w = None ->
  get_thread w t = Some (top :: k) ->
  exists a w', step NumWorkers BufferSize Join walkFn w a = Some w'.
Proof.
  intros Hc Hg. unfold step. rewrite Hc.
  destruct top as [path nd|c path nd|c root names|we].
  - exists (ARun t None). unfold run. rewrite Hg. unfold addJob.
    simpl receiver_parked. simpl negb. cbv iota.
    destruct (jobs_closed (wg_Add w)); eauto.
    destruct (try_send_job BufferSize (wg_Add w) None path nd); eauto.
  - exists (ARun t None). unfold run. rewrite Hg. eauto.
  - exists (ARun t None). unfold run. rewrite Hg. eauto.
  - destruct (errors_closed w) eqn:Hec.
    + exists (ARun t None). unfold run. rewrite Hg.
      unfold send_error. rewrite Hec. eauto.
    + destruct (errors w) as [|we' es] eqn:He.
      * exists (ARun t (Some 0)). unfold run. rewrite Hg.
        unfold send_error. rewrite Hec, He. eauto.
      * exists ACollect. unfold collectErrors. rewrite He. eauto.
Qed.

(** With a worker to drain the queue, or no queue to drain, a walk that
    has neither returned nor panicked can move: it never deadlocks. *)
Lemma walk_progress (w : Walker) :
  1 <= NumWorkers \/ BufferSize = 0 ->
  walk_inv NumWorkers BufferSize Join walkFn root0 nd0 w ->
  crashed w = None ->
  (forall e, ~ returned w e) ->
  exists a w', step NumWorkers BufferSize Join walkFn w a = Some w'.
Proof.
  intros Hcfg Hinv Hc Hnr. walk_inv_parts Hinv.
  destruct (main w) as [root nd|stk| |e] eqn:Hm.
  - exists ARoot. unfold step. rewrite Hc, Hm. eauto.
  - destruct stk as [|top k].
    + destruct (forallb idle (workers w)) eqn:Hidle.
      * destruct (jobs w) as [|[path nd] js] eqn:Hj.
        -- exists AWait. unfold step, Walk_wait. rewrite Hc, Hm.
           unfold outstanding, total in Hwg.
           rewrite Hm, Hj, total_thread_idle in Hwg by auto.
           simpl in Hwg. rewrite Hwg. eauto.
        -- exists (AWorker 0). unfold step, worker. rewrite Hc, Hj.
           unfold phase_inv in Hp. rewrite Hm in Hp.
           destruct Hp as (_ & _ & _ & Hn).
           simpl in Hl.
           destruct (workers w) as [|stk ws] eqn:Hws; simpl in Hn; [lia|].
           simpl in Hidle. apply andb_true_iff in Hidle.
           destruct Hidle as (Hi & _). destruct stk; try discriminate.
           simpl. eauto.
      * destruct (forallb_false_nth _ _ Hidle) as (i & stk & Hi & Hstk).
        destruct stk as [|top k]; try discriminate.
        apply (busy_can_move w (TWorker i) top k); auto.
    + apply (busy_can_move w TMain top k); auto.
      simpl. rewrite Hm. reflexivity.
  - unfold phase_inv in Hp. rewrite Hm in Hp. destruct Hp as (Hec & _).
    destruct (ewg_done w) eqn:Hd.
    + exists AReturn. unfold step, Walk_return. rewrite Hc, Hm, Hd. eauto.
    + exists ACollect. unfold step, collectErrors. rewrite Hc, Hec, Hd.
      destruct (errors w); simpl; eauto.
  - exfalso. apply (Hnr e). exact Hm.
Qed.

Lemma walk_ends_within (n : nat) :
  1 <= NumWorkers \/ BufferSize = 0 ->
  forall w,
    measure w <= n ->
    reachable NumWorkers BufferSize Join walkFn root0 nd0 w ->
    exists w',
      clos_refl_trans_1n Walker
        (steps_to NumWorkers BufferSize Join walkFn) w w'
      /\ (crashed w' <> None \/ exists e, returned w' e).
Proof.
  intros Hcfg. induction n as [|n IH]; intros w Hn Hr.
  - exists w. split; [constructor|].
    destruct (crashed w) eqn:Hc; [left; discriminate|].
    unfold measure in Hn. rewrite Hc in Hn. lia.
  - destruct (crashed w) eqn:Hc.
    { exists w. split; [constructor|]. left. congruence. }
    destruct (main w) as [root nd|stk| |e] eqn:Hm.
    4: exists w; split; [constructor|right; exists e; exact Hm].
    1-3: assert (Hnr : forall e, ~ returned w e)
        by (unfold returned; intros e; rewrite Hm; discriminate);
      destruct (walk_progress w Hcfg (walk_inv_reachable _ Hr Hc) Hc Hnr)
        as (a & w1 & Hstep);
      pose proof (step_measure _ _ _ _ _ _ _ Hstep) as Hlt;
      destruct (IH w1) as (w' & Hrun & Hend);
        [lia | econstructor; [exists a; exact Hstep | exact Hr] |];
      exists w'; split; auto;
      econstructor; [exists a; exact Hstep | exact Hrun].
Qed.

End Invariant.

Lemma after_reachable (NumWorkers BufferSize : nat)
    (walkFn : string -> option FileInfo -> err -> err) (nd : node)
    (l : list action) :
  reachable NumWorkers BufferSize Examples.Join walkFn "root" nd
    (Examples.after NumWorkers BufferSize walkFn nd l).
Proof.
  unfold Examples.after.
  destruct (exec NumWorkers BufferSize Examples.Join walkFn
              (Walk_init "root" nd) l) as [w|] eqn:He.
  - eapply exec_reachable; eauto. constructor.
  - constructor.
Qed.

(** * The claims of the specification *)

(** C1, as amended: for every tree in which no file system operation
    fails and a callback that always returns nil, whatever the number of
    workers and the capacity of the queue, when [Walk] has returned the
    callback has been called exactly once for each path reachable from the
    root by directory descent, the root included; and with at least one
    worker (or a job queue without buffer) every walk can run on until
    [Walk] returns. *)
Theorem C1_walk_visits_each_path_once
    (NumWorkers BufferSize : nat) (Join : string -> string -> string)
    (walkFn : string -> option FileInfo -> err -> err)
    (root : string) (nd : node) :
  healthy nd = true ->
  (forall path info e, walkFn path info e = None) ->
  (forall w e,
     reachable NumWorkers BufferSize Join walkFn root nd w ->
     returned w e ->
     Permutation (visited w) (paths Join root nd))
  /\ (1 <= NumWorkers \/ BufferSize = 0 ->
      forall w,
        reachable NumWorkers BufferSize Join walkFn root nd w ->
        exists w' e,
          clos_refl_trans_1n Walker
            (steps_to NumWorkers BufferSize Join walkFn) w w'
          /\ reachable NumWorkers BufferSize Join walkFn root nd w'
          /\ returned w' e).
Proof.
  intros Hnd Hnil. split.
  - intros w e Hr Hret. eapply healthy_returned; eauto.
  - intros Hcfg w Hr.
    pose proof (inv_reachable _ _ _ _ Hnil _ _ _ Hnd Hr) as Hinv.
    destruct (can_return NumWorkers BufferSize Join walkFn Hnil root nd
                (measure w) Hcfg w (le_n _) Hinv) as (w' & e & Hrun & Hret).
    exists w', e. repeat split; auto.
    eapply reachable_trans; eauto.
Qed.

Lemma C1_witness :
  (forall w e,
     reachable 4 4 Examples.Join Examples.callback "root" Examples.tree w ->
     returned w e ->
     Permutation (visited w)
       ["root"; "root/a.txt"; "root/sub"; "root/sub/b.txt"; "root/sub/c.txt"])
  /\ (forall w,
        reachable 4 4 Examples.Join Examples.callback "root" Examples.tree w ->
        exists w' e,
          clos_refl_trans_1n Walker
            (steps_to 4 4 Examples.Join Examples.callback) w w'
          /\ reachable 4 4 Examples.Join Examples.callback "root" Examples.tree w'
          /\ returned w' e).
Proof.
  destruct (C1_walk_visits_each_path_once 4 4 Examples.Join Examples.callback
              "root" Examples.tree) as (Hvisit & Hlive).
  - reflexivity.
  - intros path info e. reflexivity.
  - split; [exact Hvisit|]. apply Hlive. left. lia.
Defined.

(** C1, as stated, fails without a worker: with no worker and a queue of
    capacity one, the root is queued and never taken, so the callback is
    never called for the file below the root and [Walk] never returns. *)
Lemma C1_no_worker_counterexample :
  In "root/a.txt" (paths Examples.Join "root" Examples.small_tree)
  /\ forall w,
       reachable 0 1 Examples.Join Examples.callback "root" Examples.small_tree w ->
       ~ In "root/a.txt" (visited w) /\ forall e, ~ returned w e.
Proof.
  split; [simpl; auto|].
  set (s0 := Walk_init "root" Examples.small_tree).
  set (s1 := Walk_root 0 Examples.callback s0 "root" Examples.small_tree).
  set (s2 := set_main (set_jobs (wg_Add s1) [("root", Examples.small_tree)])
               (Running [])).
  assert (Hall : forall w,
             reachable 0 1 Examples.Join Examples.callback "root"
               Examples.small_tree w ->
             w = s0 \/ w = s1 \/ w = s2).
  { intros w Hr. induction Hr as [|w1 w2 [a Ha] Hr IH]; [left; reflexivity|].
    destruct IH as [->|[->| ->]].
    - destruct a as [|t r|i| | |]; try discriminate.
      + injection Ha as <-. right; left. reflexivity.
      + destruct t as [|[|i]]; discriminate.
      + destruct i; discriminate.
    - destruct a as [|t r|i| | |]; try discriminate.
      + destruct t as [|[|i]]; try discriminate.
        destruct r as [[|i]|]; try discriminate.
        injection Ha as <-. right; right. reflexivity.
      + destruct i; discriminate.
    - destruct a as [|t r|i| | |]; try discriminate.
      + destruct t as [|[|i]]; discriminate.
      + destruct i; discriminate. }
  intros w Hr. destruct (Hall w Hr) as [->|[->| ->]]; split;
    try (intros e; discriminate);
    simpl; intros H; repeat (destruct H as [H|H]; try discriminate); auto.
Qed.

(** ** The text of the aggregate error *)

Lemma string_append_assoc (a b c : string) :
  ((a ++ b) ++ c = a ++ (b ++ c))%string.
Proof. induction a as [|ch a IH]; simpl; [|rewrite IH]; reflexivity. Qed.

Lemma strings_Join_fold (sep : string) (rest : list string) :
  forall acc y,
    fold_left (fun b s => (b ++ sep ++ s)%string) (y :: rest) acc
    = (acc ++ sep ++ String.concat sep (y :: rest))%string.
Proof.
  induction rest as [|z rest IH]; intros acc y.
  - reflexivity.
  - change (fold_left (fun b s => (b ++ sep ++ s)%string) (y :: z :: rest) acc)
      with (fold_left (fun b s => (b ++ sep ++ s)%string) (z :: rest)
              (acc ++ sep ++ y)%string).
    rewrite IH.
    change (String.concat sep (y :: z :: rest))
      with (y ++ sep ++ String.concat sep (z :: rest))%string.
    rewrite !string_append_assoc. reflexivity.
Qed.

Lemma strings_Join_concat (elems : list string) (sep : string) :
  strings_Join elems sep = String.concat sep elems.
Proof.
  destruct elems as [|x [|y rest]]; try reflexivity.
  unfold strings_Join. rewrite strings_Join_fold. reflexivity.
Qed.

(** C9: the text of the aggregate error is the messages of the collected
    pairs, each the message of its underlying error, in the order of the
    list and joined by newlines; the empty aggregate has the empty text; and
    the collector appends each pair it receives at the end of the list, so
    the order of the list is the order of arrival. *)
Theorem C9_error_list_text :
  (forall wel : WalkerErrorList,
     WalkerErrorList_Error wel
     = String.concat newline (map (fun we => Error (we_error we)) wel))
  /\ WalkerErrorList_Error [] = EmptyString
  /\ (forall w we es,
        option_map errorList (collectErrors (set_errors w (we :: es)))
        = Some (errorList w ++ [we])).
Proof.
  split; [|split; reflexivity].
  intros wel. unfold WalkerErrorList_Error.
  assert (Hmap : map WalkerError_Error wel
                 = map (fun we => Error (we_error we)) wel).
  { apply map_ext. intros [e p]. reflexivity. }
  destruct wel as [|we wel]; [reflexivity|].
  change (Error (ErrorListValue (we :: wel)))
    with (strings_Join (map WalkerError_Error (we :: wel)) newline).
  rewrite strings_Join_concat, Hmap. reflexivity.
Qed.

(** ** One pass of the loop of [processPath] *)

(** C3: in every state of every walk, when the callback returns an error
    other than the skip sentinel for a child, the loop of [processPath] ends
    at once: the children listed after it are dropped with the activation,
    and the caller is left to send that error paired with the path of the
    directory.  When the callback returns the skip sentinel, the child is not
    submitted (neither the queue nor the counter changes) and the loop goes
    on with the next child. *)
Theorem C3_abort_and_skip_in_processPath
    (NumWorkers BufferSize : nat) (Join : string -> string -> string)
    (walkFn : string -> option FileInfo -> err -> err)
    (root0 : string) (nd0 : node)
    (w : Walker) (t : tid) (receiver : option nat) (c : caller)
    (root name : string) (nd : node) (rest : list (string * node))
    (k : thread) :
  reachable NumWorkers BufferSize Join walkFn root0 nd0 w ->
  crashed w = None ->
  get_thread w t = Some (Range c root ((name, nd) :: rest) :: k) ->
  (forall e,
     walkFn (Join root name) (fst (Lstat nd)) (snd (Lstat nd)) = Some e ->
     is_SkipDir e = false ->
     exists w',
       step NumWorkers BufferSize Join walkFn w (ARun t receiver) = Some w'
       /\ crashed w' = None
       /\ calls w' = calls w ++ [(Join root name, fst (Lstat nd), snd (Lstat nd))]
       /\ get_thread w' t = Some (Send (mkWalkerError e root) :: k)
       /\ jobs w' = jobs w
       /\ S (wg w') = wg w)
  /\ (walkFn (Join root name) (fst (Lstat nd)) (snd (Lstat nd)) = Some SkipDir ->
      exists w',
        step NumWorkers BufferSize Join walkFn w (ARun t receiver) = Some w'
        /\ crashed w' = None
        /\ calls w' = calls w ++ [(Join root name, fst (Lstat nd), snd (Lstat nd))]
        /\ get_thread w' t = Some (Range c root rest :: k)
        /\ jobs w' = jobs w
        /\ wg w' = wg w).
Proof.
  intros Hr Hc Hg.
  assert (Hwg : 0 < wg w) by (eapply wg_positive; eauto).
  assert (Hstep : step NumWorkers BufferSize Join walkFn w (ARun t receiver)
                  = Some (processPath_range Join walkFn w t k c root
                            ((name, nd) :: rest))).
  { unfold step, run. rewrite Hc, Hg. reflexivity. }
  rewrite Hstep. unfold processPath_range.
  destruct (Lstat nd) as [info e0]. simpl fst; simpl snd.
  set (w1 := add_call w (Join root name, info, e0)).
  assert (Hg1 : get_thread w1 t = Some (Range c root ((name, nd) :: rest) :: k))
    by (destruct t; exact Hg).
  split.
  - intros e He Hskip. rewrite He, Hskip.
    eexists. split; [reflexivity|].
    unfold processPath_return, wg_Done. change (wg w1) with (wg w).
    destruct (wg w) as [|n]; [lia|].
    change (crashed (set_wg w1 n)) with (crashed w). rewrite Hc.
    assert (Hg2 : get_thread (set_wg w1 n) t
                  = Some (Range c root ((name, nd) :: rest) :: k))
      by (destruct t; exact Hg).
    rewrite (get_set_thread _ _ _ _ Hg2).
    destruct t; destruct c; simpl; auto.
  - intros He. rewrite He. simpl is_SkipDir. cbv iota.
    eexists. split; [reflexivity|].
    rewrite (get_set_thread _ _ _ _ Hg1).
    destruct t; simpl; auto.
Qed.

Lemma C3_witness :
  (forall e,
     Examples.abort_below (Examples.Join "root" "a.txt")
       (fst (Lstat (Examples.file "a.txt"))) (snd (Lstat (Examples.file "a.txt")))
     = Some e ->
     is_SkipDir e = false ->
     exists w',
       step 1 0 Examples.Join Examples.abort_below Examples.in_loop
         (ARun TMain None) = Some w'
       /\ crashed w' = None
       /\ calls w'
          = calls Examples.in_loop
            ++ [(Examples.Join "root" "a.txt",
                 fst (Lstat (Examples.file "a.txt")),
                 snd (Lstat (Examples.file "a.txt")))]
       /\ get_thread w' TMain = Some [Send (mkWalkerError e "root")]
       /\ jobs w' = jobs Examples.in_loop
       /\ S (wg w') = wg Examples.in_loop)
  /\ (Examples.abort_below (Examples.Join "root" "a.txt")
        (fst (Lstat (Examples.file "a.txt"))) (snd (Lstat (Examples.file "a.txt")))
      = Some SkipDir ->
      exists w',
        step 1 0 Examples.Join Examples.abort_below Examples.in_loop
          (ARun TMain None) = Some w'
        /\ crashed w' = None
        /\ calls w'
           = calls Examples.in_loop
             ++ [(Examples.Join "root" "a.txt",
                  fst (Lstat (Examples.file "a.txt")),
                  snd (Lstat (Examples.file "a.txt")))]
        /\ get_thread w' TMain
           = Some [Range ByAddJob "root" [("b.txt", Examples.file "b.txt")]]
        /\ jobs w' = jobs Examples.in_loop
        /\ wg w' = wg Examples.in_loop).
Proof.
  apply (C3_abort_and_skip_in_processPath 1 0 Examples.Join Examples.abort_below
           "root" Examples.two_files
           Examples.in_loop TMain None ByAddJob "root" "a.txt"
           (Examples.file "a.txt") [("b.txt", Examples.file "b.txt")] []).
  - apply after_reachable.
  - vm_compute. reflexivity.
  - vm_compute. reflexivity.
Defined.

(** ** The root check *)

Section RootCheck.

Variable NumWorkers : nat.
Variable BufferSize : nat.
Variable Join : string -> string -> string.
Variable walkFn : string -> option FileInfo -> err -> err.

(** The first step of every walk is the root check. *)
Lemma init_steps (root : string) (nd : node) (a : action) (w' : Walker) :
  step NumWorkers BufferSize Join walkFn (Walk_init root nd) a = Some w' ->
  w' = Walk_root NumWorkers walkFn (Walk_init root nd) root nd.
Proof.
  destruct a as [|t r|i| | |]; simpl; try discriminate.
  - intros H; injection H as <-. reflexivity.
  - destruct t as [|[|i]]; discriminate.
  - destruct i; discriminate.
Qed.

(** When the root check makes [Walk] return, nothing else ever runs. *)
Lemma root_exit_stuck (root : string) (nd : node) (e : err) (a : action) :
  main (Walk_root NumWorkers walkFn (Walk_init root nd) root nd) = Returned e ->
  step NumWorkers BufferSize Join walkFn
    (Walk_root NumWorkers walkFn (Walk_init root nd) root nd) a = None.
Proof.
  unfold Walk_root.
  destruct (Lstat nd) as [info [e0|]].
  - intros _. destruct a as [|t r|i| | |]; try reflexivity.
    + destruct t as [|[|i]]; reflexivity.
    + destruct i; reflexivity.
  - destruct (walkFn root info None) as [e1|].
    + intros _. destruct a as [|t r|i| | |]; try reflexivity.
      * destruct t as [|[|i]]; reflexivity.
      * destruct i; reflexivity.
    + destruct info as [fi|]; [|discriminate].
      destruct (IsDir fi); simpl; [discriminate|].
      intros _. destruct a as [|t r|i| | |]; try reflexivity.
      * destruct t as [|[|i]]; reflexivity.
      * destruct i; reflexivity.
Qed.

Lemma root_exit_reachable (root : string) (nd : node) (e : err) (w : Walker) :
  main (Walk_root NumWorkers walkFn (Walk_init root nd) root nd) = Returned e ->
  reachable NumWorkers BufferSize Join walkFn root nd w ->
  w = Walk_init root nd
  \/ w = Walk_root NumWorkers walkFn (Walk_init root nd) root nd.
Proof.
  intros He Hr. induction Hr as [|w1 w2 [a Ha] Hr IH]; auto.
  destruct IH as [-> | ->].
  - right. eapply init_steps; eauto.
  - rewrite (root_exit_stuck _ _ _ a He) in Ha. discriminate.
Qed.

Lemma reachable_root_check (root : string) (nd : node) :
  reachable NumWorkers BufferSize Join walkFn root nd
    (Walk_root NumWorkers walkFn (Walk_init root nd) root nd).
Proof.
  econstructor; [|constructor]. exists ARoot. reflexivity.
Qed.

(** *** What the error collector has gathered *)

Lemma collector_set_thread (w : Walker) (t : tid) (stk : thread) :
  errorList (set_thread w t stk) = errorList w
  /\ ewg_done (set_thread w t stk) = ewg_done w
  /\ errors (set_thread w t stk) = errors w
  /\ errors_closed (set_thread w t stk) = errors_closed w.
Proof. destruct t; simpl; auto. Qed.

Lemma collector_processPath_return (w : Walker) (t : tid) (k : thread)
    (c : caller) (path : string) (e : err) :
  errorList (processPath_return w t k c path e) = errorList w
  /\ ewg_done (processPath_return w t k c path e) = ewg_done w
  /\ errors (processPath_return w t k c path e) = errors w
  /\ errors_closed (processPath_return w t k c path e) = errors_closed w.
Proof.
  unfold processPath_return, wg_Done.
  destruct (wg w); simpl; auto.
  destruct (crashed w); simpl; auto.
  destruct t; simpl; auto.
Qed.

Ltac collector_fields :=
  repeat match goal with
         | |- context [set_thread ?x ?y ?z] =>
             let H1 := fresh in
             let H2 := fresh in
             let H3 := fresh in
             let H4 := fresh in
             destruct (collector_set_thread x y z) as (H1 & H2 & H3 & H4);
             rewrite ?H1, ?H2, ?H3, ?H4; clear H1 H2 H3 H4
         | |- context [processPath_return ?x ?y ?z ?u ?v ?q] =>
             let H1 := fresh in
             let H2 := fresh in
             let H3 := fresh in
             let H4 := fresh in
             destruct (collector_processPath_return x y z u v q)
               as (H1 & H2 & H3 & H4);
             rewrite ?H1, ?H2, ?H3, ?H4; clear H1 H2 H3 H4
         end.

(** A step of a context other than a send leaves the error channel and
    what has been collected as they are. *)
Lemma collector_run (w w' : Walker) (t : tid) (r : option nat) :
  run BufferSize Join walkFn w t r = Some w' ->
  (forall we k, get_thread w t <> Some (Send we :: k)) ->
  errorList w' = errorList w /\ ewg_done w' = ewg_done w
  /\ errors w' = errors w /\ errors_closed w' = errors_closed w.
Proof.
  unfold run.
  destruct (get_thread w t) as [[|[path nd|c path nd|c root names|we] k]|];
    try discriminate.
  - intros H _. unfold addJob in H.
    destruct (negb (receiver_parked w r)); try discriminate.
    destruct (jobs_closed (wg_Add w)).
    { injection H as <-. simpl. auto. }
    unfold try_send_job in H. destruct r as [i|].
    + destruct (nth_error (workers (wg_Add w)) i) as [[|? ?]|];
        [destruct (jobs (wg_Add w))| |];
        injection H as <-; collector_fields; simpl; auto.
    + destruct (List.length (jobs (wg_Add w)) <? BufferSize)%nat;
        injection H as <-; collector_fields; simpl; auto.
  - intros H _. injection H as <-. unfold processPath_enter.
    destruct (readDirNames nd) as [names [e|]]; collector_fields; auto.
  - intros H _. injection H as <-. unfold processPath_range.
    destruct names as [|[name nd] rest]; [collector_fields; auto|].
    destruct (Lstat nd) as [info e0].
    destruct (walkFn (Join root name) info e0) as [e|].
    + destruct (is_SkipDir e); collector_fields; simpl; auto.
    + destruct info as [fi|]; [destruct (IsDir fi)|];
        collector_fields; simpl; auto.
  - intros _ H. exfalso. apply (H we k). reflexivity.
Qed.

(** Once the collector is done, the error channel is closed and empty, and
    the collected errors stay as they are. *)
Lemma collector_step (w w' : Walker) (a : action) :
  step NumWorkers BufferSize Join walkFn w a = Some w' ->
  (ewg_done w = true -> errors w = [] /\ errors_closed w = true) ->
  (ewg_done w' = true -> errors w' = [] /\ errors_closed w' = true)
  /\ (ewg_done w = true ->
      errorList w' = errorList w /\ ewg_done w' = true).
Proof.
  unfold step. destruct (crashed w); [discriminate|].
  destruct a as [|t r|i| | |].
  - destruct (main w) as [root nd| | |]; try discriminate.
    intros H; injection H as <-. unfold Walk_root.
    destruct (Lstat nd) as [info [e0|]]; simpl; auto.
    destruct (walkFn root info None); simpl; auto.
    destruct info as [fi|]; simpl; auto.
    destruct (IsDir fi); simpl; auto.
  - destruct (get_thread w t) as [[|[path nd|c path nd|c root names|we] k]|] eqn:Hg.
    1-4, 6: intros H Hdone;
      destruct (collector_run w w' t r H) as (-> & -> & -> & ->);
      [rewrite Hg; intros we0 k0; discriminate | auto].
    unfold run. rewrite Hg. unfold send_error.
    destruct (errors_closed w) eqn:Hec.
    { intros H; injection H as <-. simpl. rewrite Hec. auto. }
    intros H Hdone.
    assert (Hnd : ewg_done w = false).
    { destruct (ewg_done w); auto. destruct Hdone as (_ & Hc); auto;
        try congruence. }
    split; [|intros Hd; congruence].
    destruct r as [i|].
    + destruct (errors w) eqn:He; try discriminate.
      injection H as <-. collector_fields. simpl. congruence.
    + destruct (List.length (errors w) <? BufferSize)%nat; try discriminate.
      injection H as <-. collector_fields. simpl. congruence.
  - unfold worker.
    destruct (nth_error (workers w) i) as [[|? ?]|]; try discriminate.
    destruct (jobs w) as [|[path nd] js]; try discriminate.
    intros H; injection H as <-. simpl. auto.
  - unfold collectErrors. destruct (errors w) eqn:He.
    + destruct (errors_closed w) eqn:Hec; simpl; try discriminate.
      destruct (ewg_done w); simpl; try discriminate.
      intros H; injection H as <-. simpl. rewrite He, Hec.
      split; auto; discriminate.
    + intros H Hdone. injection H as <-. simpl.
      split; intros Hd; destruct (Hdone Hd); discriminate.
  - unfold Walk_wait. destruct (main w) as [| [|? ?] | |]; try discriminate.
    destruct (wg w); try discriminate.
    intros H; injection H as <-. simpl. intros Hdone. split; auto.
    intros Hd. destruct (Hdone Hd). auto.
  - unfold Walk_return. destruct (main w); try discriminate.
    destruct (ewg_done w) eqn:Hd; try discriminate.
    intros H; injection H as <-. simpl. rewrite Hd. auto.
Qed.

Lemma collector_reachable (root : string) (nd : node) (w : Walker) :
  reachable NumWorkers BufferSize Join walkFn root nd w ->
  ewg_done w = true -> errors w = [] /\ errors_closed w = true.
Proof.
  intros Hr. induction Hr as [|w1 w2 [a Ha] Hr IH].
  - discriminate.
  - apply (collector_step _ _ _ Ha IH).
Qed.

Lemma Walk_root_not_Start (w : Walker) (root : string) (nd : node)
    (root1 : string) (nd1 : node) :
  crashed w = None ->
  main (Walk_root NumWorkers walkFn w root nd) <> Start root1 nd1
  /\ crashed (Walk_root NumWorkers walkFn w root nd) = None.
Proof.
  intros Hc. unfold Walk_root. destruct nd as [[fi|e] rd es]; cbn [Lstat].
  - destruct (walkFn root (Some fi) None); simpl; [split; [discriminate|auto]|].
    destruct (IsDir fi); simpl; split; auto; discriminate.
  - simpl. split; [discriminate|auto].
Qed.

(** The root check comes first and once. *)
Lemma start_is_init (root : string) (nd : node) (w : Walker)
    (root1 : string) (nd1 : node) :
  reachable NumWorkers BufferSize Join walkFn root nd w ->
  main w = Start root1 nd1 -> w = Walk_init root nd.
Proof.
  intros Hr. induction Hr as [|w1 w2 [a Ha] Hr IH]; auto.
  intros Hm. exfalso.
  pose proof (step_start _ _ _ _ _ _ _ _ _ Ha Hm) as Hm1.
  specialize (IH Hm1). subst w1.
  rewrite (init_steps _ _ _ _ Ha) in Hm.
  destruct (Walk_root_not_Start (Walk_init root nd) root nd root1 nd1 eq_refl)
    as (Hns & _).
  contradiction.
Qed.

(** When the root check lets the walk start, [Walk] returns through its
    last lines only: what it returns is made of the collected errors, which
    stay as they are once it has returned. *)
Lemma returned_aggregate (root : string) (nd : node) (w : Walker) (e : err) :
  (forall e0, main (Walk_root NumWorkers walkFn (Walk_init root nd) root nd)
              <> Returned e0) ->
  reachable NumWorkers BufferSize Join walkFn root nd w ->
  returned w e ->
  ewg_done w = true
  /\ e = if (0 <? List.length (errorList w))%nat
         then Some (ErrorListValue (errorList w)) else None.
Proof.
  intros Hroot Hr. revert e. induction Hr as [|w1 w2 [a Ha] Hr IH]; intros e He.
  - discriminate.
  - pose proof (collector_reachable _ _ _ Hr) as Hc1.
    destruct (collector_step _ _ _ Ha Hc1) as (_ & Hkeep).
    destruct (step_returned _ _ _ _ _ _ _ _ Ha He)
      as [H|[(r & n & Hm & ->)|(Hret & ->)]].
    + destruct (IH e H) as (Hd1 & ->).
      destruct (Hkeep Hd1) as (-> & Hd2). auto.
    + exfalso. pose proof (start_is_init _ _ _ _ _ Hr Hm) as Hw1.
      subst w1. simpl in Hm. injection Hm as <- <-.
      apply (Hroot e). exact He.
    + unfold Walk_return in Hret. destruct (main w1); try discriminate.
      destruct (ewg_done w1) eqn:Hd1; try discriminate.
      injection Hret as <-. simpl. auto.
Qed.

(** What [Walk] returns, in every walk. *)
Lemma returned_shapes (root : string) (nd : node) (w : Walker) (e : err) :
  reachable NumWorkers BufferSize Join walkFn root nd w ->
  returned w e ->
  e = None
  \/ e = Some ErrNotDir
  \/ (e <> None /\ e = snd (Lstat nd))
  \/ (e <> None /\ snd (Lstat nd) = None /\ e = walkFn root (fst (Lstat nd)) None)
  \/ (errorList w <> [] /\ e = Some (ErrorListValue (errorList w))).
Proof.
  intros Hr He.
  destruct (main (Walk_root NumWorkers walkFn (Walk_init root nd) root nd))
    as [r1 n1|stk| |e0] eqn:Hroot.
  4: { destruct (root_exit_reachable _ _ _ _ Hroot Hr) as [-> | ->];
         [discriminate|].
       unfold returned in He. rewrite Hroot in He. injection He as <-.
       clear Hr. unfold Walk_root in Hroot.
       destruct (Lstat nd) as [info [e1|]]; simpl in *.
       - injection Hroot as <-. right; right; left.
         split; [discriminate|reflexivity].
       - destruct (walkFn root info None) as [e1|]; simpl in *.
         + injection Hroot as <-. right; right; right; left.
           repeat split; auto. discriminate.
         + destruct info as [fi|]; simpl in Hroot; [|discriminate].
           destruct (IsDir fi); simpl in Hroot; [discriminate|].
           injection Hroot as <-. auto. }
  1-3: destruct (returned_aggregate root nd w e) as (_ & ->); auto;
    try (intros e0; congruence);
    destruct (errorList w) as [|we l] eqn:Hl; simpl; auto;
    right; right; right; right; split; [discriminate|reflexivity].
Qed.

End RootCheck.

Lemma root_stat_failure
    (NumWorkers BufferSize : nat) (Join : string -> string -> string)
    (walkFn : string -> option FileInfo -> err -> err)
    (root : string) (nd : node) (e0 : error) :
  Lstat nd = (None, Some e0) ->
  (exists w, reachable NumWorkers BufferSize Join walkFn root nd w
             /\ returned w (Some e0))
  /\ forall w,
       reachable NumWorkers BufferSize Join walkFn root nd w ->
       calls w = [] /\ forall e, returned w e -> e = Some e0.
Proof.
  intros Hls.
  assert (Hret : Walk_root NumWorkers walkFn (Walk_init root nd) root nd
                 = set_main (Walk_init root nd) (Returned (Some e0)))
    by (unfold Walk_root; rewrite Hls; reflexivity).
  split.
  - exists (Walk_root NumWorkers walkFn (Walk_init root nd) root nd).
    split; [apply reachable_root_check|]. rewrite Hret. reflexivity.
  - intros w Hr.
    destruct (root_exit_reachable NumWorkers BufferSize Join walkFn
                root nd (Some e0) w) as [-> | ->]; auto.
    + rewrite Hret. reflexivity.
    + split; [reflexivity|]. intros e He. discriminate.
    + rewrite Hret. split; [reflexivity|].
      intros e He. unfold returned in He. simpl in He. congruence.
Qed.

Lemma root_stat_success
    (NumWorkers BufferSize : nat) (Join : string -> string -> string)
    (walkFn : string -> option FileInfo -> err -> err)
    (root : string) (nd : node) (fi : FileInfo) (a : action) (w : Walker) :
  Lstat nd = (Some fi, None) ->
  step NumWorkers BufferSize Join walkFn (Walk_init root nd) a = Some w ->
  calls w = [(root, Some fi, None)].
Proof.
  intros Hls Ha.
  rewrite (init_steps _ _ _ _ _ _ _ _ Ha).
  unfold Walk_root. rewrite Hls.
  destruct (walkFn root (Some fi) None); [reflexivity|].
  destruct (IsDir fi); reflexivity.
Qed.

(** C4, as amended: [Walk] begins by [os.Lstat] on the root.  When that
    fails, the callback is not called for the root at all, in no state of
    the walk, and [Walk] returns the error of [os.Lstat] itself; a walk that
    has returned exists.  When it succeeds, the first step of the walk calls
    the callback with the root, its metadata and a nil error. *)
Theorem C4_root_check
    (NumWorkers BufferSize : nat) (Join : string -> string -> string)
    (walkFn : string -> option FileInfo -> err -> err)
    (root : string) (nd : node) :
  (forall e0,
     Lstat nd = (None, Some e0) ->
     (exists w, reachable NumWorkers BufferSize Join walkFn root nd w
                /\ returned w (Some e0))
     /\ forall w,
          reachable NumWorkers BufferSize Join walkFn root nd w ->
          calls w = [] /\ forall e, returned w e -> e = Some e0)
  /\ (forall fi,
        Lstat nd = (Some fi, None) ->
        forall a w,
          step NumWorkers BufferSize Join walkFn (Walk_init root nd) a = Some w ->
          calls w = [(root, Some fi, None)]).
Proof.
  split.
  - intros e0. apply root_stat_failure.
  - intros fi Hls a w. apply root_stat_success. exact Hls.
Qed.

Lemma C4_witness :
  ((exists w, reachable 4 4 Examples.Join Examples.callback "root"
                Examples.vanished w
              /\ returned w (Some (PathError "no such file or directory")))
   /\ forall w,
        reachable 4 4 Examples.Join Examples.callback "root" Examples.vanished w ->
        calls w = []
        /\ forall e, returned w e
                     -> e = Some (PathError "no such file or directory"))
  /\ (forall a w,
        step 4 4 Examples.Join Examples.callback
          (Walk_init "root" Examples.tree) a = Some w ->
        calls w = [("root", Some (mkFileInfo "root" true), None)]).
Proof.
  split.
  - apply (proj1 (C4_root_check 4 4 Examples.Join Examples.callback "root"
                    Examples.vanished)).
    reflexivity.
  - apply (proj2 (C4_root_check 4 4 Examples.Join Examples.callback "root"
                    Examples.tree)).
    reflexivity.
Defined.

(** C4, as stated, fails: when [os.Lstat] fails on the root, the callback
    is never given the root with that error; it is never called, and [Walk]
    returns the error. *)
Lemma C4_stat_failure_counterexample :
  Lstat Examples.vanished
  = (None, Some (PathError "no such file or directory"))
  /\ (exists w,
        reachable 4 4 Examples.Join Examples.callback "root" Examples.vanished w
        /\ returned w (Some (PathError "no such file or directory")))
  /\ forall w,
       reachable 4 4 Examples.Join Examples.callback "root" Examples.vanished w ->
       ~ In ("root", None, Some (PathError "no such file or directory")) (calls w).
Proof.
  split; [reflexivity|].
  destruct (root_stat_failure 4 4 Examples.Join Examples.callback "root"
              Examples.vanished (PathError "no such file or directory") eq_refl)
    as (Hex & Hall).
  split; [exact Hex|].
  intros w Hr. destruct (Hall w Hr) as (Hc & _). rewrite Hc. simpl. tauto.
Qed.

(** C5, as amended: when the callback does not return the skip sentinel
    for the root, what [Walk] returns is nil, or the not-a-directory
    sentinel, or the error of [os.Lstat] on the root, or the error the
    callback returned for the root, or a non-empty aggregate list. *)
Theorem C5_returned_error_shapes
    (NumWorkers BufferSize : nat) (Join : string -> string -> string)
    (walkFn : string -> option FileInfo -> err -> err)
    (root : string) (nd : node) (w : Walker) (e : err) :
  walkFn root (fst (Lstat nd)) None <> Some SkipDir ->
  reachable NumWorkers BufferSize Join walkFn root nd w ->
  returned w e ->
  e = None
  \/ e = Some ErrNotDir
  \/ (e <> None /\ e = snd (Lstat nd))
  \/ (e <> None /\ snd (Lstat nd) = None /\ e = walkFn root (fst (Lstat nd)) None)
  \/ (errorList w <> [] /\ e = Some (ErrorListValue (errorList w))).
Proof.
  intros _. apply returned_shapes.
Qed.

Lemma C5_witness :
  Some (ErrorListValue
          [mkWalkerError (PathError "permission denied") "root/d"]) = None
  \/ Some (ErrorListValue
             [mkWalkerError (PathError "permission denied") "root/d"])
     = Some ErrNotDir
  \/ (Some (ErrorListValue
              [mkWalkerError (PathError "permission denied") "root/d"]) <> None
      /\ Some (ErrorListValue
                 [mkWalkerError (PathError "permission denied") "root/d"])
         = snd (Lstat Examples.tree_with_locked))
  \/ (Some (ErrorListValue
              [mkWalkerError (PathError "permission denied") "root/d"]) <> None
      /\ snd (Lstat Examples.tree_with_locked) = None
      /\ Some (ErrorListValue
                 [mkWalkerError (PathError "permission denied") "root/d"])
         = Examples.callback "root" (fst (Lstat Examples.tree_with_locked)) None)
  \/ (errorList Examples.finished_with_error <> []
      /\ Some (ErrorListValue
                 [mkWalkerError (PathError "permission denied") "root/d"])
         = Some (ErrorListValue (errorList Examples.finished_with_error))).
Proof.
  apply (C5_returned_error_shapes 2 1 Examples.Join Examples.callback
           "root" Examples.tree_with_locked Examples.finished_with_error).
  - discriminate.
  - apply after_reachable.
  - vm_compute. reflexivity.
Defined.

(** C5, as stated, fails: on a root that cannot be stat'ed [Walk] returns
    the error of [os.Lstat], which is neither nil, nor the not-a-directory
    sentinel, nor an aggregate list. *)
Lemma C5_stat_error_counterexample :
  exists w e,
    reachable 4 4 Examples.Join Examples.callback "root" Examples.vanished w
    /\ returned w (Some e)
    /\ e <> ErrNotDir
    /\ forall l, e <> ErrorListValue l.
Proof.
  exists (Walk_root 4 Examples.callback (Walk_init "root" Examples.vanished)
            "root" Examples.vanished),
         (PathError "no such file or directory").
  split; [apply reachable_root_check|].
  split; [reflexivity|].
  split; [discriminate|]. intros l. discriminate.
Qed.




(** ** Where the code departs from its documentation *)

(** C2 at the root: when the callback returns the skip sentinel for the
    root, [Walk] returns the sentinel itself as its error, in every walk,
    although the loop of [processPath] treats the same answer for a child as
    success. *)
Theorem C2_root_SkipDir_is_returned :
  (exists w,
     exec 4 4 Examples.Join Examples.skip_root
       (Walk_init "root" Examples.tree) [ARoot] = Some w
     /\ returned w (Some SkipDir)
     /\ visited w = ["root"])
  /\ forall w e,
       reachable 4 4 Examples.Join Examples.skip_root "root" Examples.tree w ->
       returned w e -> e = Some SkipDir.
Proof.
  split.
  - eexists. split; [vm_compute; reflexivity|]. split; vm_compute; reflexivity.
  - intros w e Hr He.
    assert (Hm : main (Walk_root 4 Examples.skip_root
                         (Walk_init "root" Examples.tree) "root" Examples.tree)
                 = Returned (Some SkipDir)) by (vm_compute; reflexivity).
    destruct (root_exit_reachable 4 4 Examples.Join Examples.skip_root
                "root" Examples.tree (Some SkipDir) w Hm Hr) as [-> | ->].
    + discriminate.
    + unfold returned in He. rewrite Hm in He. congruence.
Qed.

(** C10: a child that cannot be stat'ed reaches the callback with nil
    metadata; when the callback returns nil, as the counting callback of the
    command-line tool does, [info.IsDir()] is called on the nil metadata and
    the process panics. *)
Theorem C10_nil_info_is_dereferenced :
  exists w,
    exec 4 4 Examples.Join Examples.callback
      (Walk_init "root" Examples.tree_with_vanished)
      [ARoot; ARun TMain None; AWorker 0;
       ARun (TWorker 0) None; ARun (TWorker 0) None] = Some w
    /\ calls w
       = [("root", Some (mkFileInfo "root" true), None);
          ("root/gone", None, Some (PathError "no such file or directory"))]
    /\ crashed w = Some NilDereference.
Proof.
  eexists. split; [vm_compute; reflexivity|]. split; vm_compute; reflexivity.
Qed.

(** C8: the errors [Walk] collects depend on the schedule.  On a tree with
    one directory that cannot be listed, a walk with the default capacity
    can return nil: the worker runs [wg.Done()] before it sends the error,
    so [Walk] closes the error channel and returns first, and the worker
    then panics on the closed channel.  A walk of the same tree with
    capacity one returns the aggregate holding the error, and another walk
    with capacity one loses it as well.  The callback is called for the same
    paths in all three. *)
Theorem C8_error_lost_after_wait :
  let early :=
    [ARoot; ARun TMain None; AWorker 0; ARun (TWorker 0) None;
     ARun (TWorker 0) None; ARun (TWorker 0) None; ARun (TWorker 0) None;
     AWorker 0; ARun (TWorker 0) None] in
  (exists w,
     exec 2 2 Examples.Join Examples.callback
       (Walk_init "root" Examples.tree_with_locked)
       (early ++ [AWait; ACollect; AReturn]) = Some w
     /\ returned w None
     /\ visited w = ["root"; "root/d"]
     /\ exists w',
          step 2 2 Examples.Join Examples.callback w (ARun (TWorker 0) None)
          = Some w'
          /\ crashed w' = Some SendOnClosedChannel)
  /\ (exists w,
        exec 2 1 Examples.Join Examples.callback
          (Walk_init "root" Examples.tree_with_locked)
          (early ++ [ARun (TWorker 0) None; AWait; ACollect; ACollect; AReturn])
        = Some w
        /\ returned w
             (Some (ErrorListValue
                      [mkWalkerError (PathError "permission denied") "root/d"]))
        /\ visited w = ["root"; "root/d"])
  /\ (exists w,
        exec 2 1 Examples.Join Examples.callback
          (Walk_init "root" Examples.tree_with_locked)
          (early ++ [AWait; ACollect; AReturn]) = Some w
        /\ returned w None
        /\ visited w = ["root"; "root/d"]).
Proof.
  split; [|split].
  - eexists. split; [vm_compute; reflexivity|]. split; [vm_compute; reflexivity|].
    split; [vm_compute; reflexivity|]. eexists. split; vm_compute; reflexivity.
  - eexists. split; [vm_compute; reflexivity|]. split; vm_compute; reflexivity.
  - eexists. split; [vm_compute; reflexivity|]. split; vm_compute; reflexivity.
Qed.

(** ** Further properties of every walk *)

(** When the callback skips the directory [sub], every walk that returns
    has brought the root, the file beside [sub] and [sub] itself to the
    callback, and nothing below [sub]. *)
Lemma skipped_subtree_is_not_visited
    (NumWorkers BufferSize : nat) (w : Walker) (e : err) :
  reachable NumWorkers BufferSize Examples.Join Examples.skip_sub "root"
    Examples.tree w ->
  returned w e ->
  Permutation (visited w) ["root"; "root/a.txt"; "root/sub"].
Proof.
  intros Hr He.
  apply (walk_visits_expected _ _ _ _ _ _ _ _ Hr He).
Qed.

(** X1: every schedule is bounded: a walk that has made the steps [l]
    has lowered the measure of its state by at least the length of [l], so
    no walk runs forever. *)
Theorem X1_every_schedule_is_bounded
    (NumWorkers BufferSize : nat) (Join : string -> string -> string)
    (walkFn : string -> option FileInfo -> err -> err) (l : list action) :
  forall w w',
    exec NumWorkers BufferSize Join walkFn w l = Some w' ->
    List.length l + measure w' <= measure w.
Proof.
  induction l as [|a l IH]; simpl; intros w w' He.
  - injection He as <-. lia.
  - destruct (step NumWorkers BufferSize Join walkFn w a) as [w1|] eqn:Ha;
      try discriminate.
    pose proof (step_measure _ _ _ _ _ _ _ Ha).
    specialize (IH _ _ He). lia.
Qed.

Lemma X1_witness :
  List.length Examples.pool_schedule + measure Examples.finished_pool
  <= measure (Walk_init "root" Examples.small_tree).
Proof.
  apply (X1_every_schedule_is_bounded 1 1 Examples.Join Examples.callback
           Examples.pool_schedule (Walk_init "root" Examples.small_tree)
           Examples.finished_pool).
  vm_compute. reflexivity.
Defined.

(** X2: with at least one worker, or a job queue without buffer, a walk
    never deadlocks: from every state it can run on until [Walk] has
    returned or the process has panicked. *)
Theorem X2_walk_returns_or_panics
    (NumWorkers BufferSize : nat) (Join : string -> string -> string)
    (walkFn : string -> option FileInfo -> err -> err)
    (root : string) (nd : node) (w : Walker) :
  1 <= NumWorkers \/ BufferSize = 0 ->
  reachable NumWorkers BufferSize Join walkFn root nd w ->
  exists w',
    clos_refl_trans_1n Walker
      (steps_to NumWorkers BufferSize Join walkFn) w w'
    /\ reachable NumWorkers BufferSize Join walkFn root nd w'
    /\ (crashed w' <> None \/ exists e, returned w' e).
Proof.
  intros Hcfg Hr.
  destruct (walk_ends_within NumWorkers BufferSize Join walkFn root nd
              (measure w) Hcfg w (le_n _) Hr) as (w' & Hrun & Hend).
  exists w'. repeat split; auto. eapply reachable_trans; eauto.
Qed.

Lemma X2_witness :
  exists w',
    clos_refl_trans_1n Walker
      (steps_to 2 1 Examples.Join Examples.callback)
      (Walk_init "root" Examples.tree_with_locked) w'
    /\ reachable 2 1 Examples.Join Examples.callback "root"
         Examples.tree_with_locked w'
    /\ (crashed w' <> None \/ exists e, returned w' e).
Proof.
  apply (X2_walk_returns_or_panics 2 1 Examples.Join Examples.callback
           "root" Examples.tree_with_locked).
  - left. lia.
  - constructor.
Defined.

(** X3: the paths brought to the callback do not depend on the schedule,
    the number of workers or the capacity of the queue: two walks of the
    same tree with the same callback that have both returned have called the
    callback for the same paths, each as often, whatever failed. *)
Theorem X3_visits_do_not_depend_on_the_schedule
    (N1 B1 N2 B2 : nat) (Join : string -> string -> string)
    (walkFn : string -> option FileInfo -> err -> err)
    (root : string) (nd : node) (w1 w2 : Walker) (e1 e2 : err) :
  reachable N1 B1 Join walkFn root nd w1 -> returned w1 e1 ->
  reachable N2 B2 Join walkFn root nd w2 -> returned w2 e2 ->
  Permutation (visited w1) (visited w2).
Proof.
  intros Hr1 He1 Hr2 He2.
  transitivity (expected Join walkFn root nd).
  - eapply walk_visits_expected; eauto.
  - symmetry. eapply walk_visits_expected; eauto.
Qed.

Lemma X3_witness :
  Permutation (visited Examples.finished_pool) (visited Examples.finished_inline).
Proof.
  apply (X3_visits_do_not_depend_on_the_schedule 1 1 0 0 Examples.Join
           Examples.callback "root" Examples.small_tree
           Examples.finished_pool Examples.finished_inline None None).
  - apply after_reachable.
  - vm_compute. reflexivity.
  - apply after_reachable.
  - vm_compute. reflexivity.
Defined.

(** X4: as long as the process has not panicked, the counter of [wg] is
    the number of activations of [processPath] that have not run
    [wg.Done()] plus the number of queued jobs, and a channel is closed only
    when that number is zero. *)
Theorem X4_wg_counts_outstanding_work
    (NumWorkers BufferSize : nat) (Join : string -> string -> string)
    (walkFn : string -> option FileInfo -> err -> err)
    (root : string) (nd : node) (w : Walker) :
  reachable NumWorkers BufferSize Join walkFn root nd w ->
  crashed w = None ->
  wg w = outstanding w
  /\ (jobs_closed w = true \/ errors_closed w = true -> wg w = 0).
Proof.
  intros Hr Hc.
  destruct (walk_inv_reachable _ _ _ _ _ _ _ Hr Hc) as (Hp & Hw & _ & Hwg & _).
  split; [exact Hwg|]. intros Hclosed. rewrite Hwg.
  unfold phase_inv in Hp. unfold outstanding, total.
  destruct (main w) as [root1 nd1|stk| |e].
  - destruct Hp as (_ & _ & Hjc & Hec). destruct Hclosed; congruence.
  - destruct Hp as (_ & Hjc & Hec & _). destruct Hclosed; congruence.
  - destruct Hp as (_ & Hd & Hj).
    rewrite Hj, total_thread_drained; auto.
  - destruct Hp as (Hd & Hj).
    rewrite Hj, total_thread_drained; auto.
Qed.

Lemma X4_witness :
  wg Examples.at_addJob = outstanding Examples.at_addJob
  /\ (jobs_closed Examples.at_addJob = true
      \/ errors_closed Examples.at_addJob = true ->
      wg Examples.at_addJob = 0).
Proof.
  apply (X4_wg_counts_outstanding_work 1 1 Examples.Join Examples.callback
           "root" Examples.two_dirs Examples.at_addJob).
  - apply after_reachable.
  - vm_compute. reflexivity.
Defined.

(** * The walk, one transition at a time *)

Import Steps Outcome Traversaltime.

(** ** The steps of a walk, by cases *)

Section StepCases.

Variable NumWorkers : nat.
Variable BufferSize : nat.
Variable Join : string -> string -> string.
Variable walkFn : string -> option FileInfo -> err -> err.
Variable root0 : string.
Variable nd0 : node.

Lemma Lstat_shape (nd : node) (info : option FileInfo) (e0 : err) :
  Lstat nd = (info, e0) ->
  (exists fi, info = Some fi /\ e0 = None)
  \/ (exists e, info = None /\ e0 = Some e).
Proof.
  destruct nd as [[fi|e] rd es]; simpl; intros H; injection H as <- <-; eauto.
Qed.

(** [processPath] returns while the counter of [wg] is positive. *)
Lemma processPath_return_resume (w : Walker) (t : tid) (top : task) (k : thread)
    (c : caller) (path : string) (e : err) :
  crashed w = None ->
  walk_inv NumWorkers BufferSize Join walkFn root0 nd0 w ->
  get_thread w t = Some (top :: k) ->
  counts top = 1 ->
  exists n,
    wg w = S n
    /\ processPath_return w t k c path e
       = set_thread (set_wg w n) t
           (match e with
            | Some e' => Send (mkWalkerError e' path) :: k
            | None => k
            end).
Proof.
  intros Hc Hinv Hg Htop.
  destruct Hinv as (_ & _ & _ & Hwg & _).
  pose proof (outstanding_thread _ _ _ Hg) as Hpos.
  rewrite total_thread_cons, Htop in Hpos.
  destruct (wg w) as [|n] eqn:Hn; [lia|].
  exists n. split; [reflexivity|].
  unfold processPath_return, wg_Done. rewrite Hn.
  change (crashed (set_wg w n)) with (crashed w). rewrite Hc.
  destruct c, e; reflexivity.
Qed.

(** Every step of a walk is one of the transitions. *)
Lemma step_transition (w w' : Walker) (a : action) :
  walk_inv NumWorkers BufferSize Join walkFn root0 nd0 w ->
  step NumWorkers BufferSize Join walkFn w a = Some w' ->
  transition NumWorkers BufferSize Join walkFn w w'.
Proof.
  intros Hinv. unfold step. destruct (crashed w) eqn:Hc; [discriminate|].
  destruct a as [|t r|i| | |].
  - destruct (main w) as [root nd| | |] eqn:Hm; try discriminate.
    intros H; injection H as <-. unfold Walk_root.
    destruct nd as [[fi|e] rd es]; cbn [Lstat].
    + destruct (walkFn root (Some fi) None) as [e1|] eqn:Hcb.
      * eapply T_root_callback; eauto; try reflexivity.
      * destruct (IsDir fi) eqn:Hd; simpl negb; cbv iota.
        -- eapply T_root_start; eauto; try reflexivity.
        -- eapply T_root_not_dir; eauto; try reflexivity.
    + eapply T_root_stat; eauto; try reflexivity.
  - unfold run.
    destruct (get_thread w t)
      as [[|[path nd|c path nd|c root names|we] k]|] eqn:Hg; try discriminate.
    + destruct Hinv as (Hp & _).
      destruct (busy_running _ Join walkFn root0 _ _ _ Hp Hg eq_refl)
        as (stk0 & _ & _ & Hjc & _).
      unfold addJob.
      destruct (receiver_parked w r) eqn:Hpk; simpl; [|discriminate].
      rewrite Hjc. unfold try_send_job. destruct r as [i|].
      * simpl workers; simpl jobs. simpl in Hpk.
        destruct (nth_error (workers w) i) as [[|? ?]|] eqn:Hi;
          try discriminate.
        destruct (jobs w) eqn:Hjs; try discriminate.
        intros H; injection H as <-. eapply T_handoff; eauto.
      * simpl jobs.
        destruct (List.length (jobs w) <? BufferSize)%nat eqn:Hroom;
          intros H; injection H as <-.
        -- apply Nat.ltb_lt in Hroom. eapply T_enqueue; eauto.
        -- apply Nat.ltb_ge in Hroom. eapply T_inline; eauto.
    + intros H; injection H as <-. unfold processPath_enter.
      destruct (readDirNames nd) as [names [e|]] eqn:Hrd.
      * destruct (processPath_return_resume w t _ k c path (Some e) Hc Hinv Hg
                    eq_refl) as (n & Hn & ->).
        eapply T_list_fail; eauto; rewrite Hrd; reflexivity.
      * eapply T_list; eauto.
    + intros H; injection H as <-. unfold processPath_range.
      destruct names as [|[name nd] rest].
      * destruct (processPath_return_resume w t _ k c root None Hc Hinv Hg
                    eq_refl) as (n & Hn & ->).
        eapply T_loop_end; eauto.
      * destruct (Lstat nd) as [info e0] eqn:HL.
        destruct (walkFn (Join root name) info e0) as [e|] eqn:Hcb.
        -- destruct (is_SkipDir e) eqn:Hs.
           ++ eapply T_skip; eauto.
           ++ set (w1 := add_call w (Join root name, info, e0)).
              destruct (processPath_return_resume w t _ k c root (Some e)
                          Hc Hinv Hg eq_refl) as (n & Hn & _).
              assert (Heq1 : processPath_return w1 t k c root (Some e)
                             = set_thread (set_wg w1 n) t
                                 (Send (mkWalkerError e root) :: k)).
              { unfold processPath_return, wg_Done.
                change (wg w1) with (wg w). rewrite Hn.
                change (crashed (set_wg w1 n)) with (crashed w). rewrite Hc.
                destruct c; reflexivity. }
              rewrite Heq1. eapply T_abort; eauto.
        -- destruct info as [fi|].
           ++ destruct (IsDir fi) eqn:Hd.
              ** eapply T_descend; eauto.
              ** eapply T_pass; eauto.
           ++ eapply T_nil_info; eauto.
    + unfold send_error. destruct (errors_closed w) eqn:Hec.
      { intros H; injection H as <-. eapply T_send_closed; eauto. }
      destruct r as [i|].
      * destruct (errors w) eqn:He; try discriminate.
        intros H; injection H as <-. eapply T_send_direct; eauto.
      * destruct (List.length (errors w) <? BufferSize)%nat eqn:Hroom;
          try discriminate.
        intros H; injection H as <-. apply Nat.ltb_lt in Hroom.
        eapply T_send_buffer; eauto.
  - unfold worker.
    destruct (nth_error (workers w) i) as [[|? ?]|] eqn:Hi; try discriminate.
    destruct (jobs w) as [|[path nd] js] eqn:Hj; try discriminate.
    intros H; injection H as <-. eapply T_receive; eauto.
  - unfold collectErrors. destruct (errors w) as [|we es] eqn:He.
    + destruct (errors_closed w) eqn:Hec; simpl; try discriminate.
      destruct (ewg_done w) eqn:Hd; simpl; try discriminate.
      intros H; injection H as <-. eapply T_collector_exit; eauto.
    + intros H; injection H as <-. eapply T_collect; eauto.
  - unfold Walk_wait. destruct (main w) as [| [|? ?] | |] eqn:Hm; try discriminate.
    destruct (wg w) eqn:Hn; try discriminate.
    intros H; injection H as <-. eapply T_wait; eauto.
  - unfold Walk_return. destruct (main w) eqn:Hm; try discriminate.
    destruct (ewg_done w) eqn:Hd; try discriminate.
    intros H; injection H as <-. eapply T_return; eauto.
Qed.

End StepCases.

Section Panics.

Variable NumWorkers : nat.
Variable BufferSize : nat.
Variable Join : string -> string -> string.
Variable walkFn : string -> option FileInfo -> err -> err.
Variable root0 : string.
Variable nd0 : node.

(** Induction over the states of a walk, one transition at a time. *)
Lemma reachable_transition_ind (P : Walker -> Prop) :
  P (Walk_init root0 nd0) ->
  (forall w w',
     reachable NumWorkers BufferSize Join walkFn root0 nd0 w ->
     crashed w = None ->
     P w ->
     transition NumWorkers BufferSize Join walkFn w w' ->
     P w') ->
  forall w, reachable NumWorkers BufferSize Join walkFn root0 nd0 w -> P w.
Proof.
  intros Hinit Hstep w Hr. induction Hr as [|w1 w2 [a Ha] Hr IH]; auto.
  pose proof (step_not_crashed _ _ _ _ _ _ _ Ha) as Hc.
  apply (Hstep w1 w2 Hr Hc IH).
  apply (step_transition NumWorkers BufferSize Join walkFn root0 nd0 w1 w2 a);
    [apply walk_inv_reachable; assumption | exact Ha].
Qed.

Lemma crashed_set_thread (w : Walker) (t : tid) (stk : thread) :
  crashed (set_thread w t stk) = crashed w.
Proof. destruct t; reflexivity. Qed.

(** A sender that finds [w.errors] closed is a worker with nothing left
    but that send. *)
Lemma late_sender (w : Walker) (t : tid) (we : WalkerError) (k : thread) :
  walk_inv NumWorkers BufferSize Join walkFn root0 nd0 w ->
  get_thread w t = Some (Send we :: k) ->
  errors_closed w = true ->
  k = [] /\ exists i, t = TWorker i.
Proof.
  intros (Hp & _) Hg Hec.
  destruct (drained (Send we :: k)) eqn:Hd.
  - destruct k; [|discriminate]. split; auto.
    destruct t as [|i]; eauto. exfalso.
    simpl in Hg. unfold phase_inv in Hp.
    destruct (main w); try discriminate.
    destruct Hp as (_ & _ & Hopen & _). congruence.
  - exfalso.
    destruct (busy_running _ Join walkFn root0 _ _ _ Hp Hg Hd)
      as (stk0 & _ & _ & _ & Hopen & _).
    congruence.
Qed.

(** What a panicked walk looks like. *)
Lemma panic_cause (w : Walker) (p : panic) :
  reachable NumWorkers BufferSize Join walkFn root0 nd0 w ->
  crashed w = Some p ->
  (p = NilDereference
   /\ exists l path e,
        calls w = l ++ [(path, None, Some e)]
        /\ walkFn path None (Some e) = None)
  \/ (p = SendOnClosedChannel
      /\ errors_closed w = true
      /\ exists i we, nth_error (workers w) i = Some [Send we]).
Proof.
  intros Hr. revert p. pattern w. revert w Hr.
  apply reachable_transition_ind; [discriminate|].
  intros w w' Hr Hc _ Htr p.
  pose proof (walk_inv_reachable _ _ _ _ _ _ _ Hr Hc) as Hinv.
  destruct Htr; rewrite ?crashed_set_thread; simpl; rewrite ?Hc;
    try discriminate.
  - intros Hp; injection Hp as <-. left. split; auto.
    match goal with
    | HL : Lstat _ = (None, _) |- _ =>
        destruct (Lstat_shape _ _ _ HL) as [(fi & Hfi & _)|(e & _ & ->)];
          [discriminate|]
    end.
    exists (calls w), (Join root name), e. auto.
  - intros Hp; injection Hp as <-. right. split; auto. split; auto.
    match goal with
    | Hg : get_thread _ _ = Some (Send _ :: _), Hec : errors_closed _ = true
      |- _ =>
        destruct (late_sender _ _ _ _ Hinv Hg Hec) as (-> & i & ->);
          exists i, we; exact Hg
    end.
Qed.

End Panics.

(** One name for each thing a transition has read. *)
Ltac transition_cases Htr :=
  destruct Htr as
    [ root nd e Hm HL
    | root nd fi e Hm HL Hcb
    | root nd fi Hm HL Hcb Hd
    | root nd fi Hm HL Hcb Hd
    | t k path nd i Hg Hjc Hi Hj
    | t k path nd Hg Hjc Hroom
    | t k path nd Hg Hjc Hfull
    | t k c path nd e n Hg Hrd Hn
    | t k c path nd es Hg Hrd
    | t k c root n Hg Hn
    | t k c root name nd rest info e0 e Hg HL Hcb Hs
    | t k c root name nd rest info e0 e n Hg HL Hcb Hs Hn
    | t k c root name nd rest fi e0 Hg HL Hcb Hd
    | t k c root name nd rest fi e0 Hg HL Hcb Hd
    | t k c root name nd rest e0 Hg HL Hcb
    | t k we Hg Hec He
    | t k we Hg Hec Hroom
    | t k we Hg Hec
    | i path nd js Hi Hj
    | we es He
    | He Hec Hdone
    | Hm Hn
    | Hm Hdone ].

(** Conversely, every transition is a step. *)
Lemma transition_step (NumWorkers BufferSize : nat)
    (Join : string -> string -> string)
    (walkFn : string -> option FileInfo -> err -> err) (w w' : Walker) :
  crashed w = None ->
  transition NumWorkers BufferSize Join walkFn w w' ->
  exists a, step NumWorkers BufferSize Join walkFn w a = Some w'.
Proof.
  intros Hc Htr.
  assert (Hret : forall t k c path r n,
            wg w = S n ->
            processPath_return w t k c path r
            = set_thread (set_wg w n) t
                (match r with
                 | Some e' => Send (mkWalkerError e' path) :: k
                 | None => k
                 end)).
  { intros t k c path r n Hn. unfold processPath_return, wg_Done.
    rewrite Hn. change (crashed (set_wg w n)) with (crashed w). rewrite Hc.
    destruct c, r; reflexivity. }
  transition_cases Htr.
  - exists ARoot. unfold step. rewrite Hc, Hm. unfold Walk_root.
    rewrite HL. reflexivity.
  - exists ARoot. unfold step. rewrite Hc, Hm. unfold Walk_root.
    rewrite HL, Hcb. reflexivity.
  - exists ARoot. unfold step. rewrite Hc, Hm. unfold Walk_root.
    rewrite HL, Hcb, Hd. reflexivity.
  - exists ARoot. unfold step. rewrite Hc, Hm. unfold Walk_root.
    rewrite HL, Hcb, Hd. reflexivity.
  - exists (ARun t (Some i)). unfold step, run. rewrite Hc, Hg.
    unfold addJob, receiver_parked, try_send_job. simpl.
    rewrite Hi, Hj, Hjc. reflexivity.
  - exists (ARun t None). unfold step, run. rewrite Hc, Hg.
    unfold addJob, receiver_parked, try_send_job. simpl.
    rewrite Hjc. apply Nat.ltb_lt in Hroom. rewrite Hroom. reflexivity.
  - exists (ARun t None). unfold step, run. rewrite Hc, Hg.
    unfold addJob, receiver_parked, try_send_job. simpl.
    rewrite Hjc. apply Nat.ltb_ge in Hfull. rewrite Hfull. reflexivity.
  - exists (ARun t None). unfold step, run. rewrite Hc, Hg.
    unfold processPath_enter.
    destruct (readDirNames nd) as [names [e1|]]; simpl in Hrd;
      [|discriminate].
    injection Hrd as ->. rewrite (Hret _ _ _ _ _ _ Hn). reflexivity.
  - exists (ARun t None). unfold step, run. rewrite Hc, Hg.
    unfold processPath_enter. rewrite Hrd. reflexivity.
  - exists (ARun t None). unfold step, run. rewrite Hc, Hg.
    unfold processPath_range. rewrite (Hret _ _ _ _ _ _ Hn). reflexivity.
  - exists (ARun t None). unfold step, run. rewrite Hc, Hg.
    unfold processPath_range. rewrite HL, Hcb, Hs. reflexivity.
  - exists (ARun t None). unfold step, run. rewrite Hc, Hg.
    unfold processPath_range. rewrite HL, Hcb, Hs.
    unfold processPath_return, wg_Done. simpl wg. rewrite Hn.
    simpl crashed. rewrite Hc. destruct c; reflexivity.
  - exists (ARun t None). unfold step, run. rewrite Hc, Hg.
    unfold processPath_range. rewrite HL, Hcb, Hd. reflexivity.
  - exists (ARun t None). unfold step, run. rewrite Hc, Hg.
    unfold processPath_range. rewrite HL, Hcb, Hd. reflexivity.
  - exists (ARun t None). unfold step, run. rewrite Hc, Hg.
    unfold processPath_range. rewrite HL, Hcb. reflexivity.
  - exists (ARun t (Some 0)). unfold step, run. rewrite Hc, Hg.
    unfold send_error. rewrite Hec, He. reflexivity.
  - exists (ARun t None). unfold step, run. rewrite Hc, Hg.
    unfold send_error. rewrite Hec.
    apply Nat.ltb_lt in Hroom. rewrite Hroom. reflexivity.
  - exists (ARun t None). unfold step, run. rewrite Hc, Hg.
    unfold send_error. rewrite Hec. reflexivity.
  - exists (AWorker i). unfold step, worker. rewrite Hc, Hi, Hj. reflexivity.
  - exists ACollect. unfold step, collectErrors. rewrite Hc, He. reflexivity.
  - exists ACollect. unfold step, collectErrors.
    rewrite Hc, He, Hec, Hdone. reflexivity.
  - exists AWait. unfold step, Walk_wait. rewrite Hc, Hm, Hn. reflexivity.
  - exists AReturn. unfold step, Walk_return. rewrite Hc, Hm, Hdone.
    reflexivity.
Qed.

(** ** Nothing is lost between the tasks and the log *)

Section Balance.

Variable NumWorkers : nat.
Variable BufferSize : nat.
Variable Join : string -> string -> string.
Variable walkFn : string -> option FileInfo -> err -> err.
Variable root0 : string.
Variable nd0 : node.
Variable v : event -> nat.

Lemma worth_cons (ev : event) (l : list event) :
  worth v (ev :: l) = v ev + worth v l.
Proof. reflexivity. Qed.

Lemma worth_app (l1 l2 : list event) :
  worth v (l1 ++ l2) = worth v l1 + worth v l2.
Proof. unfold worth. rewrite map_app, list_sum_app. reflexivity. Qed.

Lemma worth_snoc (A : Type) (f : A -> event) (l : list A) (x : A) :
  worth v (map f (l ++ [x])) = worth v (map f l) + v (f x).
Proof. rewrite map_app, worth_app. unfold worth. simpl. lia. Qed.

Lemma dir_events_unfold (path : string) (nd : node) :
  dir_events Join walkFn path nd
  = match readDirNames nd with
    | (_, Some e) => [Reported (mkWalkerError e path)]
    | (es, None) => loop_events Join walkFn (dir_events Join walkFn) path es
    end.
Proof. destruct nd as [st [e|] es]; reflexivity. Qed.

Lemma loop_events_cons (root name : string) (nd : node)
    (rest : list (string * node)) :
  loop_events Join walkFn (dir_events Join walkFn) root ((name, nd) :: rest)
  = Called (Join root name, fst (Lstat nd), snd (Lstat nd)) ::
    match walkFn (Join root name) (fst (Lstat nd)) (snd (Lstat nd)) with
    | None =>
        match fst (Lstat nd) with
        | None => []
        | Some fi =>
            (if IsDir fi then dir_events Join walkFn (Join root name) nd
             else [])
            ++ loop_events Join walkFn (dir_events Join walkFn) root rest
        end
    | Some e =>
        if is_SkipDir e
        then loop_events Join walkFn (dir_events Join walkFn) root rest
        else [Reported (mkWalkerError e root)]
    end.
Proof. reflexivity. Qed.

Lemma held_set_thread (w : Walker) (t : tid) (old stk : thread) :
  get_thread w t = Some old ->
  held Join walkFn v (set_thread w t stk)
  + total_thread (held_task Join walkFn v) old
  = held Join walkFn v w + total_thread (held_task Join walkFn v) stk.
Proof.
  intros Hg. unfold held.
  pose proof (total_set_thread (held_task Join walkFn v)
                (held_job Join walkFn v) w t old stk Hg) as H.
  destruct t as [|i]; simpl in *.
  - destruct (main w); try discriminate. lia.
  - lia.
Qed.

Lemma brought_set_thread (w : Walker) (t : tid) (stk : thread) :
  brought v (set_thread w t stk) = brought v w.
Proof. destruct t; reflexivity. Qed.

(** A context moves from the stack [old] to the stack [stk], in a state
    [w1] that differs from [w] in what has been brought about and in
    what the other contexts and the queue hold. *)
Lemma balance_set_thread (w w1 : Walker) (t : tid) (old stk : thread) :
  get_thread w1 t = Some old ->
  brought v w1 + held Join walkFn v w1
  + total_thread (held_task Join walkFn v) stk
  = brought v w + held Join walkFn v w
    + total_thread (held_task Join walkFn v) old ->
  brought v (set_thread w1 t stk) + held Join walkFn v (set_thread w1 t stk)
  = brought v w + held Join walkFn v w.
Proof.
  intros Hg H. rewrite brought_set_thread.
  pose proof (held_set_thread w1 t old stk Hg). lia.
Qed.

Lemma held_handoff (w : Walker) (i : nat) (path : string) (nd : node) :
  nth_error (workers w) i = Some [] ->
  held Join walkFn v
    (set_workers w (replace_nth i [ProcessPath ByWorker path nd] (workers w)))
  = held Join walkFn v w + worth v (dir_events Join walkFn path nd).
Proof.
  intros Hi. unfold held, total. simpl.
  pose proof (list_sum_replace_nth (total_thread (held_task Join walkFn v)) i
                [ProcessPath ByWorker path nd] [] _ Hi) as H.
  change (total_thread (held_task Join walkFn v) []) with 0 in H.
  change (total_thread (held_task Join walkFn v) [ProcessPath ByWorker path nd])
    with (worth v (dir_events Join walkFn path nd) + 0) in H.
  unfold thread in *. lia.
Qed.

Ltac weigh :=
  repeat progress (unfold worth, total_thread, held_job, brought; simpl);
  rewrite ?map_app, ?list_sum_app; simpl;
  unfold thread in *; lia.

(** Every step that does not end in the nil dereference leaves the sum of
    what has been brought about and what is held as it is. *)
Lemma transition_balance (w w' : Walker) :
  walk_inv NumWorkers BufferSize Join walkFn root0 nd0 w ->
  transition NumWorkers BufferSize Join walkFn w w' ->
  crashed w' <> Some NilDereference ->
  brought v w' + held Join walkFn v w'
  = brought v w + held Join walkFn v w.
Proof.
  intros Hinv Htr Hnil.
  assert (Hstart : forall root nd, main w = Start root nd ->
                                   workers w = [] /\ jobs w = []).
  { intros root nd Hm. destruct Hinv as (Hp & _). unfold phase_inv in Hp.
    rewrite Hm in Hp. tauto. }
  transition_cases Htr.
  - unfold held, total, walk_events. simpl. rewrite Hm, HL. weigh.
  - unfold held, total, walk_events. simpl. rewrite Hm, HL, Hcb. weigh.
  - unfold held, total, walk_events. simpl. rewrite Hm, HL, Hcb, Hd. weigh.
  - destruct (Hstart _ _ Hm) as (Hws & Hj).
    unfold held, total, walk_events. simpl.
    rewrite Hm, HL, Hcb, Hd, Hws, Hj, total_thread_repeat_nil. weigh.
  - apply (balance_set_thread w _ t (AddJob path nd :: k)).
    + exact (get_thread_handoff (wg_Add w) t i _ _ _ Hg Hi).
    + pose proof (held_handoff (wg_Add w) i path nd Hi) as Hh.
      change (workers (wg_Add w)) with (workers w) in Hh. rewrite Hh.
      change (held Join walkFn v (wg_Add w)) with (held Join walkFn v w).
      rewrite total_thread_cons. weigh.
  - apply (balance_set_thread w _ t (AddJob path nd :: k)).
    + destruct t; exact Hg.
    + rewrite total_thread_cons. unfold held, total. simpl. weigh.
  - apply (balance_set_thread w _ t (AddJob path nd :: k)).
    + destruct t; exact Hg.
    + rewrite !total_thread_cons.
      change (held Join walkFn v (wg_Add w)) with (held Join walkFn v w).
      weigh.
  - apply (balance_set_thread w _ t (ProcessPath c path nd :: k)).
    + destruct t; exact Hg.
    + rewrite !total_thread_cons.
      change (held Join walkFn v (set_wg w n)) with (held Join walkFn v w).
      cbn [held_task]. rewrite (dir_events_unfold path nd).
      destruct (readDirNames nd) as [names [e1|]]; simpl in Hrd;
        [|discriminate].
      injection Hrd as ->. weigh.
  - apply (balance_set_thread w _ t (ProcessPath c path nd :: k)); auto.
    rewrite !total_thread_cons. cbn [held_task].
    rewrite (dir_events_unfold path nd), Hrd. weigh.
  - apply (balance_set_thread w _ t (Range c root [] :: k)).
    + destruct t; exact Hg.
    + rewrite !total_thread_cons.
      change (held Join walkFn v (set_wg w n)) with (held Join walkFn v w).
      weigh.
  - apply (balance_set_thread w _ t (Range c root ((name, nd) :: rest) :: k)).
    + destruct t; exact Hg.
    + rewrite !total_thread_cons. cbn [held_task].
      rewrite loop_events_cons, HL. cbn [fst snd]. rewrite Hcb, Hs.
      change (held Join walkFn v (add_call w (Join root name, info, e0)))
        with (held Join walkFn v w).
      weigh.
  - apply (balance_set_thread w _ t (Range c root ((name, nd) :: rest) :: k)).
    + destruct t; exact Hg.
    + rewrite !total_thread_cons. cbn [held_task].
      rewrite loop_events_cons, HL. cbn [fst snd]. rewrite Hcb, Hs.
      change (held Join walkFn v
                (set_wg (add_call w (Join root name, info, e0)) n))
        with (held Join walkFn v w).
      weigh.
  - apply (balance_set_thread w _ t (Range c root ((name, nd) :: rest) :: k)).
    + destruct t; exact Hg.
    + rewrite !total_thread_cons. cbn [held_task].
      rewrite loop_events_cons, HL. cbn [fst snd]. rewrite Hcb, Hd.
      change (held Join walkFn v (add_call w (Join root name, Some fi, e0)))
        with (held Join walkFn v w).
      weigh.
  - apply (balance_set_thread w _ t (Range c root ((name, nd) :: rest) :: k)).
    + destruct t; exact Hg.
    + rewrite !total_thread_cons. cbn [held_task].
      rewrite loop_events_cons, HL. cbn [fst snd]. rewrite Hcb, Hd.
      change (held Join walkFn v (add_call w (Join root name, Some fi, e0)))
        with (held Join walkFn v w).
      weigh.
  - exfalso. apply Hnil. reflexivity.
  - apply (balance_set_thread w _ t (Send we :: k)).
    + destruct t; exact Hg.
    + rewrite !total_thread_cons. cbn [held_task].
      change (held Join walkFn v (set_errorList w (errorList w ++ [we])))
        with (held Join walkFn v w).
      weigh.
  - apply (balance_set_thread w _ t (Send we :: k)).
    + destruct t; exact Hg.
    + rewrite !total_thread_cons. cbn [held_task].
      change (held Join walkFn v (set_errors w (errors w ++ [we])))
        with (held Join walkFn v w).
      weigh.
  - reflexivity.
  - pose proof (held_handoff (set_jobs w js) i path nd Hi) as Hh.
    change (workers (set_jobs w js)) with (workers w) in Hh. rewrite Hh.
    unfold held, total. simpl. rewrite Hj. weigh.
  - unfold held, total, brought. simpl. rewrite He. weigh.
  - reflexivity.
  - unfold held, total. simpl. rewrite Hm. weigh.
  - unfold held, total. simpl. rewrite Hm. weigh.
Qed.

End Balance.

(** ** Errors are collected or still to be sent *)

Section Conservation.

Variable NumWorkers : nat.
Variable BufferSize : nat.
Variable Join : string -> string -> string.
Variable walkFn : string -> option FileInfo -> err -> err.
Variable root0 : string.
Variable nd0 : node.

(** Whatever the way to weigh events: what a walk has brought about and
    what it holds weigh what the walk is to bring about. *)
Lemma balance_reachable (v : event -> nat) (w : Walker) :
  reachable NumWorkers BufferSize Join walkFn root0 nd0 w ->
  crashed w <> Some NilDereference ->
  brought v w + held Join walkFn v w
  = worth v (walk_events Join walkFn root0 nd0).
Proof.
  intros Hr. pattern w. revert w Hr.
  apply reachable_transition_ind.
  - intros _. unfold brought, held, total. simpl. unfold worth. simpl. lia.
  - intros w w' Hr Hc IH Htr Hnil.
    rewrite (transition_balance NumWorkers BufferSize Join walkFn root0 nd0
               v w w'); auto.
    + apply IH. congruence.
    + apply walk_inv_reachable; auto.
Qed.

Lemma worth_count_reports (x : WalkerError) (l : list WalkerError) :
  worth (count_report x) (map Reported l) = count_occ WalkerError_eq_dec l x.
Proof.
  unfold worth. induction l as [|we l IH]; simpl; auto.
  rewrite IH. destruct (WalkerError_eq_dec we x); reflexivity.
Qed.

Lemma worth_count_calls (x : WalkerError) (l : list call) :
  worth (count_report x) (map Called l) = 0.
Proof. unfold worth. induction l as [|c l IH]; simpl; auto. Qed.

Lemma worth_count_events (x : WalkerError) (l : list event) :
  worth (count_report x) l = count_occ WalkerError_eq_dec (reports_of l) x.
Proof.
  unfold worth. induction l as [|[c|we] l IH]; simpl; auto.
  rewrite IH. destruct (WalkerError_eq_dec we x); reflexivity.
Qed.

(** What drained workers hold is what they have yet to send. *)
Lemma held_drained (v : event -> nat) (ws : list thread) :
  forallb drained ws = true ->
  list_sum (map (total_thread (held_task Join walkFn v)) ws)
  = worth v (map Reported (flat_map (flat_map unsent_task) ws)).
Proof.
  induction ws as [|stk ws IH]; simpl; auto.
  rewrite andb_true_iff. intros [Hd Hws].
  rewrite IH by exact Hws. rewrite map_app, (worth_app v).
  destruct stk as [|[| | |we] [|? ?]]; try discriminate; reflexivity.
Qed.

Lemma errors_Walk_root (w : Walker) (root : string) (nd : node) :
  errors (Walk_root NumWorkers walkFn w root nd) = errors w.
Proof.
  unfold Walk_root. destruct (Lstat nd) as [info [e0|]]; simpl; auto.
  destruct (walkFn root info None); simpl; auto.
  destruct info as [fi|]; simpl; auto.
  destruct (IsDir fi); reflexivity.
Qed.

(** When [Walk] has returned, the buffer of [w.errors] is empty. *)
Lemma returned_buffer_empty (w : Walker) (e : err) :
  reachable NumWorkers BufferSize Join walkFn root0 nd0 w ->
  returned w e ->
  errors w = [].
Proof.
  intros Hr He.
  destruct (main (Walk_root NumWorkers walkFn (Walk_init root0 nd0) root0 nd0))
    as [r1 n1|stk| |e0] eqn:Hroot.
  4: { destruct (root_exit_reachable _ _ _ _ _ _ _ _ Hroot Hr) as [-> | ->];
         [reflexivity|].
       apply errors_Walk_root. }
  1-3: destruct (returned_aggregate NumWorkers BufferSize Join walkFn
                   root0 nd0 w e) as (Hd & _); auto;
    try (intros e0; congruence);
    apply (collector_reachable _ _ _ _ _ _ _ Hr Hd).
Qed.

(** The errors of a walk that has returned: those collected and those a
    worker has yet to send are, together, the errors the walk is to
    report. *)
Lemma returned_errors (w : Walker) (e : err) :
  reachable NumWorkers BufferSize Join walkFn root0 nd0 w ->
  crashed w = None ->
  returned w e ->
  Permutation (errorList w ++ unsent w)
    (expected_errors Join walkFn root0 nd0).
Proof.
  intros Hr Hc He.
  apply (Permutation_count_occ WalkerError_eq_dec). intros x.
  pose proof (balance_reachable (count_report x) w Hr) as Hb.
  rewrite Hc in Hb. specialize (Hb ltac:(discriminate)).
  destruct (walk_inv_reachable _ _ _ _ _ _ _ Hr Hc) as (Hp & _).
  unfold returned in He. unfold phase_inv in Hp. rewrite He in Hp.
  destruct Hp as (Hd & Hj).
  unfold brought, held, total in Hb. rewrite He, Hj in Hb.
  rewrite (returned_buffer_empty w e Hr He) in Hb. simpl in Hb.
  rewrite (held_drained _ _ Hd) in Hb.
  rewrite (worth_count_events x (walk_events Join walkFn root0 nd0)) in Hb.
  rewrite !worth_count_reports, worth_count_calls in Hb.
  unfold worth in Hb. simpl in Hb.
  unfold expected_errors, unsent. rewrite He. simpl.
  rewrite count_occ_app. lia.
Qed.

End Conservation.

(** ** Where the paths and the errors of a walk come from *)

Section Soundness.

Variable NumWorkers : nat.
Variable BufferSize : nat.
Variable Join : string -> string -> string.
Variable walkFn : string -> option FileInfo -> err -> err.
Variable root0 : string.
Variable nd0 : node.

Lemma entered_mono (log more : list call) (path : string) (nd : node) :
  entered Join walkFn root0 nd0 log path nd ->
  entered Join walkFn root0 nd0 (log ++ more) path nd.
Proof.
  intros (Ha & Hin). split; auto. apply in_or_app. left. exact Hin.
Qed.

Lemma task_sound_mono (log more : list call) (tk : task) :
  task_sound Join walkFn root0 nd0 log tk ->
  task_sound Join walkFn root0 nd0 (log ++ more) tk.
Proof.
  destruct tk as [path nd|c path nd|c root names|we]; simpl; auto.
  - apply entered_mono.
  - apply entered_mono.
  - intros (nd & pre & Ha & Hrd). exists nd, pre. split; auto.
    apply entered_mono, Ha.
Qed.

Lemma Forall_replace_nth {A : Type} (P : A -> Prop) (i : nat) (x : A)
    (l : list A) :
  Forall P l -> P x -> Forall P (replace_nth i x l).
Proof.
  intros Hl Hx. revert i.
  induction Hl as [|y l Hy Hl IH]; intros [|i]; simpl; auto.
Qed.

Lemma Forall_nth_error {A : Type} (P : A -> Prop) (i : nat) (x : A)
    (l : list A) :
  Forall P l -> nth_error l i = Some x -> P x.
Proof.
  intros Hl Hi. apply nth_error_In in Hi.
  rewrite Forall_forall in Hl. auto.
Qed.

Lemma threads_all_mono (P Q : task -> Prop) (w : Walker) :
  (forall tk, P tk -> Q tk) -> threads_all P w -> threads_all Q w.
Proof.
  intros HPQ (Hm & Hws). split.
  - destruct (main w); auto. eapply Forall_impl; eauto.
  - eapply Forall_impl; [|exact Hws].
    intros stk Hstk. eapply Forall_impl; eauto.
Qed.

Lemma threads_all_get (P : task -> Prop) (w : Walker) (t : tid) (stk : thread) :
  threads_all P w -> get_thread w t = Some stk -> Forall P stk.
Proof.
  intros (Hm & Hws) Hg. destruct t as [|i]; simpl in Hg.
  - destruct (main w); try discriminate. injection Hg as <-. exact Hm.
  - eapply Forall_nth_error; eauto.
Qed.

Lemma threads_all_set_thread (P : task -> Prop) (w : Walker) (t : tid)
    (stk : thread) :
  threads_all P w -> Forall P stk -> threads_all P (set_thread w t stk).
Proof.
  intros (Hm & Hws) Hstk. destruct t as [|i]; split; simpl; auto.
  apply Forall_replace_nth; auto.
Qed.

Lemma sound_set_thread (w : Walker) (t : tid) (stk : thread) :
  sound Join walkFn root0 nd0 w ->
  Forall (task_sound Join walkFn root0 nd0 (calls w)) stk ->
  sound Join walkFn root0 nd0 (set_thread w t stk).
Proof.
  intros (Hlog & Hth & Hjobs & Herr & Hlist) Hstk.
  unfold sound. rewrite calls_set_thread.
  split; [exact Hlog|]. split; [apply threads_all_set_thread; auto|].
  destruct t; simpl; auto.
Qed.

Lemma sound_add_call (w : Walker) (c : call) :
  sound Join walkFn root0 nd0 w ->
  call_sound Join walkFn root0 nd0 (calls w) c ->
  sound Join walkFn root0 nd0 (add_call w c).
Proof.
  intros (Hlog & Hth & Hjobs & Herr & Hlist) Hc.
  split; [|split; [|split; [|split]]]; simpl; auto.
  - constructor; auto.
  - apply (threads_all_mono (task_sound Join walkFn root0 nd0 (calls w)));
      [intros tk; apply task_sound_mono | exact Hth].
  - eapply Forall_impl; [|exact Hjobs].
    intros j. apply entered_mono.
Qed.

(** What the head of a loop knows of the child it is about to visit. *)
Lemma loop_head_sound (w : Walker) (t : tid) (k : thread) (c : caller)
    (root name : string) (nd : node) (rest : list (string * node))
    (info : option FileInfo) (e0 : err) :
  sound Join walkFn root0 nd0 w ->
  get_thread w t = Some (Range c root ((name, nd) :: rest) :: k) ->
  Lstat nd = (info, e0) ->
  call_sound Join walkFn root0 nd0 (calls w) (Join root name, info, e0)
  /\ Forall (task_sound Join walkFn root0 nd0 (calls w)) k
  /\ exists dn pre,
       entered Join walkFn root0 nd0 (calls w) root dn
       /\ readDirNames dn = ((pre ++ [(name, nd)]) ++ rest, None)
       /\ In (name, nd) (fst (readDirNames dn))
       /\ entry_of Join root0 nd0 (Join root name) nd.
Proof.
  intros (_ & Hth & _) Hg HL.
  pose proof (threads_all_get _ _ _ _ Hth Hg) as Hstk.
  inversion Hstk as [|tk k0 Htop Hk]; subst.
  destruct Htop as (dn & pre & Hadm & Hrd).
  assert (Hin : In (name, nd) (fst (readDirNames dn))).
  { rewrite Hrd. simpl. apply in_or_app. right. left. reflexivity. }
  assert (Hent : entry_of Join root0 nd0 (Join root name) nd).
  { destruct Hadm as ((Hd & _) & _). eapply entry_child; eauto. }
  split; [|split; [exact Hk|]].
  - exists nd. simpl. repeat split; auto. right.
    exists root, dn, name. auto.
  - exists dn, pre. rewrite <- app_assoc. simpl. auto.
Qed.

Lemma Forall_repeat_nil (P : task -> Prop) (n : nat) :
  Forall (Forall P) (repeat [] n).
Proof. induction n; simpl; constructor; auto. Qed.

(** Every transition keeps the origins. *)
Lemma transition_sound (w w' : Walker) :
  reachable NumWorkers BufferSize Join walkFn root0 nd0 w ->
  sound Join walkFn root0 nd0 w ->
  transition NumWorkers BufferSize Join walkFn w w' ->
  sound Join walkFn root0 nd0 w'.
Proof.
  intros Hr Hsound Htr.
  assert (Hroot : forall root nd fi,
            main w = Start root nd -> Lstat nd = (Some fi, None) ->
            root = root0 /\ nd = nd0
            /\ call_sound Join walkFn root0 nd0 (calls w)
                 (root, Some fi, None)).
  { intros root nd fi Hm HL.
    destruct (reachable_start _ _ _ _ _ _ _ _ _ Hr Hm) as (-> & ->).
    pose proof (start_is_init _ _ _ _ _ _ _ _ _ Hr Hm) as ->.
    repeat split; auto. exists nd0. simpl. repeat split; auto.
    constructor. }
  assert (Hget : forall t stk, get_thread w t = Some stk ->
                   Forall (task_sound Join walkFn root0 nd0 (calls w)) stk).
  { intros t stk Hg. destruct Hsound as (_ & Hth & _).
    eapply threads_all_get; eauto. }
  transition_cases Htr.
  - destruct Hsound as (Hlog & (Hmn & Hws) & Hjobs & Herr & Hlist).
    repeat split; simpl; auto.
  - destruct (Hroot _ _ _ Hm HL) as (-> & -> & Hc).
    destruct (sound_add_call w _ Hsound Hc)
      as (Hlog & (Hmn & Hws) & Hjobs & Herr & Hlist).
    repeat split; simpl; auto.
  - destruct (Hroot _ _ _ Hm HL) as (-> & -> & Hc).
    destruct (sound_add_call w _ Hsound Hc)
      as (Hlog & (Hmn & Hws) & Hjobs & Herr & Hlist).
    repeat split; simpl; auto.
  - destruct (Hroot _ _ _ Hm HL) as (-> & -> & Hc).
    destruct (sound_add_call w _ Hsound Hc)
      as (Hlog & (Hmn & Hws) & Hjobs & Herr & Hlist).
    repeat split; simpl; auto.
    + constructor; [|constructor]. simpl. split.
      * split; [constructor|]. exists fi. auto.
      * rewrite HL. simpl. apply in_or_app. right. left. reflexivity.
    + apply Forall_repeat_nil.
  - pose proof (Hget _ _ Hg) as Hstk.
    inversion Hstk as [|tk k0 Htop Hk]; subst.
    apply sound_set_thread; [|exact Hk].
    destruct Hsound as (Hlog & (Hmn & Hws) & Hjobs & Herr & Hlist).
    repeat split; simpl; auto.
    apply Forall_replace_nth; auto.
  - pose proof (Hget _ _ Hg) as Hstk.
    inversion Hstk as [|tk k0 Htop Hk]; subst.
    apply sound_set_thread; [|exact Hk].
    destruct Hsound as (Hlog & (Hmn & Hws) & Hjobs & Herr & Hlist).
    repeat split; simpl; auto.
    apply Forall_app. split; auto.
  - pose proof (Hget _ _ Hg) as Hstk.
    inversion Hstk as [|tk k0 Htop Hk]; subst.
    apply (sound_set_thread (wg_Add w)); [exact Hsound|].
    constructor; auto.
  - pose proof (Hget _ _ Hg) as Hstk.
    inversion Hstk as [|tk k0 Htop Hk]; subst.
    apply (sound_set_thread (set_wg w n)); [exact Hsound|].
    constructor; auto.
    destruct Htop as (Hacc & _). exists nd. simpl. split; auto.
    left. exact Hrd.
  - pose proof (Hget _ _ Hg) as Hstk.
    inversion Hstk as [|tk k0 Htop Hk]; subst.
    apply sound_set_thread; [exact Hsound|].
    constructor; auto. exists nd, []. split; auto.
  - pose proof (Hget _ _ Hg) as Hstk.
    inversion Hstk as [|tk k0 Htop Hk]; subst.
    apply (sound_set_thread (set_wg w n)); [exact Hsound|exact Hk].
  - destruct (loop_head_sound w t k c root name nd rest info e0 Hsound Hg HL)
      as (Hc & Hk & dn & pre & Hadm & Hrd & Hin & Hent).
    apply sound_set_thread; [apply sound_add_call; auto|].
    simpl. constructor.
    + exists dn, (pre ++ [(name, nd)]). split; auto.
      apply entered_mono, Hadm.
    + eapply Forall_impl; [|exact Hk]. intros tk. apply task_sound_mono.
  - destruct (loop_head_sound w t k c root name nd rest info e0 Hsound Hg HL)
      as (Hc & Hk & dn & pre & Hadm & Hrd & Hin & Hent).
    apply (sound_set_thread
             (set_wg (add_call w (Join root name, info, e0)) n));
      [apply sound_add_call; auto|].
    simpl. constructor.
    + destruct Hadm as (Hacc & _). exists dn. simpl. split; auto.
      right. exists name, nd. rewrite HL. simpl. auto.
    + eapply Forall_impl; [|exact Hk]. intros tk. apply task_sound_mono.
  - destruct (loop_head_sound w t k c root name nd rest (Some fi) e0 Hsound Hg HL)
      as (Hc & Hk & dn & pre & Hadm & Hrd & Hin & Hent).
    apply sound_set_thread; [apply sound_add_call; auto|].
    assert (He0 : e0 = None).
    { destruct (Lstat_shape _ _ _ HL) as [(fi1 & _ & ->)|(e & H1 & _)];
        [reflexivity|discriminate]. }
    subst e0.
    simpl. constructor; [|constructor].
    + split.
      * split; auto. exists fi. auto.
      * rewrite HL. simpl. apply in_or_app. right. left. reflexivity.
    + exists dn, (pre ++ [(name, nd)]). split; auto.
      apply entered_mono, Hadm.
    + eapply Forall_impl; [|exact Hk]. intros tk. apply task_sound_mono.
  - destruct (loop_head_sound w t k c root name nd rest (Some fi) e0 Hsound Hg HL)
      as (Hc & Hk & dn & pre & Hadm & Hrd & Hin & Hent).
    apply sound_set_thread; [apply sound_add_call; auto|].
    simpl. constructor.
    + exists dn, (pre ++ [(name, nd)]). split; auto.
      apply entered_mono, Hadm.
    + eapply Forall_impl; [|exact Hk]. intros tk. apply task_sound_mono.
  - destruct (loop_head_sound w t k c root name nd rest None e0 Hsound Hg HL)
      as (Hc & _).
    exact (sound_add_call w _ Hsound Hc).
  - pose proof (Hget _ _ Hg) as Hstk.
    inversion Hstk as [|tk k0 Htop Hk]; subst.
    apply sound_set_thread; [|exact Hk].
    destruct Hsound as (Hlog & (Hmn & Hws) & Hjobs & Herr & Hlist).
    repeat split; simpl; auto.
    apply Forall_app. split; auto.
  - pose proof (Hget _ _ Hg) as Hstk.
    inversion Hstk as [|tk k0 Htop Hk]; subst.
    apply sound_set_thread; [|exact Hk].
    destruct Hsound as (Hlog & (Hmn & Hws) & Hjobs & Herr & Hlist).
    repeat split; simpl; auto.
    apply Forall_app. split; auto.
  - exact Hsound.
  - destruct Hsound as (Hlog & (Hmn & Hws) & Hjobs & Herr & Hlist).
    rewrite Hj in Hjobs. inversion Hjobs as [|j js0 Hj0 Hjs]; subst.
    repeat split; simpl; auto.
    apply Forall_replace_nth; auto.
  - destruct Hsound as (Hlog & (Hmn & Hws) & Hjobs & Herr & Hlist).
    rewrite He in Herr. inversion Herr as [|we0 es0 Hwe Hes]; subst.
    repeat split; simpl; auto.
    apply Forall_app. split; auto.
  - exact Hsound.
  - destruct Hsound as (Hlog & (Hmn & Hws) & Hjobs & Herr & Hlist).
    repeat split; simpl; auto.
  - destruct Hsound as (Hlog & (Hmn & Hws) & Hjobs & Herr & Hlist).
    repeat split; simpl; auto.
Qed.

Lemma sound_reachable (w : Walker) :
  reachable NumWorkers BufferSize Join walkFn root0 nd0 w ->
  sound Join walkFn root0 nd0 w.
Proof.
  intros Hr. induction Hr as [|w1 w2 [a Ha] Hr IH].
  - repeat split; simpl; auto. constructor.
  - pose proof (step_not_crashed _ _ _ _ _ _ _ Ha) as Hc.
    apply (transition_sound w1 w2 Hr IH).
    apply (step_transition NumWorkers BufferSize Join walkFn root0 nd0 w1 w2 a);
      [apply walk_inv_reachable; assumption | exact Ha].
Qed.

End Soundness.

(** ** Consequences for the log, the return and the collector *)

Section Consequences.

Variable NumWorkers : nat.
Variable BufferSize : nat.
Variable Join : string -> string -> string.
Variable walkFn : string -> option FileInfo -> err -> err.
Variable root0 : string.
Variable nd0 : node.

(** Every call of a sound log was sound when it was made. *)
Lemma log_sound_split (log : list call) :
  log_sound Join walkFn root0 nd0 log ->
  forall l1 c l2,
    log = l1 ++ c :: l2 -> call_sound Join walkFn root0 nd0 l1 c.
Proof.
  induction 1 as [|log c0 Hlog IH Hc0]; intros l1 c l2 Heq.
  - destruct l1; discriminate.
  - destruct l2 as [|x l2] using rev_ind.
    + apply app_inj_tail in Heq. destruct Heq as (-> & ->). exact Hc0.
    + clear IHl2. apply (IH l1 c l2).
      change (l1 ++ c :: l2 ++ [x]) with (l1 ++ (c :: l2) ++ [x]) in Heq.
      rewrite app_assoc in Heq. apply app_inj_tail in Heq.
      destruct Heq as (-> & _). reflexivity.
Qed.

(** Once [Walk] has returned, it stays returned. *)
Lemma returned_stays (w w' : Walker) (r : err) :
  transition NumWorkers BufferSize Join walkFn w w' ->
  returned w r -> returned w' r.
Proof.
  unfold returned. intros Htr Hret.
  transition_cases Htr; try congruence;
    try (destruct t as [|j]; simpl in Hg;
         [rewrite Hret in Hg; discriminate | exact Hret]);
    exact Hret.
Qed.

Lemma returned_forever (l : list action) :
  forall w w' e,
    reachable NumWorkers BufferSize Join walkFn root0 nd0 w ->
    returned w e ->
    exec NumWorkers BufferSize Join walkFn w l = Some w' ->
    calls w' = calls w /\ returned w' e.
Proof.
  induction l as [|a l IH]; simpl; intros w w' e Hr He Hx.
  - injection Hx as <-. auto.
  - destruct (step NumWorkers BufferSize Join walkFn w a) as [w1|] eqn:Ha;
      try discriminate.
    pose proof (step_not_crashed _ _ _ _ _ _ _ Ha) as Hc.
    pose proof (walk_inv_reachable _ _ _ _ _ _ _ Hr Hc) as Hinv.
    pose proof (returned_calls_stable _ _ _ _ _ _ _ _ _ _ Hinv He Ha) as Hcalls.
    pose proof (step_transition _ _ _ _ _ _ _ _ _ Hinv Ha) as Htr.
    pose proof (returned_stays _ _ _ Htr He) as He1.
    destruct (IH w1 w' e) as (H1 & H2); auto.
    + econstructor; [exists a; exact Ha | exact Hr].
    + split; congruence.
Qed.

(** When the root check fails, [Walk] has returned after one step. *)
Lemma root_check_fails (root : string) (nd : node) :
  snd (Lstat nd) <> None
  \/ walkFn root (fst (Lstat nd)) None <> None
  \/ is_dir nd = false ->
  exists e,
    main (Walk_root NumWorkers walkFn (Walk_init root nd) root nd)
    = Returned (Some e)
    /\ ewg_done (Walk_root NumWorkers walkFn (Walk_init root nd) root nd)
       = false
    /\ errors_closed (Walk_root NumWorkers walkFn (Walk_init root nd) root nd)
       = false.
Proof.
  unfold Walk_root. destruct nd as [[fi|e] rd es]; cbn [Lstat fst snd is_dir].
  - destruct (walkFn root (Some fi) None) as [e1|].
    + intros _. exists e1. auto.
    + destruct (IsDir fi); simpl.
      * intros [H|[H|H]]; congruence.
      * intros _. exists ErrNotDir. auto.
  - intros _. exists e. auto.
Qed.

Lemma root_check_passes (root : string) (nd : node) (fi : FileInfo) :
  Lstat nd = (Some fi, None) ->
  walkFn root (Some fi) None = None ->
  IsDir fi = true ->
  forall e,
    main (Walk_root NumWorkers walkFn (Walk_init root nd) root nd)
    <> Returned e.
Proof.
  intros HL Hcb Hd e. unfold Walk_root. rewrite HL, Hcb, Hd. discriminate.
Qed.

(** The pool has its workers from the moment it is spawned. *)
Lemma workers_length (w : Walker) :
  reachable NumWorkers BufferSize Join walkFn root0 nd0 w ->
  List.length (workers w) = 0 \/ List.length (workers w) = NumWorkers.
Proof.
  intros Hr. pattern w. revert w Hr.
  apply reachable_transition_ind; [left; reflexivity|].
  intros w w' _ _ IH Htr.
  transition_cases Htr;
    try (destruct t as [|j]); simpl; rewrite ?replace_nth_length;
    rewrite ?repeat_length; auto.
Qed.

End Consequences.

(** * Panics, origins and what is left at the return *)

(** X5: a walk panics in two ways only.  Either [info.IsDir()] is called
    on the nil metadata of a child that could not be stat'ed and for which
    the callback returned nil: that call is the last of the log.  Or a
    worker that has nothing left but to send its error finds [w.errors]
    closed.  The other two panics do not occur: as long as the process has
    not panicked, a context inside [processPath] finds the counter of
    [w.wg] positive, and a context at the entry of [addJob] finds [w.jobs]
    open. *)
Theorem X5_a_walk_panics_in_two_ways_only
    (NumWorkers BufferSize : nat) (Join : string -> string -> string)
    (walkFn : string -> option FileInfo -> err -> err)
    (root : string) (nd : node) (w : Walker) :
  reachable NumWorkers BufferSize Join walkFn root nd w ->
  (forall p,
     crashed w = Some p ->
     (p = NilDereference
      /\ exists l path e,
           calls w = l ++ [(path, None, Some e)]
           /\ walkFn path None (Some e) = None)
     \/ (p = SendOnClosedChannel
         /\ errors_closed w = true
         /\ exists i we, nth_error (workers w) i = Some [Send we]))
  /\ (crashed w = None ->
      forall t top k,
        get_thread w t = Some (top :: k) ->
        (counts top = 1 -> 0 < wg w)
        /\ (forall path n, top = AddJob path n -> jobs_closed w = false)).
Proof.
  intros Hr. split.
  - intros p Hp.
    exact (panic_cause NumWorkers BufferSize Join walkFn root nd w p Hr Hp).
  - intros Hc t top k Hg. split.
    + intros Htop.
      exact (wg_positive NumWorkers BufferSize Join walkFn root nd w t top k
               Hr Hc Hg Htop).
    + intros path n ->.
      apply (busy_channels_open NumWorkers BufferSize Join walkFn root nd
               w t _ Hr Hc Hg).
      reflexivity.
Qed.

Lemma X5_witness :
  (forall p,
     crashed Runs.panicked = Some p ->
     (p = NilDereference
      /\ exists l path e,
           calls Runs.panicked = l ++ [(path, None, Some e)]
           /\ Examples.callback path None (Some e) = None)
     \/ (p = SendOnClosedChannel
         /\ errors_closed Runs.panicked = true
         /\ exists i we,
              nth_error (workers Runs.panicked) i = Some [Send we]))
  /\ (crashed Runs.panicked = None ->
      forall t top k,
        get_thread Runs.panicked t = Some (top :: k) ->
        (counts top = 1 -> 0 < wg Runs.panicked)
        /\ (forall path n,
              top = AddJob path n -> jobs_closed Runs.panicked = false)).
Proof.
  apply (X5_a_walk_panics_in_two_ways_only 4 4 Examples.Join Examples.callback
           "root" Examples.tree_with_vanished Runs.panicked).
  apply after_reachable.
Defined.

(** X6: when the callback returns a non-nil error whenever it is given
    one with nil metadata, [info.IsDir()] is never called on nil metadata:
    no walk panics with a nil dereference. *)
Theorem X6_handing_errors_back_avoids_the_nil_dereference
    (NumWorkers BufferSize : nat) (Join : string -> string -> string)
    (walkFn : string -> option FileInfo -> err -> err)
    (root : string) (nd : node) (w : Walker) :
  (forall path e, walkFn path None (Some e) <> None) ->
  reachable NumWorkers BufferSize Join walkFn root nd w ->
  crashed w <> Some NilDereference.
Proof.
  intros Hcb Hr Hc.
  destruct (panic_cause _ _ _ _ _ _ _ _ Hr Hc)
    as [(_ & l & path & e & _ & Hnil)|(Hp & _)].
  - exact (Hcb path e Hnil).
  - discriminate.
Qed.

Lemma X6_witness : crashed Runs.relayed <> Some NilDereference.
Proof.
  apply (X6_handing_errors_back_avoids_the_nil_dereference 4 4 Examples.Join
           Runs.relay "root" Examples.tree_with_vanished Runs.relayed).
  - intros path e. vm_compute. discriminate.
  - apply after_reachable.
Defined.

(** X7: when the root check fails (the root cannot be stat'ed, the
    callback returns an error for it, or it is not a directory), [Walk]
    returns without closing [w.errors]: the collector it has started has not
    run [w.ewg.Done()] and never will, for nothing moves any more. *)
Theorem X7_failed_root_check_leaves_the_collector_blocked
    (NumWorkers BufferSize : nat) (Join : string -> string -> string)
    (walkFn : string -> option FileInfo -> err -> err)
    (root : string) (nd : node) (w : Walker) (e : err) :
  snd (Lstat nd) <> None
  \/ walkFn root (fst (Lstat nd)) None <> None
  \/ is_dir nd = false ->
  reachable NumWorkers BufferSize Join walkFn root nd w ->
  returned w e ->
  ewg_done w = false
  /\ errors_closed w = false
  /\ forall a, step NumWorkers BufferSize Join walkFn w a = None.
Proof.
  intros Hfail Hr He.
  destruct (root_check_fails NumWorkers walkFn root nd Hfail)
    as (e1 & Hm & Hd & Hec).
  destruct (root_exit_reachable _ _ _ _ _ _ _ _ Hm Hr) as [-> | ->].
  - discriminate.
  - split; [exact Hd|]. split; [exact Hec|].
    intros a. eapply root_exit_stuck; eauto.
Qed.

Lemma X7_witness :
  ewg_done Runs.file_root = false
  /\ errors_closed Runs.file_root = false
  /\ forall a,
       step 2 2 Examples.Join Examples.callback Runs.file_root a = None.
Proof.
  apply (X7_failed_root_check_leaves_the_collector_blocked 2 2 Examples.Join
           Examples.callback "root" (Examples.file "root") Runs.file_root
           (Some ErrNotDir)).
  - right. right. reflexivity.
  - apply after_reachable.
  - vm_compute. reflexivity.
Defined.

(** X8: the callback is called for a directory before it is called for
    any of its entries.  The first call of every walk is the call for the
    root; every later call is for [Join d name] where the call for [d] is
    earlier in the log, was given the metadata of a directory and no error,
    and the callback returned nil for it. *)
Theorem X8_a_directory_is_called_before_its_entries
    (NumWorkers BufferSize : nat) (Join : string -> string -> string)
    (walkFn : string -> option FileInfo -> err -> err)
    (root : string) (nd : node) (w : Walker)
    (l1 l2 : list call) (path : string) (info : option FileInfo) (e : err) :
  reachable NumWorkers BufferSize Join walkFn root nd w ->
  calls w = l1 ++ (path, info, e) :: l2 ->
  (l1 = [] /\ path = root)
  \/ exists d name fi,
       path = Join d name
       /\ In (d, Some fi, None) l1
       /\ IsDir fi = true
       /\ walkFn d (Some fi) None = None.
Proof.
  intros Hr Hsplit.
  destruct (sound_reachable _ _ _ _ _ _ _ Hr) as (Hlog & _).
  destruct (log_sound_split _ _ _ _ _ Hlog _ _ _ Hsplit)
    as (n & _ & _ & [(-> & Hp & _)|(d & dn & name & Hp & Hadm & _)]);
    simpl in Hp.
  - left. auto.
  - right. destruct Hadm as ((_ & fi & HL & Hd & Hcb) & Hin).
    rewrite HL in Hin. simpl in Hin.
    exists d, name, fi. auto.
Qed.

Lemma X8_witness :
  ([Runs.root_call] = [] /\ "root/a.txt" = "root")
  \/ exists d name fi,
       "root/a.txt" = Examples.Join d name
       /\ In (d, Some fi, None) [Runs.root_call]
       /\ IsDir fi = true
       /\ Examples.callback d (Some fi) None = None.
Proof.
  apply (X8_a_directory_is_called_before_its_entries 1 1 Examples.Join
           Examples.callback "root" Examples.small_tree Examples.finished_pool
           [Runs.root_call] []
           "root/a.txt" (Some (mkFileInfo "a.txt" false)) None).
  - apply after_reachable.
  - vm_compute. reflexivity.
Defined.

(** X9: the callback is only called for entries of the tree, and with
    what [os.Lstat] answers for the entry: either the metadata and a nil
    error, or nil metadata and the error. *)
Theorem X9_the_callback_gets_what_Lstat_answers
    (NumWorkers BufferSize : nat) (Join : string -> string -> string)
    (walkFn : string -> option FileInfo -> err -> err)
    (root : string) (nd : node) (w : Walker)
    (path : string) (info : option FileInfo) (e : err) :
  reachable NumWorkers BufferSize Join walkFn root nd w ->
  In (path, info, e) (calls w) ->
  (exists n, entry_of Join root nd path n /\ Lstat n = (info, e))
  /\ ((exists fi, info = Some fi /\ e = None)
      \/ (exists e', info = None /\ e = Some e')).
Proof.
  intros Hr Hin.
  destruct (sound_reachable _ _ _ _ _ _ _ Hr) as (Hlog & _).
  destruct (in_split _ _ Hin) as (l1 & l2 & Hsplit).
  destruct (log_sound_split _ _ _ _ _ Hlog _ _ _ Hsplit)
    as (n & Hent & HL & _).
  simpl in Hent, HL. split; [exists n; auto|].
  eapply Lstat_shape; eauto.
Qed.

Lemma X9_witness :
  (exists n,
     entry_of Examples.Join "root" Examples.small_tree "root/a.txt" n
     /\ Lstat n = (Some (mkFileInfo "a.txt" false), None))
  /\ ((exists fi, Some (mkFileInfo "a.txt" false) = Some fi
                  /\ @None error = None)
      \/ (exists e', Some (mkFileInfo "a.txt" false) = None
                     /\ @None error = Some e')).
Proof.
  apply (X9_the_callback_gets_what_Lstat_answers 1 1 Examples.Join
           Examples.callback "root" Examples.small_tree Examples.finished_pool).
  - apply after_reachable.
  - vm_compute. right. left. reflexivity.
Defined.

(** X10: every error [Walk] collects has a cause in the tree.  It carries
    the path of a directory of the tree that was stat'ed and for which the
    callback returned nil, and its error is what the listing of that
    directory failed with, or what the callback returned, other than the
    skip sentinel, for one of its entries. *)
Theorem X10_every_collected_error_has_a_cause
    (NumWorkers BufferSize : nat) (Join : string -> string -> string)
    (walkFn : string -> option FileInfo -> err -> err)
    (root : string) (nd : node) (w : Walker) (we : WalkerError) :
  reachable NumWorkers BufferSize Join walkFn root nd w ->
  In we (errorList w) ->
  exists n,
    accepted Join walkFn root nd (we_path we) n
    /\ cause Join walkFn (we_path we) n (we_error we).
Proof.
  intros Hr Hin.
  destruct (sound_reachable _ _ _ _ _ _ _ Hr) as (_ & _ & _ & _ & Hlist).
  rewrite Forall_forall in Hlist. exact (Hlist we Hin).
Qed.

Lemma X10_witness :
  exists n,
    accepted Examples.Join Examples.callback "root" Examples.tree_with_locked
      "root/d" n
    /\ cause Examples.Join Examples.callback "root/d" n
         (PathError "permission denied").
Proof.
  apply (X10_every_collected_error_has_a_cause 2 1 Examples.Join
           Examples.callback "root" Examples.tree_with_locked
           Examples.finished_with_error
           (mkWalkerError (PathError "permission denied") "root/d")).
  - apply after_reachable.
  - vm_compute. left. reflexivity.
Defined.

(** X11: no error is dropped in silence.  When [Walk] has returned and
    the process has not panicked, the errors collected and the errors that
    workers hold and have yet to send are, together, exactly the errors the
    walk is to report, each as often; and a worker that still holds an
    error can only panic: its send finds [w.errors] closed. *)
Theorem X11_errors_are_collected_or_still_held
    (NumWorkers BufferSize : nat) (Join : string -> string -> string)
    (walkFn : string -> option FileInfo -> err -> err)
    (root : string) (nd : node) (w : Walker) (e : err) :
  reachable NumWorkers BufferSize Join walkFn root nd w ->
  crashed w = None ->
  returned w e ->
  Permutation (errorList w ++ unsent w) (expected_errors Join walkFn root nd)
  /\ forall i stk we r,
       nth_error (workers w) i = Some stk ->
       In we (flat_map unsent_task stk) ->
       stk = [Send we]
       /\ option_map crashed
            (step NumWorkers BufferSize Join walkFn w (ARun (TWorker i) r))
          = Some (Some SendOnClosedChannel).
Proof.
  intros Hr Hc He. split; [eapply returned_errors; eauto|].
  intros i stk we r Hi Hin.
  destruct (walk_inv_reachable _ _ _ _ _ _ _ Hr Hc) as (Hp & _).
  unfold returned in He. unfold phase_inv in Hp. rewrite He in Hp.
  destruct Hp as (Hd & _).
  pose proof (forallb_nth_error _ _ _ _ Hd Hi) as Hdr.
  destruct stk as [|[| | |we1] [|? ?]]; try discriminate; simpl in Hin;
    try contradiction.
  destruct Hin as [->|[]]. split; [reflexivity|].
  assert (Hwork : workers w <> []).
  { intros H0. rewrite H0 in Hi. destruct i; discriminate. }
  assert (Hclosed : errors_closed w = true).
  { destruct (main (Walk_root NumWorkers walkFn (Walk_init root nd) root nd))
      as [r1 n1|stk0| |e0] eqn:Hroot.
    4: { exfalso.
         destruct (root_exit_reachable _ _ _ _ _ _ _ _ Hroot Hr) as [-> | ->].
         - apply Hwork. reflexivity.
         - revert Hroot Hwork. unfold Walk_root.
           destruct (Lstat nd) as [info [e1|]]; simpl; [congruence|].
           destruct (walkFn root info None); simpl; [congruence|].
           destruct info as [fi|]; simpl; [|congruence].
           destruct (IsDir fi); simpl; [discriminate|congruence]. }
    1-3: destruct (returned_aggregate NumWorkers BufferSize Join walkFn
                     root nd w e) as (Hdone & _); auto;
      try (intros e0; congruence);
      apply (collector_reachable _ _ _ _ _ _ _ Hr Hdone). }
  unfold step. rewrite Hc. unfold run. simpl get_thread. rewrite Hi.
  unfold send_error. rewrite Hclosed. reflexivity.
Qed.

Lemma X11_witness :
  Permutation (errorList Runs.returned_early ++ unsent Runs.returned_early)
    (expected_errors Examples.Join Examples.callback "root"
       Examples.tree_with_locked)
  /\ forall i stk we r,
       nth_error (workers Runs.returned_early) i = Some stk ->
       In we (flat_map unsent_task stk) ->
       stk = [Send we]
       /\ option_map crashed
            (step 2 2 Examples.Join Examples.callback Runs.returned_early
               (ARun (TWorker i) r))
          = Some (Some SendOnClosedChannel).
Proof.
  apply (X11_errors_are_collected_or_still_held 2 2 Examples.Join
           Examples.callback "root" Examples.tree_with_locked
           Runs.returned_early None).
  - apply after_reachable.
  - vm_compute. reflexivity.
  - vm_compute. reflexivity.
Defined.

(** X12: once [Walk] has returned, the callback is not called any more,
    whatever the goroutines that are left still do, and [Walk] stays
    returned with the same result. *)
Theorem X12_no_call_after_the_return
    (NumWorkers BufferSize : nat) (Join : string -> string -> string)
    (walkFn : string -> option FileInfo -> err -> err)
    (root : string) (nd : node) (w w' : Walker) (e : err) (l : list action) :
  reachable NumWorkers BufferSize Join walkFn root nd w ->
  returned w e ->
  exec NumWorkers BufferSize Join walkFn w l = Some w' ->
  calls w' = calls w /\ returned w' e.
Proof. intros Hr He Hx. eapply returned_forever; eauto. Qed.

Lemma X12_witness :
  calls (crash Runs.returned_early SendOnClosedChannel)
  = calls Runs.returned_early
  /\ returned (crash Runs.returned_early SendOnClosedChannel) None.
Proof.
  apply (X12_no_call_after_the_return 2 2 Examples.Join Examples.callback
           "root" Examples.tree_with_locked Runs.returned_early
           (crash Runs.returned_early SendOnClosedChannel) None
           [ARun (TWorker 0) None]).
  - apply after_reachable.
  - vm_compute. reflexivity.
  - vm_compute. reflexivity.
Defined.

(** X13: on a directory tree in which no file system operation fails and
    with a callback that always returns nil, no walk panics and no error is
    ever sent or collected, whatever the number of workers, the capacity and
    the schedule; a walk that has returned has returned nil.  With at least
    one worker, or with unbuffered channels, [Walk] does return nil: a walk
    that has not returned can always move, and it can run on from every
    state it reaches to one in which [Walk] has returned nil. *)
Theorem X13_a_walk_without_failure_returns_nil
    (NumWorkers BufferSize : nat) (Join : string -> string -> string)
    (walkFn : string -> option FileInfo -> err -> err)
    (root : string) (nd : node) (w : Walker) :
  healthy nd = true ->
  is_dir nd = true ->
  (forall path info e, walkFn path info e = None) ->
  reachable NumWorkers BufferSize Join walkFn root nd w ->
  crashed w = None /\ errors w = [] /\ errorList w = []
  /\ (forall e, returned w e -> e = None)
  /\ (1 <= NumWorkers \/ BufferSize = 0 ->
      ((forall e, ~ returned w e) ->
       exists a w', step NumWorkers BufferSize Join walkFn w a = Some w')
      /\ exists w',
           clos_refl_trans_1n Walker
             (steps_to NumWorkers BufferSize Join walkFn) w w'
           /\ reachable NumWorkers BufferSize Join walkFn root nd w'
           /\ crashed w' = None
           /\ returned w' None).
Proof.
  intros Hh Hdir Hnil Hr.
  assert (Hquiet : forall w0,
             reachable NumWorkers BufferSize Join walkFn root nd w0 ->
             crashed w0 = None /\ errors w0 = [] /\ errorList w0 = []).
  { intros w0 Hr0.
    destruct (inv_reachable _ _ _ _ Hnil _ _ _ Hh Hr0)
      as (((Hc & Herr & Hlist) & _) & _).
    auto. }
  assert (Hnone : forall w0 e,
             reachable NumWorkers BufferSize Join walkFn root nd w0 ->
             returned w0 e -> e = None).
  { intros w0 e Hr0 He.
    destruct (Hquiet w0 Hr0) as (Hc & _ & Hlist).
    destruct (healthy_Lstat nd Hh) as (fi & HL & Hd).
    destruct (returned_aggregate NumWorkers BufferSize Join walkFn root nd w0 e)
      as (_ & ->); auto.
    - apply (root_check_passes NumWorkers walkFn root nd fi); auto. congruence.
    - rewrite Hlist. reflexivity. }
  destruct (Hquiet w Hr) as (Hc & Herr & Hlist).
  split; [exact Hc|]. split; [exact Herr|]. split; [exact Hlist|].
  split; [intros e; apply Hnone; exact Hr|].
  intros Hcfg. split.
  - intros Hnr.
    apply (walk_progress NumWorkers BufferSize Join walkFn root nd w); auto.
    apply walk_inv_reachable; auto.
  - pose proof (inv_reachable _ _ _ _ Hnil _ _ _ Hh Hr) as Hinv.
    destruct (can_return NumWorkers BufferSize Join walkFn Hnil root nd
                (measure w) Hcfg w (le_n _) Hinv) as (w' & e & Hrun & Hret).
    assert (Hr' : reachable NumWorkers BufferSize Join walkFn root nd w')
      by (eapply reachable_trans; eauto).
    exists w'. split; [exact Hrun|]. split; [exact Hr'|].
    split; [apply (Hquiet w' Hr')|].
    rewrite <- (Hnone w' e Hr' Hret). exact Hret.
Qed.

Lemma X13_witness :
  crashed Examples.at_addJob = None
  /\ errors Examples.at_addJob = []
  /\ errorList Examples.at_addJob = []
  /\ (forall e, returned Examples.at_addJob e -> e = None)
  /\ ((forall e, ~ returned Examples.at_addJob e) ->
      exists a w',
        step 1 1 Examples.Join Examples.callback Examples.at_addJob a = Some w')
  /\ exists w',
       clos_refl_trans_1n Walker
         (steps_to 1 1 Examples.Join Examples.callback) Examples.at_addJob w'
       /\ reachable 1 1 Examples.Join Examples.callback "root"
            Examples.two_dirs w'
       /\ crashed w' = None
       /\ returned w' None.
Proof.
  destruct (X13_a_walk_without_failure_returns_nil 1 1 Examples.Join
              Examples.callback "root" Examples.two_dirs Examples.at_addJob)
    as (Hc & He & Hl & Hn & Hlive).
  - reflexivity.
  - reflexivity.
  - reflexivity.
  - apply after_reachable.
  - destruct Hlive as (Hmove & Hend); [left; lia|].
    repeat split; assumption.
Defined.

(** ** The counters of [traversaltime] *)

Lemma node_induction (P : node -> Prop) :
  (forall st rd es, Forall (fun ne => P (snd ne)) es -> P (Node st rd es)) ->
  forall nd, P nd.
Proof.
  intros H. fix IH 1. intros [st rd es]. apply H.
  induction es as [|[name nd] es IHes]; constructor; [apply IH | exact IHes].
Qed.

Lemma int32_zero : int32 0 = 0%Z.
Proof. reflexivity. Qed.

Lemma AddInt32_int32 (n : nat) :
  AddInt32 (int32 (Z.of_nat n)) 1 = int32 (Z.of_nat (n + 1)).
Proof.
  unfold AddInt32, int32.
  replace ((Z.of_nat n + 2147483648) mod 4294967296 - 2147483648 + 1
           + 2147483648)%Z
    with ((Z.of_nat n + 2147483648) mod 4294967296 + 1)%Z by lia.
  rewrite Z.add_mod_idemp_l by lia.
  replace (Z.of_nat (n + 1) + 2147483648)%Z
    with (Z.of_nat n + 2147483648 + 1)%Z by lia.
  reflexivity.
Qed.

Lemma tally_snoc
    (cb : Counters -> string -> option FileInfo -> err -> option (Counters * err))
    (l : list call) (c : call) (s : Counters) :
  tally cb (l ++ [c]) s
  = match tally cb l s with
    | Some s' => option_map fst (cb s' (fst (fst c)) (snd (fst c)) (snd c))
    | None => None
    end.
Proof. unfold tally. rewrite fold_left_app. reflexivity. Qed.

Section Counting.

Variable Join : string -> string -> string.

(** The counters after stat calls are the numbers of calls of each kind,
    as [int32] holds them. *)
Lemma tally_counts (l : list call) :
  Forall stat_call l ->
  tally callback l reset
  = Some (mkCounters
            (int32 (Z.of_nat (worth counts_file (map Called l))))
            (int32 (Z.of_nat (worth counts_folder (map Called l))))
            (int32 (Z.of_nat (worth counts_error (map Called l))))).
Proof.
  induction l as [|c l IH] using rev_ind; intros Hl.
  - reflexivity.
  - apply Forall_app in Hl. destruct Hl as (Hl & Hc).
    inversion Hc as [|c0 l0 Hc0 _]; subst.
    rewrite tally_snoc, (IH Hl). rewrite !map_app, !worth_app. simpl map.
    generalize (worth counts_file (map Called l)) as a.
    generalize (worth counts_folder (map Called l)) as b.
    generalize (worth counts_error (map Called l)) as d.
    intros d b a.
    destruct c as [[path info] e].
    destruct Hc0 as [(fi & Hi & He)|(e1 & Hi & He)]; simpl in Hi, He; subst;
      unfold callback, count, worth; simpl.
    + destruct (IsDir fi); simpl;
        rewrite ?Nat.add_0_r, ?AddInt32_int32; reflexivity.
    + rewrite ?Nat.add_0_r, ?AddInt32_int32. reflexivity.
Qed.

Variable walkFn : string -> option FileInfo -> err -> err.
Hypothesis walkFn_nil : forall path info e, walkFn path info e = None.

Variable v : event -> nat.
Variable k : FileInfo -> nat.
Hypothesis v_call : forall path fi, v (Called (path, Some fi, None)) = k fi.

(** In a tree where nothing fails, what [processPath] brings about for a
    directory weighs the census of its entries. *)
Lemma healthy_events_census (nd : node) :
  healthy nd = true ->
  forall path,
    worth v (if is_dir nd then dir_events Join walkFn path nd else [])
    + k match nd with
        | Node (inl fi) _ _ => fi
        | Node (inr _) _ _ => mkFileInfo EmptyString false
        end
    = census k nd.
Proof.
  induction nd as [st rd es IH] using node_induction.
  destruct st as [fi|e]; [|discriminate].
  cbn [healthy is_dir census]. destruct (IsDir fi) eqn:Hd.
  - destruct rd as [e|]; [discriminate|]. simpl. intros Hes path.
    assert (Hloop : worth v (loop_events Join walkFn (dir_events Join walkFn)
                               path es)
                    = list_sum (map (fun ne => census k (snd ne)) es)).
    { induction es as [|[name child] es IHes]; [reflexivity|].
      simpl in Hes. apply andb_true_iff in Hes. destruct Hes as (Hch & Hes).
      inversion IH as [|x l Hx Hl]; subst. simpl in Hx.
      rewrite loop_events_cons, walkFn_nil.
      destruct (healthy_Lstat child Hch) as (fi1 & HL & Hd1).
      rewrite HL. cbn [fst snd]. rewrite worth_cons, worth_app, v_call.
      rewrite (IHes Hl Hes). simpl.
      specialize (Hx Hch (Join path name)).
      destruct child as [[fi2|e2] rd2 es2]; [|discriminate].
      simpl in HL. injection HL as <-.
      simpl is_dir in Hx. cbn [snd]. rewrite <- Hx. lia. }
    rewrite Hloop. lia.
  - intros _ path. unfold worth. simpl. lia.
Qed.

Lemma healthy_walk_census (root : string) (nd : node) :
  healthy nd = true ->
  worth v (walk_events Join walkFn root nd) = census k nd.
Proof.
  intros Hh. pose proof (healthy_events_census nd Hh root) as H.
  destruct nd as [[fi|e] rd es]; [|discriminate].
  unfold walk_events. cbn [Lstat]. rewrite walkFn_nil, worth_cons, v_call.
  simpl is_dir in H. lia.
Qed.

End Counting.

Lemma census_none (nd : node) : census (fun _ => 0) nd = 0.
Proof.
  induction nd as [st rd es IH] using node_induction.
  destruct st as [fi|e]; simpl; auto.
  destruct (IsDir fi); auto. destruct rd; auto.
  induction IH as [|ne es Hne Hes IHes]; simpl; auto.
  rewrite Hne, IHes. reflexivity.
Qed.

(** Every call of a walk is a stat call. *)
Lemma calls_stat (NumWorkers BufferSize : nat) (Join : string -> string -> string)
    (walkFn : string -> option FileInfo -> err -> err)
    (root : string) (nd : node) (w : Walker) :
  reachable NumWorkers BufferSize Join walkFn root nd w ->
  Forall stat_call (calls w).
Proof.
  intros Hr. apply Forall_forall. intros [[path info] e] Hin.
  destruct (sound_reachable _ _ _ _ _ _ _ Hr) as (Hlog & _).
  destruct (in_split _ _ Hin) as (l1 & l2 & Hsplit).
  destruct (log_sound_split _ _ _ _ _ Hlog _ _ _ Hsplit)
    as (n & _ & HL & _).
  simpl in HL. unfold stat_call. simpl.
  eapply Lstat_shape; eauto.
Qed.

(** What has been called for weighs what the walk is to call for, once
    [Walk] has returned. *)
Lemma returned_calls_worth (NumWorkers BufferSize : nat)
    (Join : string -> string -> string)
    (walkFn : string -> option FileInfo -> err -> err)
    (root : string) (nd : node) (w : Walker) (e : err) (v : event -> nat) :
  (forall we, v (Reported we) = 0) ->
  reachable NumWorkers BufferSize Join walkFn root nd w ->
  crashed w = None ->
  returned w e ->
  worth v (map Called (calls w)) = worth v (walk_events Join walkFn root nd).
Proof.
  intros Hv Hr Hc He.
  pose proof (balance_reachable NumWorkers BufferSize Join walkFn root nd
                v w Hr) as Hb.
  rewrite Hc in Hb. specialize (Hb ltac:(discriminate)).
  destruct (walk_inv_reachable _ _ _ _ _ _ _ Hr Hc) as (Hp & _).
  unfold returned in He. unfold phase_inv in Hp. rewrite He in Hp.
  destruct Hp as (Hd & Hj).
  assert (Hzero : forall l, worth v (map Reported l) = 0).
  { intros l. unfold worth. induction l as [|we l IH]; simpl; auto.
    rewrite Hv, IH. reflexivity. }
  unfold brought, held, total in Hb. rewrite He, Hj in Hb.
  rewrite (held_drained _ _ _ _ Hd), !Hzero in Hb. simpl in Hb. lia.
Qed.

Lemma counting_nil (path : string) (info : option FileInfo) (e : err) :
  answer callback path info e = None.
Proof.
  unfold answer, callback, count.
  destruct e; [reflexivity|]. destruct info as [fi|]; [|reflexivity].
  destruct (IsDir fi); reflexivity.
Qed.

(** X14: the command-line program counts the tree.  When [Walk] has
    returned from a tree in which no file system operation fails, the
    counters of the callback, reset before the walk, hold the number of
    directories and the number of other entries of the tree, as an [int32]
    holds them, and no error has been counted. *)
Theorem X14_the_counters_hold_the_numbers_of_the_tree
    (NumWorkers BufferSize : nat) (Join : string -> string -> string)
    (root : string) (nd : node) (w : Walker) (e : err) :
  healthy nd = true ->
  reachable NumWorkers BufferSize Join (answer callback) root nd w ->
  returned w e ->
  tally callback (calls w) reset
  = Some (mkCounters (int32 (Z.of_nat (files nd)))
            (int32 (Z.of_nat (folders nd))) 0).
Proof.
  intros Hh Hr He.
  destruct (inv_reachable _ _ _ _ counting_nil _ _ _ Hh Hr)
    as (((Hc & _) & _) & _).
  rewrite (tally_counts (calls w) (calls_stat _ _ _ _ _ _ _ Hr)).
  rewrite (returned_calls_worth NumWorkers BufferSize Join (answer callback)
             root nd w e counts_file),
    (returned_calls_worth NumWorkers BufferSize Join (answer callback)
       root nd w e counts_folder),
    (returned_calls_worth NumWorkers BufferSize Join (answer callback)
       root nd w e counts_error);
    try reflexivity; try assumption.
  rewrite (healthy_walk_census Join (answer callback) counting_nil counts_file
             (fun fi => if IsDir fi then 0 else 1)) by auto.
  rewrite (healthy_walk_census Join (answer callback) counting_nil
             counts_folder (fun fi => if IsDir fi then 1 else 0)) by auto.
  rewrite (healthy_walk_census Join (answer callback) counting_nil
             counts_error (fun _ => 0)) by auto.
  rewrite census_none. reflexivity.
Qed.

Lemma X14_witness :
  tally callback (calls Runs.counted) reset
  = Some (mkCounters (int32 (Z.of_nat (files Examples.tree)))
            (int32 (Z.of_nat (folders Examples.tree))) 0).
Proof.
  apply (X14_the_counters_hold_the_numbers_of_the_tree 1 1 Examples.Join
           "root" Examples.tree Runs.counted None).
  - reflexivity.
  - apply after_reachable.
  - vm_compute. reflexivity.
Defined.

(** X15: the example program panics on a root that is not a directory
    it can walk.  With its callback, the type assertion
    [err.(cwalk.WalkerErrorList)] applied to the error of [Walk] panics
    exactly when the root cannot be stat'ed or is not a directory: [Walk]
    then returns the error of [os.Lstat] or [ErrNotDir], neither of which is
    a [WalkerErrorList]. *)
Theorem X15_the_example_program_panics_on_a_bad_root
    (NumWorkers BufferSize : nat) (Join : string -> string -> string)
    (root : string) (nd : node) (w : Walker) (e : err) :
  (forall l, snd (Lstat nd) <> Some (ErrorListValue l)) ->
  reachable NumWorkers BufferSize Join (answer example_callback) root nd w ->
  returned w e ->
  print_errors e = AssertionPanic
  <-> (snd (Lstat nd) <> None \/ is_dir nd = false).
Proof.
  intros Hstat Hr He.
  destruct nd as [[fi|e0] rd es].
  - assert (Hcb : answer example_callback root (Some fi) None = None).
    { unfold answer, example_callback, count. destruct (IsDir fi); reflexivity. }
    cbn [Lstat snd is_dir]. destruct (IsDir fi) eqn:Hd.
    + destruct (returned_aggregate NumWorkers BufferSize Join
                  (answer example_callback) root (Node (inl fi) rd es) w e)
        as (_ & ->); auto.
      * apply (root_check_passes NumWorkers _ root _ fi); auto.
      * split; [|intros [H|H]; congruence].
        destruct (0 <? List.length (errorList w))%nat; discriminate.
    + assert (Hm : main (Walk_root NumWorkers (answer example_callback)
                           (Walk_init root (Node (inl fi) rd es)) root
                           (Node (inl fi) rd es))
                   = Returned (Some ErrNotDir)).
      { unfold Walk_root. cbn [Lstat]. rewrite Hcb, Hd. reflexivity. }
      destruct (root_exit_reachable _ _ _ _ _ _ _ _ Hm Hr) as [-> | ->];
        [discriminate|].
      unfold returned in He. rewrite Hm in He. injection He as <-.
      split; auto.
  - assert (Hm : main (Walk_root NumWorkers (answer example_callback)
                         (Walk_init root (Node (inr e0) rd es)) root
                         (Node (inr e0) rd es))
                 = Returned (Some e0)) by reflexivity.
    destruct (root_exit_reachable _ _ _ _ _ _ _ _ Hm Hr) as [-> | ->];
      [discriminate|].
    unfold returned in He. rewrite Hm in He. injection He as <-.
    cbn [Lstat snd is_dir]. split; [intros _; left; discriminate|].
    intros _. specialize (Hstat). simpl in Hstat.
    destruct e0 as [| |m|m|l]; try reflexivity.
    exfalso. apply (Hstat l). reflexivity.
Qed.

Lemma X15_witness :
  print_errors (Some ErrNotDir) = AssertionPanic
  <-> (snd (Lstat (Examples.file "root")) <> None
       \/ is_dir (Examples.file "root") = false).
Proof.
  apply (X15_the_example_program_panics_on_a_bad_root 2 2 Examples.Join
           "root" (Examples.file "root") Runs.example_file_root
           (Some ErrNotDir)).
  - intros l. discriminate.
  - apply after_reachable.
  - vm_compute. reflexivity.
Defined.

(** ** What has been sent stays, in order *)

Section Sent.

Variable NumWorkers : nat.
Variable BufferSize : nat.
Variable Join : string -> string -> string.
Variable walkFn : string -> option FileInfo -> err -> err.
Variable root0 : string.
Variable nd0 : node.

Lemma sent_set_thread (w : Walker) (t : tid) (stk : thread) :
  errorList (set_thread w t stk) ++ errors (set_thread w t stk)
  = errorList w ++ errors w.
Proof. destruct t; reflexivity. Qed.

(** A step adds at most one error, at the end of what has been sent. *)
Lemma transition_sent (w w' : Walker) :
  transition NumWorkers BufferSize Join walkFn w w' ->
  exists more,
    errorList w' ++ errors w' = (errorList w ++ errors w) ++ more.
Proof.
  intros Htr.
  transition_cases Htr; rewrite ?sent_set_thread; simpl;
    try (exists []; rewrite app_nil_r; reflexivity).
  - exists [we]. rewrite He, !app_nil_r. reflexivity.
  - exists [we]. rewrite app_assoc. reflexivity.
  - exists []. rewrite He, app_nil_r, <- app_assoc. reflexivity.
Qed.

Lemma exec_sent (l : list action) :
  forall w w',
    reachable NumWorkers BufferSize Join walkFn root0 nd0 w ->
    exec NumWorkers BufferSize Join walkFn w l = Some w' ->
    exists more,
      errorList w' ++ errors w' = (errorList w ++ errors w) ++ more.
Proof.
  induction l as [|a l IH]; simpl; intros w w' Hr Hx.
  - injection Hx as <-. exists []. rewrite app_nil_r. reflexivity.
  - destruct (step NumWorkers BufferSize Join walkFn w a) as [w1|] eqn:Ha;
      try discriminate.
    pose proof (step_not_crashed _ _ _ _ _ _ _ Ha) as Hc.
    pose proof (walk_inv_reachable _ _ _ _ _ _ _ Hr Hc) as Hinv.
    pose proof (step_transition _ _ _ _ _ _ _ _ _ Hinv Ha) as Htr.
    destruct (transition_sent _ _ Htr) as (m1 & H1).
    destruct (IH w1 w') as (m2 & H2); auto.
    + econstructor; [exists a; exact Ha | exact Hr].
    + exists (m1 ++ m2). rewrite H2, H1, app_assoc. reflexivity.
Qed.

End Sent.

(** ** A walk without workers *)

Section Alone.

Variable Join : string -> string -> string.
Variable walkFn : string -> option FileInfo -> err -> err.
Variable root0 : string.
Variable nd0 : node.

Lemma calls_of_app (l1 l2 : list event) :
  calls_of (l1 ++ l2) = calls_of l1 ++ calls_of l2.
Proof. apply flat_map_app. Qed.

Lemma reports_of_app (l1 l2 : list event) :
  reports_of (l1 ++ l2) = reports_of l1 ++ reports_of l2.
Proof. apply flat_map_app. Qed.

Ltac in_order :=
  simpl in *;
  rewrite ?calls_of_app, ?reports_of_app in *;
  simpl in *;
  rewrite <- ?app_assoc in *;
  simpl in *;
  auto.

Lemma alone_transition (w w' : Walker) :
  alone_inv Join walkFn root0 nd0 w ->
  transition 0 0 Join walkFn w w' ->
  crashed w' = None ->
  alone_inv Join walkFn root0 nd0 w'.
Proof.
  intros (Hws & Hjs & Hes & Hcalls & Hreps) Htr.
  assert (Hmain : forall t stk, get_thread w t = Some stk ->
                    t = TMain /\ main w = Running stk).
  { intros [|j] stk Hg; simpl in Hg.
    - destruct (main w); try discriminate. injection Hg as ->. auto.
    - rewrite Hws in Hg. destruct j; discriminate. }
  unfold alone_inv, pending in *.
  transition_cases Htr; intros Hc';
    try (simpl in Hc'; discriminate Hc');
    try (rewrite Hws in Hi; destruct i; discriminate);
    try (exfalso; lia);
    try (rewrite He in Hes; discriminate);
    try (destruct (Hmain _ _ Hg) as (-> & Hm); clear Hmain);
    try rewrite Hm in *; simpl.
  - unfold walk_events in *. rewrite HL in *. simpl in *. auto.
  - unfold walk_events in *. rewrite HL, Hcb in *. in_order.
  - unfold walk_events in *. rewrite HL, Hcb, Hd in *. in_order.
  - unfold walk_events in *. rewrite HL, Hcb, Hd in *.
    simpl in *. rewrite app_nil_r in *. in_order.
  - in_order.
  - cbn [flat_map task_events] in Hcalls, Hreps.
    rewrite (dir_events_unfold Join walkFn path nd) in *.
    destruct (readDirNames nd) as [names [e1|]]; simpl in Hrd;
      [|discriminate].
    injection Hrd as ->. in_order.
  - cbn [flat_map task_events] in Hcalls, Hreps.
    rewrite (dir_events_unfold Join walkFn path nd), Hrd in *. in_order.
  - in_order.
  - cbn [flat_map task_events] in Hcalls, Hreps.
    rewrite loop_events_cons, HL in Hcalls, Hreps. cbn [fst snd] in *.
    rewrite Hcb, Hs in *. in_order.
  - cbn [flat_map task_events] in Hcalls, Hreps.
    rewrite loop_events_cons, HL in Hcalls, Hreps. cbn [fst snd] in *.
    rewrite Hcb, Hs in *. in_order.
  - cbn [flat_map task_events] in Hcalls, Hreps.
    rewrite loop_events_cons, HL in Hcalls, Hreps. cbn [fst snd] in *.
    rewrite Hcb, Hd in *. in_order.
  - cbn [flat_map task_events] in Hcalls, Hreps.
    rewrite loop_events_cons, HL in Hcalls, Hreps. cbn [fst snd] in *.
    rewrite Hcb, Hd in *. in_order.
  - in_order.
  - in_order.
  - in_order.
  - in_order.
Qed.

Lemma alone_reachable (w : Walker) :
  reachable 0 0 Join walkFn root0 nd0 w ->
  crashed w = None ->
  alone_inv Join walkFn root0 nd0 w.
Proof.
  intros Hr. pattern w. revert w Hr.
  apply reachable_transition_ind.
  - intros _. repeat split; simpl; auto.
  - intros w w' _ Hc IH Htr Hc'.
    apply (alone_transition w w'); auto.
Qed.

End Alone.

(** With no worker, a walk that has returned has not panicked. *)
Lemma alone_returned_sane (Join : string -> string -> string)
    (walkFn : string -> option FileInfo -> err -> err)
    (root0 : string) (nd0 : node) (w : Walker) :
  reachable 0 0 Join walkFn root0 nd0 w ->
  forall r, returned w r -> crashed w = None.
Proof.
  intros Hr. pattern w. revert w Hr.
  apply reachable_transition_ind; [reflexivity|].
  intros w w' Hr Hc IH Htr r Hret.
  pose proof (workers_length _ _ _ _ _ _ _ Hr) as Hlen.
  assert (Hws : workers w = []).
  { apply length_zero_iff_nil. destruct Hlen; assumption. }
  assert (Hmain : forall t stk, get_thread w t = Some stk ->
                    exists stk0, main w = Running stk0).
  { intros [|j] stk Hg; simpl in Hg.
    - destruct (main w) as [|stk0| |]; try discriminate. eauto.
    - rewrite Hws in Hg. destruct j; discriminate. }
  unfold returned in Hret.
  transition_cases Htr; rewrite ?crashed_set_thread; simpl; auto;
    exfalso; destruct (Hmain _ _ Hg) as (stk0 & Hm); simpl in Hret;
    congruence.
Qed.

(** X16: what has been sent on [w.errors] stays, and stays in order.  The
    errors collected followed by the errors in the buffer only grow at the
    end, whatever the goroutines do; and when [Walk] has returned the buffer
    is empty, so every error that was sent is in the list, in the order of
    the sends. *)
Theorem X16_what_was_sent_is_collected_in_order
    (NumWorkers BufferSize : nat) (Join : string -> string -> string)
    (walkFn : string -> option FileInfo -> err -> err)
    (root : string) (nd : node) (w w' : Walker) (l : list action) :
  reachable NumWorkers BufferSize Join walkFn root nd w ->
  exec NumWorkers BufferSize Join walkFn w l = Some w' ->
  exists more,
    errorList w' ++ errors w' = (errorList w ++ errors w) ++ more
    /\ ((exists e, returned w' e) ->
        errorList w' = (errorList w ++ errors w) ++ more).
Proof.
  intros Hr Hx.
  destruct (exec_sent NumWorkers BufferSize Join walkFn root nd l w w' Hr Hx)
    as (more & Hmore).
  exists more. split; [exact Hmore|].
  intros (e & He).
  pose proof (exec_reachable _ _ _ _ _ _ l w w' Hr Hx) as Hr'.
  rewrite (returned_buffer_empty _ _ _ _ _ _ w' e Hr' He), app_nil_r in Hmore.
  exact Hmore.
Qed.

Lemma X16_witness :
  exists more,
    errorList Examples.finished_with_error
    ++ errors Examples.finished_with_error
    = (errorList Runs.sent ++ errors Runs.sent) ++ more
    /\ ((exists e, returned Examples.finished_with_error e) ->
        errorList Examples.finished_with_error
        = (errorList Runs.sent ++ errors Runs.sent) ++ more).
Proof.
  apply (X16_what_was_sent_is_collected_in_order 2 1 Examples.Join
           Examples.callback "root" Examples.tree_with_locked
           Runs.sent Examples.finished_with_error Runs.collection).
  - apply after_reachable.
  - vm_compute. reflexivity.
Defined.

(** X17: with no worker and no buffer the walk is the depth-first walk of
    one goroutine.  When [Walk] has returned, the process has not panicked,
    the callback has been called for each directory before its entries and
    for the entries in listing order, each subtree before the next entry,
    and the errors collected are those of that walk, in its order. *)
Theorem X17_without_workers_the_walk_is_depth_first
    (Join : string -> string -> string)
    (walkFn : string -> option FileInfo -> err -> err)
    (root : string) (nd : node) (w : Walker) (e : err) :
  reachable 0 0 Join walkFn root nd w ->
  returned w e ->
  crashed w = None
  /\ calls w = expected_calls Join walkFn root nd
  /\ errorList w = expected_errors Join walkFn root nd.
Proof.
  intros Hr He.
  pose proof (alone_returned_sane Join walkFn root nd w Hr e He) as Hc.
  destruct (alone_reachable Join walkFn root nd w Hr Hc)
    as (_ & _ & _ & Hcalls & Hreps).
  unfold returned in He. unfold pending in *. rewrite He in *.
  simpl in *. rewrite app_nil_r in *. auto.
Qed.

Lemma X17_witness :
  crashed Runs.alone = None
  /\ calls Runs.alone
     = expected_calls Examples.Join Examples.callback "root"
         Examples.tree_with_locked
  /\ errorList Runs.alone
     = expected_errors Examples.Join Examples.callback "root"
         Examples.tree_with_locked.
Proof.
  apply (X17_without_workers_the_walk_is_depth_first Examples.Join
           Examples.callback "root" Examples.tree_with_locked Runs.alone
           (Some (ErrorListValue
                    [mkWalkerError (PathError "permission denied") "root/d"]))).
  - apply after_reachable.
  - vm_compute. reflexivity.
Defined.

(** ** A queue that nobody drains *)

Section NoWorker.

Variable BufferSize : nat.
Variable Join : string -> string -> string.
Variable walkFn : string -> option FileInfo -> err -> err.
Variable root0 : string.
Variable nd0 : node.
Variable fi0 : FileInfo.

Hypothesis room : 1 <= BufferSize.
Hypothesis root_stat : Lstat nd0 = (Some fi0, None).
Hypothesis root_dir : IsDir fi0 = true.
Hypothesis root_nil : walkFn root0 (Some fi0) None = None.

(** With no worker and a buffer, a walk whose root check passes goes
    through three states: the entry of [Walk], the entry of [addJob(root)]
    and, the root queued, the wait for a counter that stays at one. *)
Lemma no_worker_states (w : Walker) :
  reachable 0 BufferSize Join walkFn root0 nd0 w ->
  w = Walk_init root0 nd0
  \/ w = mkWalker 0 false [] false [] false [] (Running [AddJob root0 nd0]) []
           [(root0, Some fi0, None)] None
  \/ w = mkWalker 1 false [(root0, nd0)] false [] false [] (Running []) []
           [(root0, Some fi0, None)] None.
Proof.
  intros Hr. pattern w. revert w Hr.
  apply reachable_transition_ind; [left; reflexivity|].
  intros w w' _ _ IH Htr.
  destruct IH as [ -> | [ -> | -> ] ].
  - transition_cases Htr; simpl in *; try discriminate;
      try (destruct t as [|[|j]]; discriminate);
      try (destruct i; discriminate);
      injection Hm as <- <-; rewrite root_stat in HL; try discriminate;
      injection HL as <-; try congruence.
    right. left. reflexivity.
  - transition_cases Htr; simpl in *; try discriminate;
      try (destruct i; discriminate);
      try (destruct t as [|[|j]]; simpl in Hg; try discriminate;
           injection Hg as <- <- <-);
      try lia.
    right. right. reflexivity.
  - transition_cases Htr; simpl in *; try discriminate;
      try (destruct i; discriminate);
      try (destruct t as [|[|j]]; discriminate).
Qed.

End NoWorker.

(** X18: with no worker and a buffer of at least one, a walk whose root
    check passes never returns.  [addJob(root)] queues the root, nobody
    receives it, and [w.wg.Wait()] waits for a counter that stays at one:
    the process does not panic, the callback has been called for the root
    only, and once the root is queued nothing moves any more. *)
Theorem X18_without_workers_a_buffered_walk_never_returns
    (BufferSize : nat) (Join : string -> string -> string)
    (walkFn : string -> option FileInfo -> err -> err)
    (root : string) (nd : node) (fi : FileInfo) (w : Walker) :
  1 <= BufferSize ->
  Lstat nd = (Some fi, None) ->
  IsDir fi = true ->
  walkFn root (Some fi) None = None ->
  reachable 0 BufferSize Join walkFn root nd w ->
  crashed w = None
  /\ (forall e, ~ returned w e)
  /\ List.length (calls w) <= 1
  /\ (jobs w = [(root, nd)] ->
      forall a, step 0 BufferSize Join walkFn w a = None).
Proof.
  intros Hroom HL Hd Hcb Hr.
  destruct (no_worker_states BufferSize Join walkFn root nd fi Hroom HL Hd Hcb
              w Hr) as [ -> | [ -> | -> ] ];
    (split; [reflexivity|]); (split; [intros e; discriminate|]);
    (split; [simpl; lia|]); try discriminate.
  intros _ a. destruct a as [|t r|i| | |]; try reflexivity.
  - destruct t as [|[|j]]; reflexivity.
  - destruct i; reflexivity.
Qed.

Lemma X18_witness :
  crashed Runs.queued = None
  /\ (forall e, ~ returned Runs.queued e)
  /\ List.length (calls Runs.queued) <= 1
  /\ (jobs Runs.queued = [("root", Examples.small_tree)] ->
      forall a,
        step 0 1 Examples.Join Examples.callback Runs.queued a = None).
Proof.
  apply (X18_without_workers_a_buffered_walk_never_returns 1 Examples.Join
           Examples.callback "root" Examples.small_tree
           (mkFileInfo "root" true) Runs.queued).
  - lia.
  - reflexivity.
  - reflexivity.
  - reflexivity.
  - apply after_reachable.
Defined.

(** ** Submission under a full queue *)

Section Fallback.

Variable NumWorkers : nat.
Variable BufferSize : nat.
Variable Join : string -> string -> string.
Variable walkFn : string -> option FileInfo -> err -> err.
Variable root0 : string.
Variable nd0 : node.

(** A goroutine that has a stack belongs to a walk that passed the root
    check. *)
Lemma busy_after_root_check (w : Walker) (t : tid) (stk : thread) :
  reachable NumWorkers BufferSize Join walkFn root0 nd0 w ->
  get_thread w t = Some stk ->
  forall e0,
    main (Walk_root NumWorkers walkFn (Walk_init root0 nd0) root0 nd0)
    <> Returned e0.
Proof.
  intros Hr Hg e0 Hroot.
  destruct (root_exit_reachable _ _ _ _ _ _ _ _ Hroot Hr) as [-> | ->].
  - destruct t as [|i]; simpl in Hg; [discriminate|destruct i; discriminate].
  - destruct t as [|i]; simpl in Hg.
    + rewrite Hroot in Hg. discriminate.
    + revert Hroot Hg. unfold Walk_root.
      destruct (Lstat nd0) as [info [e1|]]; simpl;
        [intros _; destruct i; discriminate|].
      destruct (walkFn root0 info None); simpl;
        [intros _; destruct i; discriminate|].
      destruct info as [fi|]; simpl; [|intros _; destruct i; discriminate].
      destruct (IsDir fi); simpl; [discriminate|].
      intros _; destruct i; discriminate.
Qed.

(** [addJob] runs in the caller of [Walk] or inside the loop of a
    [processPath]. *)
Lemma addJob_context (w : Walker) (t : tid) (path : string) (nd : node)
    (k : thread) :
  walk_inv NumWorkers BufferSize Join walkFn root0 nd0 w ->
  get_thread w t = Some (AddJob path nd :: k) ->
  t = TMain \/ k <> [].
Proof.
  intros (_ & Hw & _) Hg. destruct t as [|i]; [left; reflexivity|right].
  simpl in Hg. pose proof (forallb_nth_error _ _ _ _ Hw Hg) as Hok.
  intros ->. unfold thread_ok in Hok. simpl in Hok. discriminate.
Qed.

(** The caller of [Walk], and a goroutine that sends from inside a loop,
    find [w.errors] open. *)
Lemma fallback_send_open (w : Walker) (t : tid) (we : WalkerError)
    (k : thread) :
  reachable NumWorkers BufferSize Join walkFn root0 nd0 w ->
  crashed w = None ->
  get_thread w t = Some (Send we :: k) ->
  t = TMain \/ k <> [] ->
  errors_closed w = false.
Proof.
  intros Hr Hc Hg [-> | Hk].
  - destruct (walk_inv_reachable _ _ _ _ _ _ _ Hr Hc) as (Hp & _).
    simpl in Hg. unfold phase_inv in Hp.
    destruct (main w); try discriminate. apply Hp.
  - apply (busy_channels_open _ _ _ _ _ _ _ _ _ Hr Hc Hg).
    destruct k; [contradiction|reflexivity].
Qed.

(** A send on the open channel puts the value at the end of what has been
    sent, and the sender goes on. *)
Lemma send_delivers (w w' : Walker) (t : tid) (we : WalkerError) (k : thread)
    (r : option nat) :
  crashed w = None ->
  get_thread w t = Some (Send we :: k) ->
  errors_closed w = false ->
  step NumWorkers BufferSize Join walkFn w (ARun t r) = Some w' ->
  crashed w' = None
  /\ get_thread w' t = Some k
  /\ errorList w' ++ errors w' = (errorList w ++ errors w) ++ [we].
Proof.
  intros Hc Hg Hec. unfold step, run. rewrite Hc, Hg.
  unfold send_error. rewrite Hec.
  destruct r as [i|].
  - destruct (errors w) as [|we1 es] eqn:He; [|discriminate].
    intros H; injection H as <-.
    assert (Hg1 : get_thread (set_errorList w (errorList w ++ [we])) t
                  = Some (Send we :: k)) by (destruct t; exact Hg).
    rewrite crashed_set_thread, (get_set_thread _ _ _ _ Hg1), sent_set_thread.
    simpl. rewrite He, !app_nil_r. auto.
  - destruct (List.length (errors w) <? BufferSize)%nat; [|discriminate].
    intros H; injection H as <-.
    assert (Hg1 : get_thread (set_errors w (errors w ++ [we])) t
                  = Some (Send we :: k)) by (destruct t; exact Hg).
    rewrite crashed_set_thread, (get_set_thread _ _ _ _ Hg1), sent_set_thread.
    simpl. rewrite app_assoc. auto.
Qed.

(** What has been sent is in the aggregate when [Walk] returns. *)
Lemma sent_is_returned (w w' : Walker) (l : list action) (we : WalkerError)
    (e : err) :
  (forall e0,
     main (Walk_root NumWorkers walkFn (Walk_init root0 nd0) root0 nd0)
     <> Returned e0) ->
  reachable NumWorkers BufferSize Join walkFn root0 nd0 w ->
  In we (errorList w ++ errors w) ->
  exec NumWorkers BufferSize Join walkFn w l = Some w' ->
  returned w' e ->
  In we (errorList w') /\ e = Some (ErrorListValue (errorList w')).
Proof.
  intros Hroot Hr Hin Hx Hret.
  assert (Hr' : reachable NumWorkers BufferSize Join walkFn root0 nd0 w')
    by (eapply exec_reachable; eauto).
  destruct (exec_sent _ _ _ _ _ _ l w w' Hr Hx) as (more & Hs).
  rewrite (returned_buffer_empty _ _ _ _ _ _ _ _ Hr' Hret), app_nil_r in Hs.
  assert (Hin' : In we (errorList w'))
    by (rewrite Hs; apply in_or_app; left; exact Hin).
  split; [exact Hin'|].
  destruct (returned_aggregate NumWorkers BufferSize Join walkFn root0 nd0
              w' e Hroot Hr' Hret) as (_ & ->).
  destruct (errorList w'); [contradiction|reflexivity].
Qed.

(** [processPath] leaves the error of a directory it cannot list to its
    caller, whoever the caller is. *)
Lemma list_failure_reported (w : Walker) (t : tid) (c : caller)
    (path : string) (nd : node) (k : thread) (e : error) :
  walk_inv NumWorkers BufferSize Join walkFn root0 nd0 w ->
  crashed w = None ->
  get_thread w t = Some (ProcessPath c path nd :: k) ->
  snd (readDirNames nd) = Some e ->
  exists w',
    step NumWorkers BufferSize Join walkFn w (ARun t None) = Some w'
    /\ crashed w' = None
    /\ get_thread w' t = Some (Send (mkWalkerError e path) :: k).
Proof.
  intros Hinv Hc Hg He.
  destruct (processPath_return_resume NumWorkers BufferSize Join walkFn
              root0 nd0 w t _ k c path (Some e) Hc Hinv Hg eq_refl)
    as (n & Hn & Heq).
  exists (set_thread (set_wg w n) t (Send (mkWalkerError e path) :: k)).
  assert (Hg1 : get_thread (set_wg w n) t = Some (ProcessPath c path nd :: k))
    by (destruct t; exact Hg).
  split; [|split].
  - unfold step, run. rewrite Hc, Hg. unfold processPath_enter.
    destruct (readDirNames nd) as [names [e1|]]; simpl in He; [|discriminate].
    injection He as ->. rewrite Heq. reflexivity.
  - rewrite crashed_set_thread. exact Hc.
  - apply (get_set_thread _ _ _ _ Hg1).
Qed.

(** [processPath] leaves the error the callback returns for a child, other
    than [filepath.SkipDir], to its caller, whoever the caller is. *)
Lemma abort_reported (w : Walker) (t : tid) (c : caller) (root name : string)
    (nd : node) (rest : list (string * node)) (k : thread) (e : error) :
  walk_inv NumWorkers BufferSize Join walkFn root0 nd0 w ->
  crashed w = None ->
  get_thread w t = Some (Range c root ((name, nd) :: rest) :: k) ->
  walkFn (Join root name) (fst (Lstat nd)) (snd (Lstat nd)) = Some e ->
  is_SkipDir e = false ->
  exists w',
    step NumWorkers BufferSize Join walkFn w (ARun t None) = Some w'
    /\ crashed w' = None
    /\ get_thread w' t = Some (Send (mkWalkerError e root) :: k).
Proof.
  intros Hinv Hc Hg Hcb Hs.
  destruct (processPath_return_resume NumWorkers BufferSize Join walkFn
              root0 nd0 w t _ k c root (Some e) Hc Hinv Hg eq_refl)
    as (n & Hn & _).
  destruct (Lstat nd) as [info e0] eqn:HL. simpl in Hcb.
  set (w1 := add_call w (Join root name, info, e0)).
  exists (set_thread (set_wg w1 n) t (Send (mkWalkerError e root) :: k)).
  assert (Hg1 : get_thread (set_wg w1 n) t
                = Some (Range c root ((name, nd) :: rest) :: k))
    by (destruct t; exact Hg).
  split; [|split].
  - unfold step, run. rewrite Hc, Hg. unfold processPath_range.
    rewrite HL, Hcb, Hs. fold w1.
    unfold processPath_return, wg_Done.
    change (wg w1) with (wg w). rewrite Hn.
    change (crashed (set_wg w1 n)) with (crashed w). rewrite Hc.
    destruct c; reflexivity.
  - rewrite crashed_set_thread. exact Hc.
  - apply (get_set_thread _ _ _ _ Hg1).
Qed.

End Fallback.

(** C7: in every state of every walk, when [addJob] finds no receiver
    parked and no room in the buffer, it is not blocked: the submitting
    context itself goes on with [processPath] for the path, the queue is left
    as it was and the counter is one higher; that context is the caller of
    [Walk] or a goroutine inside a loop of [processPath].  Whoever has called
    it, a [processPath] that fails to list its directory, or whose callback
    returns an error other than [filepath.SkipDir] for a child, leaves its
    caller with the send of that error paired with the path of the job, so
    the fallback reports in the form a worker reports in.  The send of the
    fallback finds [w.errors] open; it is not left blocked, since the
    collector takes the value at once or takes one from the buffer; and when
    it is made the process does not panic, the sender goes on with what
    follows the call, the value is the last of the values sent to
    [w.errors], and it is in the aggregate [Walk] returns, however the walk
    goes on. *)
Theorem C7_saturated_queue_runs_inline
    (NumWorkers BufferSize : nat) (Join : string -> string -> string)
    (walkFn : string -> option FileInfo -> err -> err)
    (root0 : string) (nd0 : node)
    (w : Walker) (t : tid) (path : string) (nd : node) (k : thread) :
  reachable NumWorkers BufferSize Join walkFn root0 nd0 w ->
  crashed w = None ->
  get_thread w t = Some (AddJob path nd :: k) ->
  BufferSize <= List.length (jobs w) ->
  (exists w',
     step NumWorkers BufferSize Join walkFn w (ARun t None) = Some w'
     /\ crashed w' = None
     /\ get_thread w' t = Some (ProcessPath ByAddJob path nd :: k)
     /\ jobs w' = jobs w
     /\ wg w' = S (wg w))
  /\ (t = TMain \/ k <> [])
  /\ (forall e, addJob_report path e = worker_report path e)
  /\ (forall w1 c k1 e,
        reachable NumWorkers BufferSize Join walkFn root0 nd0 w1 ->
        crashed w1 = None ->
        get_thread w1 t = Some (ProcessPath c path nd :: k1) ->
        snd (readDirNames nd) = Some e ->
        exists w',
          step NumWorkers BufferSize Join walkFn w1 (ARun t None) = Some w'
          /\ crashed w' = None
          /\ get_thread w' t = Some (Send (mkWalkerError e path) :: k1))
  /\ (forall w1 c name n rest k1 e,
        reachable NumWorkers BufferSize Join walkFn root0 nd0 w1 ->
        crashed w1 = None ->
        get_thread w1 t = Some (Range c path ((name, n) :: rest) :: k1) ->
        walkFn (Join path name) (fst (Lstat n)) (snd (Lstat n)) = Some e ->
        is_SkipDir e = false ->
        exists w',
          step NumWorkers BufferSize Join walkFn w1 (ARun t None) = Some w'
          /\ crashed w' = None
          /\ get_thread w' t = Some (Send (mkWalkerError e path) :: k1))
  /\ (forall w2 t2 k2 we,
        reachable NumWorkers BufferSize Join walkFn root0 nd0 w2 ->
        crashed w2 = None ->
        get_thread w2 t2 = Some (Send we :: k2) ->
        t2 = TMain \/ k2 <> [] ->
        errors_closed w2 = false
        /\ (errors w2 = [] ->
            exists w3,
              step NumWorkers BufferSize Join walkFn w2 (ARun t2 (Some 0))
              = Some w3)
        /\ (errors w2 <> [] ->
            exists w3,
              step NumWorkers BufferSize Join walkFn w2 ACollect = Some w3
              /\ errors w3 = tl (errors w2)
              /\ get_thread w3 t2 = Some (Send we :: k2))
        /\ (forall r w3,
              step NumWorkers BufferSize Join walkFn w2 (ARun t2 r) = Some w3 ->
              crashed w3 = None
              /\ get_thread w3 t2 = Some k2
              /\ errorList w3 ++ errors w3
                 = (errorList w2 ++ errors w2) ++ [we]
              /\ forall l w4 e,
                   exec NumWorkers BufferSize Join walkFn w3 l = Some w4 ->
                   returned w4 e ->
                   In we (errorList w4)
                   /\ e = Some (ErrorListValue (errorList w4)))).
Proof.
  intros Hr Hc Hg Hfull.
  destruct (busy_channels_open _ _ _ _ _ _ _ _ _ Hr Hc Hg eq_refl) as (Hjc & _).
  pose proof (walk_inv_reachable _ _ _ _ _ _ _ Hr Hc) as Hinv.
  split; [|split; [|split; [|split; [|split]]]].
  - assert (Hg1 : get_thread (wg_Add w) t = Some (AddJob path nd :: k))
      by (destruct t; exact Hg).
    exists (set_thread (wg_Add w) t (ProcessPath ByAddJob path nd :: k)).
    split.
    + unfold step, run. rewrite Hc, Hg. unfold addJob. simpl receiver_parked.
      simpl negb. cbv iota.
      change (jobs_closed (wg_Add w)) with (jobs_closed w). rewrite Hjc.
      unfold try_send_job. change (jobs (wg_Add w)) with (jobs w).
      apply Nat.ltb_ge in Hfull. rewrite Hfull. reflexivity.
    + rewrite (get_set_thread _ _ _ _ Hg1). destruct t; simpl; auto.
  - exact (addJob_context NumWorkers BufferSize Join walkFn root0 nd0
             w t path nd k Hinv Hg).
  - reflexivity.
  - intros w1 c k1 e Hr1 Hc1 Hg1 He.
    apply (list_failure_reported NumWorkers BufferSize Join walkFn root0 nd0
             w1 t c path nd k1 e); auto.
    apply walk_inv_reachable; auto.
  - intros w1 c name n rest k1 e Hr1 Hc1 Hg1 Hcb Hs.
    apply (abort_reported NumWorkers BufferSize Join walkFn root0 nd0
             w1 t c path name n rest k1 e); auto.
    apply walk_inv_reachable; auto.
  - intros w2 t2 k2 we Hr2 Hc2 Hg2 Hctx.
    pose proof (fallback_send_open NumWorkers BufferSize Join walkFn root0 nd0
                  w2 t2 we k2 Hr2 Hc2 Hg2 Hctx) as Hec.
    split; [exact Hec|]. split; [|split].
    + intros He. unfold step, run. rewrite Hc2, Hg2. unfold send_error.
      rewrite Hec, He. eauto.
    + intros He. unfold step, collectErrors. rewrite Hc2.
      destruct (errors w2) as [|we1 es]; [contradiction|].
      eexists. split; [reflexivity|]. split; [reflexivity|].
      destruct t2; exact Hg2.
    + intros r w3 Hstep.
      destruct (send_delivers NumWorkers BufferSize Join walkFn
                  w2 w3 t2 we k2 r Hc2 Hg2 Hec Hstep) as (Hc3 & Hg3 & Hs3).
      split; [exact Hc3|]. split; [exact Hg3|]. split; [exact Hs3|].
      intros l w4 e Hx Hret.
      apply (sent_is_returned NumWorkers BufferSize Join walkFn root0 nd0
               w3 w4 l we e); auto.
      * eapply busy_after_root_check; eauto.
      * econstructor; [exists (ARun t2 r); exact Hstep | exact Hr2].
      * rewrite Hs3. apply in_or_app. right. left. reflexivity.
Qed.

Lemma C7_witness :
  (exists w',
     step 1 1 Examples.Join Examples.callback Runs.full_queue
       (ARun (TWorker 0) None) = Some w'
     /\ crashed w' = None
     /\ get_thread w' (TWorker 0)
        = Some [ProcessPath ByAddJob "root/d" (Examples.locked_dir "d");
                Range ByWorker "root" []]
     /\ jobs w' = jobs Runs.full_queue
     /\ wg w' = S (wg Runs.full_queue))
  /\ (forall w1 c k1,
        reachable 1 1 Examples.Join Examples.callback "root"
          Runs.dir_and_locked w1 ->
        crashed w1 = None ->
        get_thread w1 (TWorker 0)
        = Some (ProcessPath c "root/d" (Examples.locked_dir "d") :: k1) ->
        exists w',
          step 1 1 Examples.Join Examples.callback w1 (ARun (TWorker 0) None)
          = Some w'
          /\ crashed w' = None
          /\ get_thread w' (TWorker 0) = Some (Send Runs.locked_error :: k1))
  /\ (forall w2 t2 k2 we r w3 l w4 e,
        reachable 1 1 Examples.Join Examples.callback "root"
          Runs.dir_and_locked w2 ->
        crashed w2 = None ->
        get_thread w2 t2 = Some (Send we :: k2) ->
        t2 = TMain \/ k2 <> [] ->
        step 1 1 Examples.Join Examples.callback w2 (ARun t2 r) = Some w3 ->
        exec 1 1 Examples.Join Examples.callback w3 l = Some w4 ->
        returned w4 e ->
        errors_closed w2 = false
        /\ errorList w3 ++ errors w3 = (errorList w2 ++ errors w2) ++ [we]
        /\ In we (errorList w4)
        /\ e = Some (ErrorListValue (errorList w4))).
Proof.
  destruct (C7_saturated_queue_runs_inline 1 1 Examples.Join Examples.callback
              "root" Runs.dir_and_locked
              Runs.full_queue (TWorker 0) "root/d" (Examples.locked_dir "d")
              [Range ByWorker "root" []])
    as (Hinline & _ & _ & Hlist & _ & Hsend).
  - apply after_reachable.
  - vm_compute. reflexivity.
  - vm_compute. reflexivity.
  - vm_compute. lia.
  - split; [exact Hinline|]. split.
    + intros w1 c k1 Hr1 Hc1 Hg1.
      apply (Hlist w1 c k1 (PathError "permission denied") Hr1 Hc1 Hg1).
      reflexivity.
    + intros w2 t2 k2 we r w3 l w4 e Hr2 Hc2 Hg2 Hctx Hstep Hx Hret.
      destruct (Hsend w2 t2 k2 we Hr2 Hc2 Hg2 Hctx) as (Hec & _ & _ & Hdel).
      destruct (Hdel r w3 Hstep) as (_ & _ & Hs3 & Hend).
      destruct (Hend l w4 e Hx Hret) as (Hin & He).
      repeat split; assumption.
Defined.

(** The walk of [Runs.full_queue] to its end: the worker that finds the
    queue full lists ["root/d"] itself, fails, and sends the error from
    inside its loop; [Walk] returns it. *)
Example full_queue_fallback_run :
  option_map (fun w => get_thread w (TWorker 0))
    (exec 1 1 Examples.Join Examples.callback Runs.full_queue
       [ARun (TWorker 0) None; ARun (TWorker 0) None])
  = Some (Some [Send Runs.locked_error; Range ByWorker "root" []])
  /\ exists w,
       exec 1 1 Examples.Join Examples.callback Runs.full_queue
         Runs.fallback_schedule = Some w
       /\ crashed w = None
       /\ returned w (Some (ErrorListValue [Runs.locked_error])).
Proof.
  split; [vm_compute; reflexivity|].
  eexists. split; [vm_compute; reflexivity|].
  split; vm_compute; reflexivity.
Qed.
